(** * llm-docx: the document-analysis core, embedded in Rocq

    A shallow embedding of the backend services of the editor assistant,
    followed by the properties proved about them.

    The program:
    - [Js]        the string primitives of the host language the services
                  rely on (trim, slice, indexOf, split on the regular
                  expressions that occur in the sources);
    - [Sha256]    the digest behind [sha256] of chunker.ts;
    - [Runtime]   the embedder, the vector table and the LLM agent as
                  logged external calls, and the monad of asynchronous
                  methods;
    - [Hierarchy] services/hierarchy-extractor.ts (extractHeadings,
                  buildHierarchyTree, generateOutline, the positional and
                  the embedding fallbacks, extractHierarchy);
    - [Chunker]   services/chunker.ts (splitIntoSegments, applyOverlap,
                  chunkText, analyzeText, chunkWithHierarchy);
    - [DocSync]   services/doc-sync.ts (DocSyncManager);
    - [Summarize] services/summarize.ts (summarizeDocument);
    - [VectorDB]  db/vectordb.ts (the class VectorDB over the calls it
                  makes to the LanceDB connection and to the embedder);
    - [Review]    services/criticism.ts, services/suggest.ts and
                  services/agent.ts (criticizeDocument,
                  suggestChangesDocument, chatWithDocument).

    Between them come concrete documents ([Scenario]) and the notions
    the statements are phrased with; the lemmas and theorems follow.

    Conventions.  A string is a list of code units; the code units are
    the 256 below U+0100 ([ascii]).  Numbers that the sources compare
    with zero or subtract are integers ([Z]), options included; counters
    and list positions are [nat].  A rejected promise is an [Err] result;
    [console.error] is not recorded.  Hashing never rejects.  The
    embedder's vectors are opaque, and the floating-point test on them in
    [detectSectionsByEmbedding] is a parameter ([topicShift]); the
    embedder is taken to answer with one vector per text, as
    [Embedder.embedBatch] does. *)

From Stdlib Require Import Ascii String DecimalString.
From Stdlib Require Import List ZArith Lia Bool Arith Permutation Sorted.
Import ListNotations.

Local Open Scope list_scope.
Local Open Scope Z_scope.

(* ================================================================== *)
(** ** Host-language strings                                           *)
(* ================================================================== *)

Module Js.

Definition str : Type := list ascii.

Definition lit (s : string) : str := list_ascii_of_string s.

(** [s.length], as a number. *)
Definition len (s : str) : Z := Z.of_nat (length s).

Definition nl : ascii := "010"%char.
Definition cr : ascii := "013"%char.
Definition sp : ascii := " "%char.

Definition str_eqb (a b : str) : bool :=
  if list_eq_dec ascii_dec a b then true else false.

(** The class [\s] (and the characters [trim] strips): TAB, LF, VT, FF,
    CR, SPACE and NBSP are its members below U+0100. *)
Definition isSpace (c : ascii) : bool :=
  let n := nat_of_ascii c in
  (((9 <=? n) && (n <=? 13)) || (n =? 32) || (n =? 160))%nat.

(** [.] in a regular expression without the [s] flag: anything but a line
    terminator. *)
Definition isLineTerminator (c : ascii) : bool :=
  (Ascii.eqb c nl || Ascii.eqb c cr)%bool.

Definition isDigit (c : ascii) : bool :=
  let n := nat_of_ascii c in ((48 <=? n) && (n <=? 57))%nat.

Definition isUpperAZ (c : ascii) : bool :=
  let n := nat_of_ascii c in ((65 <=? n) && (n <=? 90))%nat.

Fixpoint takeWhile {A} (p : A -> bool) (l : list A) : list A :=
  match l with
  | x :: l' => if p x then x :: takeWhile p l' else []
  | [] => []
  end.

Fixpoint dropWhile {A} (p : A -> bool) (l : list A) : list A :=
  match l with
  | x :: l' => if p x then dropWhile p l' else l
  | [] => []
  end.

(** [s.trim()] *)
Definition trimStart (s : str) : str := dropWhile isSpace s.

Fixpoint trimEnd (s : str) : str :=
  match s with
  | [] => []
  | c :: s' =>
      match trimEnd s' with
      | [] => if isSpace c then [] else [c]
      | kept => c :: kept
      end
  end.

Definition trim (s : str) : str := trimEnd (trimStart s).

(** A buffer that was filled back to front, read front to back. *)
Definition reverse {A} (l : list A) : list A := rev_append l [].

(** Relative index resolution shared by [slice]: a negative index counts
    from the end, and every index is clamped to [0, n]. *)
Definition relIndex (n i : Z) : Z :=
  if i <? 0 then Z.max (n + i) 0 else Z.min i n.

(** [s.slice(a, b)] and [s.slice(a)], on strings and on arrays. *)
Definition slice {A} (s : list A) (a b : Z) : list A :=
  let n := Z.of_nat (length s) in
  let from := relIndex n a in
  let to := relIndex n b in
  firstn (Z.to_nat (to - from)) (skipn (Z.to_nat from) s).

Definition sliceFrom {A} (s : list A) (a : Z) : list A :=
  slice s a (Z.of_nat (length s)).

Fixpoint startsWith (needle s : str) : bool :=
  match needle, s with
  | [], _ => true
  | x :: needle', y :: s' =>
      if Ascii.eqb x y then startsWith needle' s' else false
  | _ :: _, [] => false
  end.

Fixpoint indexOfFrom (needle s : str) (pos : Z) : Z :=
  if startsWith needle s then pos
  else match s with
       | [] => -1
       | _ :: s' => indexOfFrom needle s' (pos + 1)
       end.

(** [s.indexOf(needle, from)]: the first position at or after [from]
    (clamped to [0, s.length]) where [needle] occurs, or [-1]. *)
Definition indexOf (s needle : str) (from : Z) : Z :=
  let k := Z.min (Z.max from 0) (len s) in
  indexOfFrom needle (skipn (Z.to_nat k) s) k.

(** [s.split(c)] for a one-character separator string. *)
Fixpoint splitChar (c : ascii) (s : str) : list str :=
  match s with
  | [] => [[]]
  | x :: s' =>
      if Ascii.eqb x c then [] :: splitChar c s'
      else match splitChar c s' with
           | p :: ps => (x :: p) :: ps
           | [] => [[x]]
           end
  end.

(** [parts.join(sep)] *)
Fixpoint join (sep : str) (parts : list str) : str :=
  match parts with
  | [] => []
  | [p] => p
  | p :: ps => p ++ sep ++ join sep ps
  end.

(** [s.split(re)] for a regular expression [re] that never matches the
    empty string.  [m prev rest] is the length of the match of [re]
    anchored at the current position, [rest] being the input from there
    and [prev] the code unit just before it (for a look-behind).  The
    leftmost match is cut out, and the search resumes right after it. *)
Fixpoint splitGo (m : option ascii -> str -> option nat)
    (prev : option ascii) (skip : nat) (cur : str) (s : str) : list str :=
  match s with
  | [] => [reverse cur]
  | c :: s' =>
      match skip with
      | S k => splitGo m (Some c) k cur s'
      | O =>
          match m prev s with
          | Some (S k) => reverse cur :: splitGo m (Some c) k [] s'
          | _ => splitGo m (Some c) O (c :: cur) s'
          end
      end
  end.

Definition splitRegex (m : option ascii -> str -> option nat) (s : str)
  : list str :=
  splitGo m None O [] s.

(** Number of leading code units of [ws] up to and including its last
    newline. *)
Fixpoint uptoLastNewline (ws : str) : option nat :=
  match ws with
  | [] => None
  | c :: ws' =>
      match uptoLastNewline ws' with
      | Some k => Some (S k)
      | None => if Ascii.eqb c nl then Some 1%nat else None
      end
  end.

(** [/\n\s*\n/]: a newline, then the longest run of white space that
    still ends in a newline. *)
Definition PARAGRAPH_SPLIT (_ : option ascii) (rest : str) : option nat :=
  match rest with
  | c :: rest' =>
      if Ascii.eqb c nl then
        match uptoLastNewline (takeWhile isSpace rest') with
        | Some k => Some (S k)
        | None => None
        end
      else None
  | [] => None
  end.

(** [/\s+/] *)
Definition WHITESPACE_RUN (_ : option ascii) (rest : str) : option nat :=
  match length (takeWhile isSpace rest) with
  | O => None
  | n => Some n
  end.

Definition isSentenceEnd (c : ascii) : bool :=
  (Ascii.eqb c "."%char || Ascii.eqb c "!"%char || Ascii.eqb c "?"%char)%bool.

(** [/(?<=[.!?])\s+/] *)
Definition SENTENCE_SPLIT (prev : option ascii) (rest : str) : option nat :=
  match prev with
  | Some p => if isSentenceEnd p then WHITESPACE_RUN prev rest else None
  | None => None
  end.

(** Decimal rendering of a counter in a template literal. *)
Definition showNat (n : nat) : str :=
  lit (NilEmpty.string_of_uint (Nat.to_uint n)).

Fixpoint repeatStr (s : str) (n : nat) : str :=
  match n with
  | O => []
  | S k => s ++ repeatStr s k
  end.

End Js.

Import Js.

(* ================================================================== *)
(** ** The runtime's digest                                            *)
(* ================================================================== *)

(** [sha256] of chunker.ts hands the UTF-8 bytes of a string to
    [crypto.subtle.digest("SHA-256", ...)] and prints the 32 bytes in
    lower-case hexadecimal.  The general theorems below hold for any
    digest function; this module is the standard one (FIPS 180-4), used
    wherever a statement is evaluated on a concrete document. *)

Module Sha256.

Local Open Scope N_scope.

Definition mask : N := 4294967295.

Definition add32 (x y : N) : N := N.land (x + y) mask.

Definition rotr (n x : N) : N :=
  N.lor (N.shiftr x n) (N.land (N.shiftl x (32 - n)) mask).

Definition Ch (x y z : N) : N :=
  N.lxor (N.land x y) (N.land (N.lxor x mask) z).

Definition Maj (x y z : N) : N :=
  N.lxor (N.lxor (N.land x y) (N.land x z)) (N.land y z).

Definition Sigma0 (x : N) : N :=
  N.lxor (N.lxor (rotr 2 x) (rotr 13 x)) (rotr 22 x).

Definition Sigma1 (x : N) : N :=
  N.lxor (N.lxor (rotr 6 x) (rotr 11 x)) (rotr 25 x).

Definition sigma0 (x : N) : N :=
  N.lxor (N.lxor (rotr 7 x) (rotr 18 x)) (N.shiftr x 3).

Definition sigma1 (x : N) : N :=
  N.lxor (N.lxor (rotr 17 x) (rotr 19 x)) (N.shiftr x 10).

Definition K : list N :=
  [1116352408; 1899447441; 3049323471; 3921009573; 961987163; 1508970993;
   2453635748; 2870763221; 3624381080; 310598401; 607225278; 1426881987;
   1925078388; 2162078206; 2614888103; 3248222580; 3835390401; 4022224774;
   264347078; 604807628; 770255983; 1249150122; 1555081692; 1996064986;
   2554220882; 2821834349; 2952996808; 3210313671; 3336571891; 3584528711;
   113926993; 338241895; 666307205; 773529912; 1294757372; 1396182291;
   1695183700; 1986661051; 2177026350; 2456956037; 2730485921; 2820302411;
   3259730800; 3345764771; 3516065817; 3600352804; 4094571909; 275423344;
   430227734; 506948616; 659060556; 883997877; 958139571; 1322822218;
   1537002063; 1747873779; 1955562222; 2024104815; 2227730452; 2361852424;
   2428436474; 2756734187; 3204031479; 3329325298].

Definition H0 : list N :=
  [1779033703; 3144134277; 1013904242; 2773480762; 1359893119; 2600822924;
   528734635; 1541459225].

(** UTF-8 of one code unit below U+0100. *)
Definition utf8 (c : ascii) : list N :=
  let n := N_of_ascii c in
  if n <? 128 then [n]
  else [N.lor 192 (N.shiftr n 6); N.lor 128 (N.land n 63)].

(** Big-endian bytes of [x], [k] of them. *)
Fixpoint bytesOf (k : nat) (x : N) : list N :=
  match k with
  | O => []
  | S k' => bytesOf k' (N.shiftr x 8) ++ [N.land x 255]
  end.

Definition pad (message : list N) : list N :=
  let l := N.of_nat (length message) in
  let zeros := N.to_nat ((119 - l mod 64) mod 64) in
  message ++ [128] ++ repeat 0 zeros ++ bytesOf 8 (8 * l).

Fixpoint wordsOf (k : nat) (bytes : list N) : list N :=
  match k, bytes with
  | S k', b0 :: b1 :: b2 :: b3 :: rest =>
      (N.shiftl b0 24 + N.shiftl b1 16 + N.shiftl b2 8 + b3)
        :: wordsOf k' rest
  | _, _ => []
  end.

(** The message schedule; [recent] holds the words computed so far, the
    latest first. *)
Fixpoint schedule (k : nat) (recent : list N) : list N :=
  match k with
  | O => rev recent
  | S k' =>
      let w :=
        add32 (add32 (sigma1 (nth 1 recent 0)) (nth 6 recent 0))
              (add32 (sigma0 (nth 14 recent 0)) (nth 15 recent 0)) in
      schedule k' (w :: recent)
  end.

Definition round (state : list N) (kw : N * N) : list N :=
  match state with
  | [a; b; c; d; e; f; g; h] =>
      let t1 :=
        add32 (add32 (add32 h (Sigma1 e)) (Ch e f g))
              (add32 (fst kw) (snd kw)) in
      let t2 := add32 (Sigma0 a) (Maj a b c) in
      [add32 t1 t2; a; b; c; add32 d t1; e; f; g]
  | _ => state
  end.

Definition compress (state : list N) (block : list N) : list N :=
  let w := schedule 48 (rev (wordsOf 16 block)) in
  let out := fold_left round (List.combine K w) state in
  map (fun p => add32 (fst p) (snd p)) (List.combine state out).

Fixpoint blocks (k : nat) (state : list N) (bytes : list N) : list N :=
  match k with
  | O => state
  | S k' => blocks k' (compress state (firstn 64 bytes)) (skipn 64 bytes)
  end.

Definition hexDigit (n : N) : ascii :=
  ascii_of_N (if n <? 10 then 48 + n else 87 + n).

Definition hexByte (b : N) : list ascii :=
  [hexDigit (N.shiftr b 4); hexDigit (N.land b 15)].

Definition sha256 (text : Js.str) : Js.str :=
  let bytes := pad (flat_map utf8 text) in
  let digest := blocks (length bytes / 64) H0 bytes in
  flat_map hexByte (flat_map (bytesOf 4) digest).

End Sha256.

(* ================================================================== *)
(** ** The external collaborators                                      *)
(* ================================================================== *)

(** The embedder (db/embedder.ts), the vector table (db/vectordb.ts) and
    the LLM agent are reached through asynchronous calls that either
    resolve or reject.  A run is modelled by explicit state passing: the
    state of the calling object and the log of the external calls made so
    far, each with its outcome.  What a call answers is decided by an
    environment that may look at the whole log. *)

Module Runtime.

(** The handle of an embedder instance. *)
Inductive Embedder := TheEmbedder.

(** The two system prompts of summarize.ts. *)
Inductive Prompt := MAP_PROMPT | REDUCE_PROMPT.

(** The rows of the vector table (the ChunkRecord of doc-sync.ts);
    [vector] is [vectors[i]], undefined when the embedder answered with
    fewer vectors than texts. *)
Record ChunkRecord (Vec : Type) := mkRecord {
  text : str;
  chunkHash : str;
  chunkIndex : nat;
  start : Z;
  end_ : Z;
  sectionTitle : str;
  sectionPath : str;
  contextPrefix : str;
  vector : option Vec
}.

Arguments mkRecord {Vec}.
Arguments text {Vec}.
Arguments chunkHash {Vec}.
Arguments chunkIndex {Vec}.
Arguments vector {Vec}.

(** One external call with its outcome; [None] is a rejected promise. *)
Inductive Event (Vec : Type) :=
| EmbedBatch (texts : list str) (reply : option (list Vec))
| Insert (records : list (ChunkRecord Vec)) (reply : option unit)
| Reset (reply : option unit)
| Generate (system : Prompt) (content : str) (reply : option str).

Arguments EmbedBatch {Vec}.
Arguments Insert {Vec}.
Arguments Reset {Vec}.
Arguments Generate {Vec}.

Record Env (Vec : Type) := mkEnv {
  onEmbedBatch : list (Event Vec) -> list str -> option (list Vec);
  onInsert : list (Event Vec) -> list (ChunkRecord Vec) -> option unit;
  onReset : list (Event Vec) -> option unit;
  onGenerate : list (Event Vec) -> Prompt -> str -> option str
}.

Arguments onEmbedBatch {Vec}.
Arguments onInsert {Vec}.
Arguments onReset {Vec}.
Arguments onGenerate {Vec}.

Inductive Error :=
| Rejected                (* an external call rejected *)
| Thrown (message : str). (* [throw new Error(message)] *)

Inductive Result (A : Type) :=
| Ok (a : A)
| Err (e : Error).

Arguments Ok {A}.
Arguments Err {A}.

Definition failed {Vec} (e : Event Vec) : bool :=
  match e with
  | EmbedBatch _ None | Insert _ None | Reset None | Generate _ _ None => true
  | _ => false
  end.

Definition isEmbedBatch {Vec} (e : Event Vec) : bool :=
  match e with EmbedBatch _ _ => true | _ => false end.

Definition isReset {Vec} (e : Event Vec) : bool :=
  match e with Reset _ => true | _ => false end.

Definition isStoreCall {Vec} (e : Event Vec) : bool :=
  match e with Insert _ _ | Reset _ => true | _ => false end.

Section Monad.

Context {Vec : Type}.
Variable env : Env Vec.

(** An asynchronous method of an object with fields [S]. *)
Definition M (S A : Type) : Type :=
  S -> list (Event Vec) -> S * list (Event Vec) * Result A.

Definition ret {S A} (a : A) : M S A := fun s log => (s, log, Ok a).

Definition throw {S A} (e : Error) : M S A := fun s log => (s, log, Err e).

Definition bind {S A B} (c : M S A) (k : A -> M S B) : M S B :=
  fun s log =>
    match c s log with
    | (s', log', Ok a) => k a s' log'
    | (s', log', Err e) => (s', log', Err e)
    end.

(** [try { body } catch (e) { handler }] *)
Definition tryCatch {S A} (body : M S A) (handler : Error -> M S A) : M S A :=
  fun s log =>
    match body s log with
    | (s', log', Err e) => handler e s' log'
    | r => r
    end.

Definition get {S} : M S S := fun s log => (s, log, Ok s).

Definition put {S} (s : S) : M S unit := fun _ log => (s, log, Ok tt).

Definition await {S A} (e : option A -> Event Vec) (reply : option A) : M S A :=
  fun s log =>
    (s, log ++ [e reply],
     match reply with Some a => Ok a | None => Err Rejected end).

(** [embedder.embedBatch(texts)] *)
Definition embedBatch {S} (texts : list str) : M S (list Vec) :=
  fun s log => await (EmbedBatch texts) (onEmbedBatch env log texts) s log.

(** [vdb.insert(records)] *)
Definition vdbInsert {S} (records : list (ChunkRecord Vec)) : M S unit :=
  fun s log => await (Insert records) (onInsert env log records) s log.

(** [vdb.reset()] *)
Definition vdbReset {S} : M S unit :=
  fun s log => await Reset (onReset env log) s log.

(** [agent.generate(system, [{ role: "user", content }], { model })],
    with [.content] read off the response. *)
Definition generate {S} (system : Prompt) (content : str) : M S str :=
  fun s log =>
    await (Generate system content) (onGenerate env log system content) s log.

End Monad.

Arguments M : clear implicits.

End Runtime.

Import Runtime.

Declare Scope run_scope.
Delimit Scope run_scope with run.
Notation "x <- c ;; k" := (bind c (fun x => k))
  (at level 100, c at next level, right associativity) : run_scope.
Notation "c ;;; k" := (bind c (fun _ => k))
  (at level 100, right associativity) : run_scope.

(* ================================================================== *)
(** ** services/hierarchy-extractor.ts                                 *)
(* ================================================================== *)

Module Hierarchy.

#[warnings="-register-all"]
Inductive HeadingNode := mkNode {
  level : nat;
  title : str;
  startOffset : Z;
  endOffset : Z;
  children : list HeadingNode
}.

Module FlatHeading.
Record t := mk { level : nat; title : str; offset : Z }.
End FlatHeading.

(** A flat heading with its [endOffset] ([{ ...h, endOffset }]). *)
Module Ended.
Record t := mk { level : nat; title : str; offset : Z; endOffset : Z }.
End Ended.

Module SectionSummary.
Record t := mk {
  title : str; summary : str; startOffset : Z; endOffset : Z
}.
End SectionSummary.

Module Paragraph.
Record t := mk { text : str; start : Z; end_ : Z }.
End Paragraph.

Inductive Strategy := heading | embedding_similarity | positional.

Record HierarchyMap := mkMap {
  headings : list HeadingNode;
  outline : str;
  documentSummary : str;
  sectionSummaries : list SectionSummary.t;
  strategy : Strategy
}.

(** The options; [Num] is the type of [similarityThreshold], a
    floating-point number the model never inspects. *)
Record HierarchyOptions (Num : Type) := mkOptions {
  similarityThreshold : option Num;
  minSectionSize : option Z;
  docSummaryMaxSentences : option Z;
  sectionSummaryMaxSentences : option Z;
  maxOutlineDepth : option Z
}.

Arguments mkOptions {Num}.
Arguments similarityThreshold {Num}.
Arguments minSectionSize {Num}.
Arguments docSummaryMaxSentences {Num}.
Arguments sectionSummaryMaxSentences {Num}.
Arguments maxOutlineDepth {Num}.

Definition withDefault {A} (d : A) (o : option A) : A :=
  match o with Some a => a | None => d end.

(** *** Case mapping, below U+0100 *)

(** [c] is a letter that [toUpperCase] changes: a-z, the micro sign,
    sharp s, and the accented small letters (the division sign is not
    one). *)
Definition hasUpperCase (c : ascii) : bool :=
  let n := nat_of_ascii c in
  (((97 <=? n) && (n <=? 122)) || (n =? 181) ||
   ((223 <=? n) && negb (n =? 247)))%nat.

(** [s === s.toUpperCase()]: no letter of [s] changes. *)
Definition isOwnUpperCase (s : str) : bool :=
  forallb (fun c => negb (hasUpperCase c)) s.

Definition lowerChar (c : ascii) : ascii :=
  let n := nat_of_ascii c in
  if (((65 <=? n) && (n <=? 90)) ||
      ((192 <=? n) && (n <=? 222) && negb (n =? 215)))%nat
  then ascii_of_nat (n + 32) else c.

Definition toLowerCase (s : str) : str := map lowerChar s.

(** [c.toUpperCase()] for one code unit.  Sharp s becomes "SS"; the
    capitals of the micro sign and of y-diaeresis lie above U+00FF and
    are left as they are here: [titleCase] never meets them, as it runs
    on the lower-cased form of a line that is its own upper-case form. *)
Definition upperChar (c : ascii) : str :=
  let n := nat_of_ascii c in
  if (((97 <=? n) && (n <=? 122)) ||
      ((224 <=? n) && (n <=? 254) && negb (n =? 247)))%nat
  then [ascii_of_nat (n - 32)]
  else if (n =? 223)%nat then lit "SS" else [c].

Definition capitalize (w : str) : str :=
  match w with
  | [] => []
  | c :: w' => upperChar c ++ w'
  end.

Definition titleCase (s : str) : str :=
  join [sp] (map capitalize (splitChar sp (toLowerCase s))).

(** *** Heading detection *)

(** The three recognizers run on [trimmed], a line without leading or
    trailing white space. *)

(** The tail shared by the Markdown and the numbered pattern: white
    space, then a non-empty rest of the line without a line terminator;
    the rest is the captured title. *)
Definition spaceThenTitle (s : str) : option str :=
  let body := dropWhile isSpace s in
  match takeWhile isSpace s, body with
  | _ :: _, _ :: _ =>
      if forallb (fun c => negb (isLineTerminator c)) body
      then Some (trim body) else None
  | _, _ => None
  end.

(** The Markdown pattern: one to six hash signs, then the tail. *)
Definition matchMarkdown (trimmed : str) : option (nat * str) :=
  let hashes := length (takeWhile (Ascii.eqb "#"%char) trimmed) in
  if ((1 <=? hashes) && (hashes <=? 6))%nat then
    match spaceThenTitle (skipn hashes trimmed) with
    | Some t => Some (hashes, t)
    | None => None
    end
  else None.

Definition startsWithSpecial (s : str) : bool :=
  match s with
  | c :: _ =>
      (Ascii.eqb c "#"%char || Ascii.eqb c "-"%char ||
       Ascii.eqb c "*"%char || Ascii.eqb c ">"%char)%bool
  | [] => false
  end.

Definition isAllCaps (trimmed : str) : bool :=
  ((5 <=? length trimmed)%nat
   && isOwnUpperCase trimmed
   && match trimmed with c :: _ => isUpperAZ c | [] => false end
   && (3 <=? length (splitRegex WHITESPACE_RUN trimmed))%nat
   && negb (startsWithSpecial trimmed))%bool.

(** The digits and the dot-and-digits groups of a section number: the
    number of groups read and what follows them.  A dot opens a group
    only with a digit behind it. *)
Fixpoint dottedGroups (s : str) (groups : nat) : nat * str :=
  match s with
  | c :: s' =>
      if isDigit c then dottedGroups s' groups
      else if Ascii.eqb c "."%char then
        match s' with
        | d :: _ => if isDigit d then dottedGroups s' (S groups)
                    else (groups, s)
        | [] => (groups, s)
        end
      else (groups, s)
  | [] => (groups, s)
  end.

(** The numbered pattern: digits, any number of dot-and-digits groups,
    a dot or a closing parenthesis, white space and the title.  The level
    is the number of dot-separated parts of the number, at most 6. *)
Definition matchNumbered (trimmed : str) : option (nat * str) :=
  match trimmed with
  | d :: _ =>
      if isDigit d then
        match dottedGroups trimmed 0 with
        | (groups, c :: rest) =>
            if (Ascii.eqb c "."%char || Ascii.eqb c ")"%char)%bool then
              match spaceThenTitle rest with
              | Some t => Some (Nat.min (S groups) 6, t)
              | None => None
              end
            else None
        | (_, []) => None
        end
      else None
  | [] => None
  end.

(** The recognizers in the order the loop tries them. *)
Definition recognize (trimmed : str) : option (nat * str) :=
  match matchMarkdown trimmed with
  | Some r => Some r
  | None =>
      if isAllCaps trimmed then Some (1%nat, titleCase trimmed)
      else matchNumbered trimmed
  end.

Fixpoint headingLoop (lines : list str) (offset : Z)
  : list FlatHeading.t :=
  match lines with
  | [] => []
  | line :: rest =>
      let next := headingLoop rest (offset + len line + 1) in
      match recognize (trim line) with
      | Some (lvl, ttl) => FlatHeading.mk lvl ttl offset :: next
      | None => next
      end
  end.

Definition extractHeadings (text : str) : list FlatHeading.t :=
  headingLoop (splitChar nl text) 0.

(** *** Tree building *)

(** [flatHeadings.slice(i + 1)] is the tail behind heading [i]. *)
Fixpoint withEnds (flatHeadings : list FlatHeading.t) (docLength : Z)
  : list Ended.t :=
  match flatHeadings with
  | [] => []
  | h :: rest =>
      let nextSameOrHigher :=
        find (fun n => (FlatHeading.level n <=? FlatHeading.level h)%nat) rest in
      Ended.mk (FlatHeading.level h) (FlatHeading.title h)
        (FlatHeading.offset h)
        (match nextSameOrHigher with
         | Some n => FlatHeading.offset n
         | None => docLength
         end)
      :: withEnds rest docLength
  end.

(** The inner [while] of [nestFrom]: advance [childEnd] while it is below
    [end_] and the item there is deeper than [lvl]; [steps] bounds the
    iterations, [end_ - childEnd] of them suffice. *)
Fixpoint scanChildren (items : list Ended.t) (end_ lvl : nat)
    (steps : nat) (childEnd : nat) : nat :=
  match steps with
  | O => childEnd
  | S steps' =>
      if (childEnd <? end_)%nat then
        match nth_error items childEnd with
        | Some it =>
            if (lvl <? Ended.level it)%nat
            then scanChildren items end_ lvl steps' (S childEnd)
            else childEnd
        | None => childEnd
        end
      else childEnd
  end.

(** [nestFrom(items, start, end, parentLevel)]; the outer [while] is the
    recursion on the rest of the range.  [fuel] bounds the nesting of
    calls: [end_ - start] is enough (lemma [nestFrom_fuel] below). *)
Fixpoint nestFrom (fuel : nat) (items : list Ended.t)
    (start end_ parentLevel : nat) : list HeadingNode :=
  match fuel with
  | O => []
  | S fuel' =>
      if (start <? end_)%nat then
        match nth_error items start with
        | None => []
        | Some item =>
            if ((Ended.level item <=? parentLevel) && (0 <? parentLevel))%nat
            then []
            else
              let childEnd :=
                scanChildren items end_ (Ended.level item)
                  (end_ - S start) (S start) in
              let kids :=
                if (S start <? childEnd)%nat
                then nestFrom fuel' items (S start) childEnd (Ended.level item)
                else [] in
              mkNode (Ended.level item) (Ended.title item)
                (Ended.offset item) (Ended.endOffset item) kids
                :: nestFrom fuel' items childEnd end_ parentLevel
        end
      else []
  end.

Definition buildHierarchyTree (flatHeadings : list FlatHeading.t)
    (docLength : Z) : list HeadingNode :=
  match flatHeadings with
  | [] => []
  | _ =>
      let items := withEnds flatHeadings docLength in
      nestFrom (length items) items 0 (length items) 0
  end.

(** *** Outline *)

(** What one round of the [forEach] of [generateOutline] pushes for the
    node at position [i]. *)
Fixpoint outlineOf (maxDepth : Z) (prefix : str) (i : nat)
    (node : HeadingNode) : list str :=
  if maxDepth <? Z.of_nat (level node) then []
  else
    let num := prefix ++ showNat (S i) in
    let indent := repeatStr (lit "  ") (level node - 1) in
    (indent ++ num ++ lit ". " ++ title node)
      :: match children node with
         | [] => []
         | kids =>
             [join [nl]
                ((fix each (ns : list HeadingNode) (j : nat) : list str :=
                    match ns with
                    | [] => []
                    | n :: ns' =>
                        outlineOf maxDepth (num ++ lit ".") j n
                          ++ each ns' (S j)
                    end) kids O)]
         end.

Fixpoint outlineEach (maxDepth : Z) (prefix : str)
    (tree : list HeadingNode) (i : nat) : list str :=
  match tree with
  | [] => []
  | n :: tree' =>
      outlineOf maxDepth prefix i n ++ outlineEach maxDepth prefix tree' (S i)
  end.

Definition generateOutline (tree : list HeadingNode) (maxDepth : Z) : str :=
  join [nl] (outlineEach maxDepth [] tree 0).

(** *** Positional fallback *)

(** [Math.ceil(a / b)] for [0 <= a] and [0 < b]. *)
Definition ceilDiv (a b : Z) : Z := (a + b - 1) / b.

Definition sectionTitleOf (i count : nat) : str :=
  lit "Section " ++ showNat (S i) ++ lit " of " ++ showNat count.

Definition positionalSections (text : str) (targetCount : Z)
  : list HeadingNode :=
  let count := Z.max 1 (Z.min targetCount (ceilDiv (len text) 500)) in
  let sectionSize := ceilDiv (len text) count in
  map (fun i =>
         mkNode 1 (sectionTitleOf i (Z.to_nat count))
           (Z.of_nat i * sectionSize)
           (Z.min ((Z.of_nat i + 1) * sectionSize) (len text))
           [])
      (seq 0 (Z.to_nat count)).

(** *** Summaries *)

(** The matches of [/[^.!?]+[.!?]+/g], left to right: [body] and [stops]
    are the two runs of the match being read, most recent first. *)
Fixpoint sentenceMatches (body stops : str) (s : str) : list str :=
  match s with
  | [] =>
      match stops with
      | [] => []
      | _ => [reverse body ++ reverse stops]
      end
  | c :: s' =>
      if isSentenceEnd c then
        match body with
        | [] => sentenceMatches [] [] s'
        | _ => sentenceMatches body (c :: stops) s'
        end
      else
        match stops with
        | [] => sentenceMatches (c :: body) [] s'
        | _ => (reverse body ++ reverse stops) :: sentenceMatches [c] [] s'
        end
  end.

Definition extractSentences (text : str) (maxSentences : Z) : str :=
  let sentences :=
    match sentenceMatches [] [] text with
    | [] => [trim text]
    | ms => ms
    end in
  join [sp] (map trim (slice sentences 0 maxSentences)).

Definition generateDocSummary (text : str) (maxSentences : Z) : str :=
  extractSentences text maxSentences.

Definition generateSectionSummaries (text : str)
    (sections : list HeadingNode) (maxSentences : Z)
  : list SectionSummary.t :=
  map (fun section =>
         let sectionText :=
           slice text (startOffset section) (endOffset section) in
         SectionSummary.mk (title section)
           (extractSentences sectionText maxSentences)
           (startOffset section) (endOffset section))
      sections.

Definition flattenTopLevel (headings : list HeadingNode)
  : list HeadingNode :=
  match headings with
  | [] => []
  | h :: hs =>
      let minLevel := fold_left Nat.min (map level hs) (level h) in
      filter (fun h => Nat.eqb (level h) minLevel) headings
  end.

(** *** Context prefix *)

Definition covers (offset : Z) (h : HeadingNode) : bool :=
  (startOffset h <=? offset) && (offset <? endOffset h).

(** [[h, ...findHeadingPath(offset, h.children)]] *)
Fixpoint pathThrough (offset : Z) (h : HeadingNode) : list HeadingNode :=
  h :: (fix first (hs : list HeadingNode) : list HeadingNode :=
          match hs with
          | [] => []
          | k :: hs' =>
              if covers offset k then pathThrough offset k else first hs'
          end) (children h).

Fixpoint findHeadingPath (offset : Z) (headings : list HeadingNode)
  : list HeadingNode :=
  match headings with
  | [] => []
  | h :: hs =>
      if covers offset h then pathThrough offset h
      else findHeadingPath offset hs
  end.

Definition buildContextPrefix (offset : Z) (headings : list HeadingNode)
  : str :=
  join (lit " > ") (map title (findHeadingPath offset headings)).

(** *** Embedding-similarity fallback *)

Fixpoint paragraphLoop (text : str) (parts : list str) (offset : Z)
  : list Paragraph.t :=
  match parts with
  | [] => []
  | part :: rest =>
      let trimmed := trim part in
      let next := paragraphLoop text rest (offset + len part + 1) in
      if 0 <? len trimmed then
        let start := indexOf text trimmed offset in
        Paragraph.mk trimmed start (start + len trimmed) :: next
      else next
  end.

Definition splitParagraphs (text : str) : list Paragraph.t :=
  paragraphLoop text (splitRegex PARAGRAPH_SPLIT text) 0.

(** [prevSize]: the text lengths of paragraphs [prevStart .. prevEnd - 1]
    that exist. *)
Definition sizeBetween (paragraphs : list Paragraph.t)
    (prevStart prevEnd : nat) : Z :=
  fold_left
    (fun acc p => acc + len (Paragraph.text p))
    (firstn (prevEnd - prevStart) (skipn prevStart paragraphs)) 0.

(** The loop of [mergeTinySections]; [merged] is never empty. *)
Fixpoint mergeLoop (paragraphs : list Paragraph.t) (minSize : Z)
    (boundaries : list nat) (merged : list nat) : list nat :=
  match boundaries with
  | [] => merged
  | currentStart :: rest =>
      let prevStart := last merged O in
      if minSize <=? sizeBetween paragraphs prevStart currentStart
      then mergeLoop paragraphs minSize rest (merged ++ [currentStart])
      else mergeLoop paragraphs minSize rest merged
  end.

Definition mergeTinySections (boundaries : list nat)
    (paragraphs : list Paragraph.t) (minSize : Z) : list nat :=
  match boundaries with
  | [] | [_] => boundaries
  | b0 :: rest => mergeLoop paragraphs minSize rest [b0]
  end.

(** The final [map] of [detectSectionsByEmbedding].  The boundaries are
    paragraph indices, so [paragraphs[startIdx]] exists; the default
    offset [0] stands in where the source would have none. *)
Fixpoint sectionNodes (text : str) (paragraphs : list Paragraph.t)
    (totalSections : nat) (mergedBoundaries : list nat) (i : nat)
  : list HeadingNode :=
  match mergedBoundaries with
  | [] => []
  | startIdx :: rest =>
      let endIdx :=
        match rest with
        | next :: _ => next
        | [] => length paragraphs
        end in
      let startOffset :=
        match nth_error paragraphs startIdx with
        | Some p => Paragraph.start p
        | None => 0
        end in
      let endOffset :=
        match nth_error paragraphs (endIdx - 1) with
        | Some p => if (1 <=? endIdx)%nat then Paragraph.end_ p else len text
        | None => len text
        end in
      mkNode 1 (sectionTitleOf i totalSections) startOffset endOffset []
        :: sectionNodes text paragraphs totalSections rest (S i)
  end.

Section Extract.

Context {Vec Num : Type}.

(** [topicShift threshold vectors i]: the test [similarities[i] <
    threshold] of [detectSectionsByEmbedding], where [similarities[i]] is
    the cosine of [vectors[i]] and [vectors[i + 1]] and the threshold is
    the mean of the similarities minus [similarityThreshold] (0.5 when
    absent) times their deviation.  This is floating-point arithmetic on
    the embedder's output and stays a parameter. *)
Variable topicShift : option Num -> list Vec -> nat -> bool.

Variable env : Env Vec.

Local Open Scope run_scope.

Definition detectSectionsByEmbedding {St} (text : str)
    (options : HierarchyOptions Num) : M Vec St (list HeadingNode) :=
  let paragraphs := splitParagraphs text in
  if (length paragraphs <=? 1)%nat then
    ret [mkNode 1 (lit "Section 1 of 1") 0 (len text) []]
  else
    vectors <- embedBatch env (map Paragraph.text paragraphs) ;;
    let boundaries :=
      O :: map S
             (filter (topicShift (similarityThreshold options) vectors)
                     (seq 0 (length paragraphs - 1))) in
    let mergedBoundaries :=
      mergeTinySections boundaries paragraphs
        (withDefault 200 (minSectionSize options)) in
    ret (sectionNodes text paragraphs (length mergedBoundaries)
           mergedBoundaries 0).

Definition extractHierarchy {St} (text : str) (embedder : option Embedder)
    (options : HierarchyOptions Num) : M Vec St HierarchyMap :=
  let flatHeadings := extractHeadings text in
  found <-
    match flatHeadings, embedder with
    | _ :: _, _ => ret (buildHierarchyTree flatHeadings (len text), heading)
    | [], Some _ =>
        hs <- detectSectionsByEmbedding text options ;;
        ret (hs, embedding_similarity)
    | [], None => ret (positionalSections text 5, positional)
    end ;;
  let '(headings, strategy) := found in
  ret (mkMap headings
         (generateOutline headings (withDefault 6 (maxOutlineDepth options)))
         (generateDocSummary text
            (withDefault 3 (docSummaryMaxSentences options)))
         (generateSectionSummaries text (flattenTopLevel headings)
            (withDefault 1 (sectionSummaryMaxSentences options)))
         strategy).

End Extract.

End Hierarchy.

(* ================================================================== *)
(** ** services/chunker.ts                                             *)
(* ================================================================== *)

Module Chunker.
Import Hierarchy.

Record ChunkOptions := mkChunkOptions {
  maxChunkSize : option Z;
  overlap : option Z
}.

Definition noOptions : ChunkOptions := mkChunkOptions None None.

Record Chunk := mkChunk {
  index : nat;
  text : str;
  start : Z;
  end_ : Z;
  hash : str;
  sectionTitle : option str;
  sectionPath : option str;
  contextPrefix : option str
}.

Definition nonBlank (p : str) : bool :=
  negb (Nat.eqb (length (trim p)) 0).

(** The sentence loop of [splitIntoSegments]: [current] is the running
    buffer, [raw] the segments pushed so far. *)
Fixpoint packSentences (maxSize : Z) (sentences : list str)
    (current : str) (raw : list str) : list str :=
  match sentences with
  | [] => if 0 <? len current then raw ++ [current] else raw
  | sentence :: rest =>
      let trimmed := trim sentence in
      if (maxSize <? len current + len trimmed + 1) && (0 <? len current)
      then packSentences maxSize rest trimmed (raw ++ [current])
      else packSentences maxSize rest
             (if 0 <? len current then current ++ [sp] ++ trimmed
              else trimmed)
             raw
  end.

(** Steps 1 and 2: one paragraph after the other. *)
Fixpoint breakParagraphs (maxSize : Z) (paragraphs : list str)
    (raw : list str) : list str :=
  match paragraphs with
  | [] => raw
  | para :: rest =>
      if len para <=? maxSize
      then breakParagraphs maxSize rest (raw ++ [trim para])
      else
        let sentences := filter nonBlank (splitRegex SENTENCE_SPLIT para) in
        breakParagraphs maxSize rest (packSentences maxSize sentences [] raw)
  end.

(** Step 3: merge small consecutive segments. *)
Fixpoint mergeSegments (maxSize : Z) (rawSegments : list str)
    (buffer : str) (merged : list str) : list str :=
  match rawSegments with
  | [] => if 0 <? len buffer then merged ++ [buffer] else merged
  | seg :: rest =>
      if (maxSize <? len buffer + len seg + 2) && (0 <? len buffer)
      then mergeSegments maxSize rest seg (merged ++ [buffer])
      else mergeSegments maxSize rest
             (if 0 <? len buffer then buffer ++ [nl; nl] ++ seg else seg)
             merged
  end.

Definition splitIntoSegments (text : str) (maxSize : Z) : list str :=
  let paragraphs := filter nonBlank (splitRegex PARAGRAPH_SPLIT text) in
  let rawSegments := breakParagraphs maxSize paragraphs [] in
  mergeSegments maxSize rawSegments [] [].

(** The word-boundary clean-up of one overlap slice. *)
Definition cleanOverlap (prev : str) (overlap : Z) : str :=
  let overlapText := sliceFrom prev (- overlap) in
  let firstSpace := indexOf overlapText [sp] 0 in
  if 0 <? firstSpace then sliceFrom overlapText (firstSpace + 1)
  else overlapText.

(** The loop of [applyOverlap]: [prev] is [segments[i - 1]]. *)
Fixpoint overlapLoop (overlap : Z) (prev : str) (rest : list str)
  : list str :=
  match rest with
  | [] => []
  | seg :: rest' =>
      (cleanOverlap prev overlap ++ [sp] ++ seg)
        :: overlapLoop overlap seg rest'
  end.

Definition applyOverlap (segments : list str) (overlap : Z) : list str :=
  if (overlap <=? 0) || (length segments <=? 1)%nat then segments
  else match segments with
       | [] => []
       | first :: rest => first :: overlapLoop overlap first rest
       end.

Section WithDigest.

(** [sha256]: the hexadecimal SHA-256 digest of the UTF-8 encoding. *)
Variable sha256 : str -> str.

(** The position loop of [chunkText].  [overlapped] and [segments] have
    the same length ([applyOverlap] preserves it), so the last case is
    never reached. *)
Fixpoint assignPositions (text : str) (overlapped segments : list str)
    (i : nat) (searchFrom : Z) : list Chunk :=
  match overlapped, segments with
  | chunkTxt :: overlapped', canonical :: segments' =>
      let start := indexOf text canonical searchFrom in
      let end_ := if 0 <=? start then start + len canonical
                  else searchFrom in
      let searchFrom' := if 0 <=? start then start + 1 else searchFrom in
      mkChunk i chunkTxt (Z.max start 0) end_ (sha256 chunkTxt)
              None None None
        :: assignPositions text overlapped' segments' (S i) searchFrom'
  | _, _ => []
  end.

Definition resolveMaxChunkSize (o : ChunkOptions) : Z :=
  match maxChunkSize o with Some n => n | None => 1000 end.

Definition resolveOverlap (o : ChunkOptions) : Z :=
  match overlap o with Some n => n | None => 200 end.

Definition chunkText (text : str) (options : ChunkOptions) : list Chunk :=
  let segments := splitIntoSegments text (resolveMaxChunkSize options) in
  let overlapped := applyOverlap segments (resolveOverlap options) in
  assignPositions text overlapped segments 0 0.

Definition hashDocument (text : str) : str := sha256 text.

(** *** Structure-aware chunking *)

Fixpoint flattenNode (h : HeadingNode) : list HeadingNode :=
  match children h with
  | [] => [h]
  | kids => flat_map flattenNode kids
  end.

Definition flattenSections (headings : list HeadingNode)
  : list HeadingNode :=
  flat_map flattenNode headings.

(** The inner loop of [chunkWithHierarchy]: one section's chunks, moved
    to document offsets and numbered from [globalIndex]. *)
Fixpoint annotate (section : HeadingNode) (contextPrefix : str)
    (sectionChunks : list Chunk) (globalIndex : nat) : list Chunk :=
  match sectionChunks with
  | [] => []
  | chunk :: rest =>
      mkChunk globalIndex (text chunk)
        (start chunk + startOffset section)
        (end_ chunk + startOffset section)
        (hash chunk)
        (Some (title section))
        (Some contextPrefix)
        (match contextPrefix with
         | [] => None
         | _ => Some (lit "[" ++ contextPrefix ++ lit "] ")
         end)
      :: annotate section contextPrefix rest (S globalIndex)
  end.

Fixpoint sectionLoop (text : str) (headings : list HeadingNode)
    (options : ChunkOptions) (allSections : list HeadingNode)
    (globalIndex : nat) : list Chunk :=
  match allSections with
  | [] => []
  | section :: rest =>
      let sectionText :=
        slice text (startOffset section) (endOffset section) in
      if Nat.eqb (length (trim sectionText)) 0
      then sectionLoop text headings options rest globalIndex
      else
        let sectionChunks := chunkText sectionText options in
        let contextPrefix :=
          buildContextPrefix (startOffset section) headings in
        annotate section contextPrefix sectionChunks globalIndex
          ++ sectionLoop text headings options rest
               (globalIndex + length sectionChunks)
  end.

Definition chunkWithHierarchy (text : str) (hierarchy : HierarchyMap)
    (options : ChunkOptions) : list Chunk :=
  sectionLoop text (headings hierarchy) options
    (flattenSections (headings hierarchy)) 0.

End WithDigest.

Record Stats := mkStats {
  totalCharacters : Z;
  totalWords : nat;
  totalParagraphs : nat
}.

Definition analyzeText (text : str) : Stats :=
  mkStats (len text)
    (length (filter (fun w => (0 <? len w)) (splitRegex WHITESPACE_RUN text)))
    (length (filter nonBlank (splitRegex PARAGRAPH_SPLIT text))).

End Chunker.


(* ================================================================== *)
(** ** services/doc-sync.ts                                            *)
(* ================================================================== *)

Module DocSync.
Import Hierarchy Chunker.

(** [ChunkOptions & HierarchyOptions]: one object read by both. *)
Record Options (Num : Type) := mkSyncOptions {
  chunking : ChunkOptions;
  structure : HierarchyOptions Num
}.

Arguments mkSyncOptions {Num}.
Arguments chunking {Num}.
Arguments structure {Num}.

(** A [Set<string>]: its members in insertion order, without repeats. *)
Definition has (set : list str) (h : str) : bool := existsb (str_eqb h) set.

Definition add (set : list str) (h : str) : list str :=
  if has set h then set else set ++ [h].

Definition setOf (hashes : list str) : list str := fold_left add hashes [].

(** The fields of a [DocSyncManager]; [vdb] and [embedder] are the
    external collaborators. *)
Record Manager := mkManager {
  lastDocHash : option str;
  storedHashes : list str;
  lastHierarchy : option HierarchyMap
}.

Definition fresh : Manager := mkManager None [] None.

Definition sameHash (docHash : str) (last : option str) : bool :=
  match last with
  | Some h => str_eqb docHash h
  | None => false
  end.

Section Sync.

Context {Vec Num : Type}.
Variable sha256 : str -> str.
Variable topicShift : option Num -> list Vec -> nat -> bool.
Variable env : Env Vec.

Local Open Scope run_scope.

Definition toRecord (c : Chunk) (v : option Vec) : ChunkRecord Vec :=
  mkRecord (Chunker.text c) (hash c) (index c) (Chunker.start c)
    (Chunker.end_ c)
    (withDefault [] (Chunker.sectionTitle c))
    (withDefault [] (Chunker.sectionPath c))
    (withDefault [] (Chunker.contextPrefix c))
    v.

(** [chunks.map((c, i) => ({ ..., vector: vectors[i] }))] from index [i]. *)
Fixpoint toRecords (chunks : list Chunk) (vectors : list Vec) (i : nat)
  : list (ChunkRecord Vec) :=
  match chunks with
  | [] => []
  | c :: rest => toRecord c (nth_error vectors i) :: toRecords rest vectors (S i)
  end.

Definition embedAndInsert (chunks : list Chunk) : M Vec Manager unit :=
  match chunks with
  | [] => ret tt
  | _ =>
      vectors <- embedBatch env (map Chunker.text chunks) ;;
      vdbInsert env (toRecords chunks vectors 0)
  end.

Definition fullResync (allChunks : list Chunk) : M Vec Manager unit :=
  this <- get ;;
  let newChunks :=
    filter (fun c => negb (has (storedHashes this) (hash c))) allChunks in
  let existingChunks :=
    filter (fun c => has (storedHashes this) (hash c)) allChunks in
  newVectors <-
    match newChunks with
    | [] => ret []
    | _ => embedBatch env (map Chunker.text newChunks)
    end ;;
  existingVectors <-
    match existingChunks with
    | [] => ret []
    | _ => embedBatch env (map Chunker.text existingChunks)
    end ;;
  vdbReset env ;;;
  let records :=
    toRecords newChunks newVectors 0
      ++ toRecords existingChunks existingVectors 0 in
  match records with
  | [] => ret tt
  | _ => vdbInsert env records
  end.

Definition syncIfNeeded (docText : str) (options : Options Num)
  : M Vec Manager bool :=
  let docHash := hashDocument sha256 docText in
  this <- get ;;
  if sameHash docHash (lastDocHash this) then ret false
  else
    hierarchy <-
      extractHierarchy topicShift env docText (Some TheEmbedder)
        (structure options) ;;
    put (mkManager (lastDocHash this) (storedHashes this) (Some hierarchy)) ;;;
    let chunks :=
      chunkWithHierarchy sha256 docText hierarchy (chunking options) in
    let newHashes := setOf (map hash chunks) in
    let toInsert :=
      filter (fun c => negb (has (storedHashes this) (hash c))) chunks in
    let toDelete :=
      filter (fun h => negb (has newHashes h)) (storedHashes this) in
    match toDelete, toInsert with
    | _ :: _, _ => fullResync chunks
    | [], _ :: _ => embedAndInsert toInsert
    | [], [] => ret tt
    end ;;;
    put (mkManager (Some docHash) newHashes (Some hierarchy)) ;;;
    ret true.

Definition reset : M Vec Manager unit :=
  vdbReset env ;;;
  put (mkManager None [] None).

End Sync.

End DocSync.

(* ================================================================== *)
(** ** services/summarize.ts                                           *)
(* ================================================================== *)

Module Summarize.
Import Chunker.

Definition windows : ChunkOptions := mkChunkOptions (Some 10000) (Some 400).

Definition noSummaries : str := lit "Failed to generate any chunk summaries".
Definition noSingle : str := lit "Failed to summarize document".
Definition noFinal : str := lit "Failed to generate final summary".

(** [chunkSummaries.map((s, i) => ...)] from index [i]. *)
Fixpoint labelled (chunkSummaries : list str) (i : nat) : list str :=
  match chunkSummaries with
  | [] => []
  | s :: rest =>
      (lit "--- Chunk " ++ showNat (S i) ++ lit " Summary ---" ++ [nl] ++ s)
        :: labelled rest (S i)
  end.

Definition combine (chunkSummaries : list str) : str :=
  join [nl; nl] (labelled chunkSummaries 0).

Section Agent.

Context {Vec St : Type}.
Variable sha256 : str -> str.
Variable env : Env Vec.

Local Open Scope run_scope.

(** The MAP loop; a failure is logged to the console and skipped. *)
Fixpoint mapPhase (chunks : list Chunk) (chunkSummaries : list str)
  : M Vec St (list str) :=
  match chunks with
  | [] => ret chunkSummaries
  | chunk :: rest =>
      pushed <-
        tryCatch
          (response <- generate env MAP_PROMPT (text chunk) ;;
           let summary := trim response in
           ret (match summary with
                | [] => chunkSummaries
                | _ => chunkSummaries ++ [summary]
                end))
          (fun _ => ret chunkSummaries) ;;
      mapPhase rest pushed
  end.

Definition summarizeDocument (text : str) : M Vec St str :=
  match chunkText sha256 text windows with
  | [] => ret []
  | [only] =>
      tryCatch
        (response <- generate env REDUCE_PROMPT (Chunker.text only) ;;
         ret (trim response))
        (fun _ => throw (Thrown noSingle))
  | chunks =>
      chunkSummaries <- mapPhase chunks [] ;;
      match chunkSummaries with
      | [] => throw (Thrown noSummaries)
      | _ =>
          tryCatch
            (finalResponse <-
               generate env REDUCE_PROMPT (combine chunkSummaries) ;;
             ret (trim finalResponse))
            (fun _ => throw (Thrown noFinal))
      end
  end.

End Agent.

End Summarize.

(* ================================================================== *)
(** ** Concrete documents and environments                             *)
(* ================================================================== *)

Module Scenario.
Import Hierarchy Chunker DocSync.

(** Scenario S1 of the specification. *)
Definition S1_text : str := lit "A paragraph." ++ [nl; nl] ++ lit "Another.".
Definition S1_options : ChunkOptions := mkChunkOptions (Some 50) (Some 0).

(** Scenario S2 of the specification. *)
Definition S2_text : str :=
  lit "# Intro" ++ [nl; nl] ++ lit "Hello world." ++ [nl; nl]
    ++ lit "## Details" ++ [nl; nl] ++ lit "More text.".

(** A second paragraph pair that is separated by three newlines, behind
    a first paragraph that starts after a space. *)
Definition gap_text : str :=
  lit " AAAA." ++ [nl; nl] ++ lit "B." ++ [nl; nl; nl] ++ lit "C.".
Definition gap_options : ChunkOptions := mkChunkOptions (Some 6) (Some 0).

(** Two short paragraphs and an overlap window that starts on a space. *)
Definition lap_text : str := lit "ab cd." ++ [nl; nl] ++ lit "ef.".
Definition lap_options : ChunkOptions := mkChunkOptions (Some 6) (Some 4).

(** An embedder, a table and an agent that always answer: one vector
    per text (here the text's length), and blank agent responses. *)
Definition quiet : Env Z :=
  mkEnv Z (fun _ texts => Some (map len texts))
          (fun _ _ => Some tt)
          (fun _ => Some tt)
          (fun _ _ _ => Some (lit "   ")).

(** A table whose [insert] rejects. *)
Definition brokenTable : Env Z :=
  mkEnv Z (fun _ texts => Some (map len texts))
          (fun _ _ => None)
          (fun _ => Some tt)
          (fun _ _ _ => None).

Definition noShift : option Z -> list Z -> nat -> bool := fun _ _ _ => false.

Definition defaults : HierarchyOptions Z := mkOptions None None None None None.

Definition smallChunks : Options Z :=
  mkSyncOptions (mkChunkOptions (Some 8) (Some 0)) defaults.

Definition hello : str := lit "Hello.".
Definition helloWorld : str := lit "Hello." ++ [nl; nl] ++ lit "World.".

Definition sync : str -> Options Z -> M Z Manager bool :=
  syncIfNeeded Sha256.sha256 noShift quiet.

(** The manager and the log after a first sync of [hello], and of
    [helloWorld]. *)
Definition afterHello : Manager * list (Event Z) :=
  fst (sync hello smallChunks fresh []).

Definition afterHelloWorld : Manager * list (Event Z) :=
  fst (sync helloWorld smallChunks fresh []).

(** Two paragraphs of 6000 characters: two summarization windows. *)
Definition twoWindows : str :=
  repeatStr (lit "a") (60 * 100) ++ [nl; nl] ++ repeatStr (lit "b") (60 * 100).

End Scenario.

(* ================================================================== *)
(** ** Notions used in the statements                                  *)
(* ================================================================== *)

Module ChunkerNotions.
Import Chunker.

Definition nonEmpty (s : str) : Prop := 0 < len s.

(** The value of [searchFrom] when the position loop reaches segment
    number [i], having started from [searchFrom]: one past the start of
    the last segment that was located, or the initial value. *)
Fixpoint searchCursor (text : str) (segments : list str) (i : nat)
    (searchFrom : Z) : Z :=
  match i, segments with
  | S i', canonical :: rest =>
      let start := indexOf text canonical searchFrom in
      searchCursor text rest i'
        (if 0 <=? start then start + 1 else searchFrom)
  | _, _ => searchFrom
  end.

(** The last [n] code units of [s]. *)
Definition lastChars (n : nat) (s : str) : str := skipn (length s - n) s.

(** [prefix] is [window] cut at a word boundary: behind the first space
    when a word fragment precedes it, the whole window when it has no
    space or starts with one. *)
Inductive wordTrimmed : str -> str -> Prop :=
| trimmed_behind_fragment (w r : str) :
    w <> [] -> ~ In sp w -> wordTrimmed (w ++ sp :: r) r
| trimmed_no_space (window : str) :
    ~ In sp window -> wordTrimmed window window
| trimmed_leading_space (r : str) :
    wordTrimmed (sp :: r) (sp :: r).

(** The rule as the specification words it: keep what follows the first
    space of the window, and the whole window when it has no space. *)
Fixpoint afterFirstSpace (window : str) : option str :=
  match window with
  | [] => None
  | c :: rest => if Ascii.eqb c sp then Some rest else afterFirstSpace rest
  end.

Definition overlapBySpec (prev : str) (overlap : Z) : str :=
  let window := lastChars (Z.to_nat overlap) prev in
  match afterFirstSpace window with
  | Some rest => rest
  | None => window
  end.

End ChunkerNotions.

Module HierarchyNotions.
Import Hierarchy.

(** The hierarchy of the empty document. *)
Definition onlySection : HeadingNode :=
  mkNode 1 (lit "Section 1 of 1") 0 0 [].

Definition onlySummary : SectionSummary.t :=
  SectionSummary.mk (lit "Section 1 of 1") [] 0 0.

Definition onlyOutline {Num} (options : HierarchyOptions Num) : str :=
  if withDefault 6 (maxOutlineDepth options) <? 1 then []
  else lit "1. Section 1 of 1".

(** What the offset counter of [extractHeadings] has added up after
    [lines]: every line and one separator each. *)
Fixpoint extent (lines : list str) : Z :=
  match lines with
  | [] => 0
  | line :: rest => len line + 1 + extent rest
  end.

(** Offsets that grow strictly from [lo] on and stay below [hi]. *)
Fixpoint ascending (lo hi : Z) (flat : list FlatHeading.t) : Prop :=
  match flat with
  | [] => True
  | h :: rest =>
      lo <= FlatHeading.offset h < hi /\
      ascending (FlatHeading.offset h + 1) hi rest
  end.

Definition sameOrHigher (h : FlatHeading.t) (n : FlatHeading.t) : bool :=
  (FlatHeading.level n <=? FlatHeading.level h)%nat.

Definition nodeOf (item : Ended.t) (kids : list HeadingNode) : HeadingNode :=
  mkNode (Ended.level item) (Ended.title item) (Ended.offset item)
    (Ended.endOffset item) kids.

(** The shape of what [nestFrom] returns for the items [lo .. hi - 1]:
    a node for item [lo], whose children come from the deeper items
    that follow it up to [childEnd], and then the rest of the range. *)
Inductive Nested (items : list Ended.t)
  : nat -> nat -> list HeadingNode -> Prop :=
| Nested_nil (lo hi : nat) : Nested items lo hi []
| Nested_cons (lo hi childEnd : nat) (item : Ended.t)
    (kids rest : list HeadingNode) :
    nth_error items lo = Some item ->
    (lo < childEnd <= hi)%nat ->
    (forall j it, (lo < j < childEnd)%nat -> nth_error items j = Some it ->
                  (Ended.level item < Ended.level it)%nat) ->
    ((childEnd < hi)%nat ->
     exists it, nth_error items childEnd = Some it /\
                (Ended.level it <= Ended.level item)%nat) ->
    Nested items (S lo) childEnd kids ->
    Nested items childEnd hi rest ->
    Nested items lo hi (nodeOf item kids :: rest).

(** [n] was built from the item at position [k]. *)
Definition builtFrom (items : list Ended.t) (lo hi : nat)
    (n : HeadingNode) : Prop :=
  exists k item,
    (lo <= k < hi)%nat /\ nth_error items k = Some item /\
    level n = Ended.level item /\
    startOffset n = Ended.offset item /\
    endOffset n = Ended.endOffset item.

(** [n] is a node of the forest [f], at any depth. *)
Inductive InTree : HeadingNode -> list HeadingNode -> Prop :=
| InTree_here (n : HeadingNode) (f : list HeadingNode) :
    In n f -> InTree n f
| InTree_below (n m : HeadingNode) (f : list HeadingNode) :
    In m f -> InTree n (children m) -> InTree n f.

(** The range of [c] lies within the range of [p]. *)
Definition within (c p : HeadingNode) : Prop :=
  startOffset p <= startOffset c /\ endOffset c <= endOffset p.

(** The range of [a] ends where the range of [b] starts, or before. *)
Definition apart (a b : HeadingNode) : Prop :=
  endOffset a <= startOffset b.

Definition deeper (a b : HeadingNode) : Prop := (level a < level b)%nat.

(** A well-formed node: a non-empty range inside the document, children
    within it at greater levels, following each other without overlap. *)
Definition nodeOK (docLength : Z) (n : HeadingNode) : Prop :=
  startOffset n < endOffset n <= docLength /\
  Forall (fun c => within c n /\ deeper n c) (children n) /\
  ForallOrdPairs apart (children n).

(** A path that starts at a root of the forest and steps from a node to
    one of its children. *)
Inductive Descends : list HeadingNode -> list HeadingNode -> Prop :=
| Descends_nil (f : list HeadingNode) : Descends f []
| Descends_cons (f : list HeadingNode) (n : HeadingNode)
    (path : list HeadingNode) :
    In n f -> Descends (children n) path -> Descends f (n :: path).

(** The number of nodes of a tree, of a forest. *)
Fixpoint size (n : HeadingNode) : nat :=
  S (list_sum (map size (children n))).

Definition sizeAll (f : list HeadingNode) : nat := list_sum (map size f).

End HierarchyNotions.

Module RunNotions.
Import Chunker.

Definition isErr {A} (r : Result A) : bool :=
  match r with Err _ => true | Ok _ => false end.

(** A computation that leaves the object's fields alone, only appends to
    the log, and fails exactly when one of its external calls did. *)
Definition Clean {Vec St A} (c : M Vec St A) : Prop :=
  forall s log,
  exists evs r,
    c s log = (s, log ++ evs, r) /\ existsb failed evs = isErr r.

(** The events a call appended to the log it was given. *)
Definition since {Vec} (log log' : list (Event Vec)) : list (Event Vec) :=
  skipn (length log) log'.

(** The summaries the MAP loop keeps from the calls it made: the trimmed
    responses that are not empty. *)
Definition kept {Vec} (e : Event Vec) : list str :=
  match e with
  | Generate MAP_PROMPT _ (Some response) =>
      match trim response with
      | [] => []
      | summary => [summary]
      end
  | _ => []
  end.

Definition collected {Vec} (evs : list (Event Vec)) : list str :=
  flat_map kept evs.

(** A MAP call that was rejected, or answered with white space only. *)
Definition blank {Vec} (e : Event Vec) : Prop :=
  match e with
  | Generate MAP_PROMPT _ (Some response) => trim response = []
  | Generate MAP_PROMPT _ None => True
  | _ => False
  end.

Definition mapCall {Vec} (e : Event Vec) (c : Chunk) : Prop :=
  exists reply, e = Generate MAP_PROMPT (Chunker.text c) reply.

End RunNotions.

Module SyncNotions.
Import Hierarchy Chunker DocSync Scenario.

(** The external calls of [extractHierarchy]: none, or the one
    [embedBatch] on the paragraphs of a document without headings that
    has more than one paragraph. *)
Definition hierarchyCalls {Vec} (text : str) (evs : list (Event Vec))
  : Prop :=
  evs = [] \/
  exists reply,
    evs = [EmbedBatch (map Paragraph.text (splitParagraphs text)) reply] /\
    extractHeadings text = [] /\
    (1 < length (splitParagraphs text))%nat.

(** [toDelete], [toInsert] and the chunks that are not in [toInsert], for
    a manager and the chunks of the current document. *)
Definition staleOf (m : Manager) (chunks : list Chunk) : list str :=
  filter (fun h => negb (has (setOf (map hash chunks)) h)) (storedHashes m).

Definition newOf (m : Manager) (chunks : list Chunk) : list Chunk :=
  filter (fun c => negb (has (storedHashes m) (hash c))) chunks.

Definition keptOf (m : Manager) (chunks : list Chunk) : list Chunk :=
  filter (fun c => has (storedHashes m) (hash c)) chunks.

(** The branch [syncIfNeeded] takes once the diff is known. *)
Definition diffStep {Vec} (env : Env Vec) (allChunks : list Chunk)
    (toDelete : list str) (toInsert : list Chunk) : M Vec Manager unit :=
  match toDelete, toInsert with
  | _ :: _, _ => fullResync env allChunks
  | [], _ :: _ => embedAndInsert env toInsert
  | [], [] => ret tt
  end.

(** The guarded calls of [fullResync]: made only on a non-empty list. *)
Definition embedsOf {Vec} (chunks : list Chunk)
    (reply : option (list Vec)) : list (Event Vec) :=
  match chunks with
  | [] => []
  | _ => [EmbedBatch (map Chunker.text chunks) reply]
  end.

Definition insertOf {Vec} (records : list (ChunkRecord Vec))
    (reply : option unit) : list (Event Vec) :=
  match records with
  | [] => []
  | _ => [Insert records reply]
  end.

(** The texts the embedder was asked for. *)
Definition embedded {Vec} (e : Event Vec) : list str :=
  match e with EmbedBatch texts _ => texts | _ => [] end.

(** Hierarchy extraction and chunking as [Scenario.sync] runs them, from
    a given manager and log. *)
Definition hierarchyOf (text : str) (start : Manager * list (Event Z))
  : Manager * list (Event Z) * Result HierarchyMap :=
  extractHierarchy noShift quiet text (Some TheEmbedder)
    (structure smallChunks) (fst start) (snd start).

Definition orEmpty (r : Result HierarchyMap) : HierarchyMap :=
  match r with
  | Ok h => h
  | Err _ => mkMap [] [] [] [] positional
  end.

Definition chunksOf (text : str) (start : Manager * list (Event Z))
  : list Chunk :=
  chunkWithHierarchy Sha256.sha256 text
    (orEmpty (snd (hierarchyOf text start))) (chunking smallChunks).

End SyncNotions.

(* ================================================================== *)
(** ** Notions used to state the properties of the segments            *)
(* ================================================================== *)

Module SegmentNotions.
Import Chunker.

(** The characters that are not white space, in order. *)
Definition solid (c : ascii) : bool := negb (isSpace c).

Definition ink (s : str) : str := filter solid s.

(** A non-empty string that [trim] leaves as it is. *)
Definition tidy (s : str) : Prop := s <> [] /\ trim s = s.

(** [needle] occurs in [s] at position [p]. *)
Definition occursAt (s needle : str) (p : Z) : Prop :=
  exists before after, s = before ++ needle ++ after /\ len before = p.

(** [s] is one trimmed sentence of a paragraph of [text] that is longer
    than [maxSize]. *)
Definition loneSentence (text : str) (maxSize : Z) (s : str) : Prop :=
  exists para sentence,
    In para (splitRegex PARAGRAPH_SPLIT text) /\
    maxSize < len para /\
    In sentence (splitRegex SENTENCE_SPLIT para) /\
    s = trim sentence.

(** A separator pattern that matches white space only. *)
Definition whiteOnly (m : option ascii -> str -> option nat) : Prop :=
  forall prev s k, m prev s = Some k -> forallb isSpace (firstn k s) = true.

(** The most that [applyOverlap] puts in front of a segment. *)
Definition slack (overlap : Z) : Z := if 0 <? overlap then overlap + 1 else 0.

End SegmentNotions.

(* ================================================================== *)
(** ** Notions used to state the properties of the sections            *)
(* ================================================================== *)

Module SectionNotions.
Import Hierarchy HierarchyNotions.

(** [line] is a whole line of [text] and starts at [offset]. *)
Definition lineAt (text : str) (offset : Z) (line : str) : Prop :=
  exists before after,
    text = before ++ line ++ after /\
    len before = offset /\
    ~ In nl line /\
    (before = [] \/ exists b, before = b ++ [nl]) /\
    (after = [] \/ exists a, after = nl :: a).

(** Sections that follow each other from [lo] to [hi] without a gap. *)
Fixpoint tiles (lo hi : Z) (sections : list HeadingNode) : Prop :=
  match sections with
  | [] => lo = hi
  | n :: rest =>
      startOffset n = lo /\ lo <= endOffset n /\ tiles (endOffset n) hi rest
  end.

(** A section of a fall-back strategy: level 1 and no children. *)
Definition flatSection (n : HeadingNode) : Prop :=
  level n = 1%nat /\ children n = [].

(** The titles ["Section 1 of n"], ..., ["Section n of n"]. *)
Definition numberedTitles (n : nat) : list str :=
  map (fun i => sectionTitleOf i n) (seq 0 n).

(** The leaves of a forest, from left to right. *)
Inductive Leaf : HeadingNode -> list HeadingNode -> Prop :=
| Leaf_here (n : HeadingNode) (f : list HeadingNode) :
    In n f -> children n = [] -> Leaf n f
| Leaf_below (n m : HeadingNode) (f : list HeadingNode) :
    In m f -> Leaf n (children m) -> Leaf n f.

(** [kept] is [l] with some elements left out. *)
Inductive Subseq {A : Type} : list A -> list A -> Prop :=
| Subseq_nil : Subseq [] []
| Subseq_skip (x : A) (kept l : list A) : Subseq kept l -> Subseq kept (x :: l)
| Subseq_keep (x : A) (kept l : list A) :
    Subseq kept l -> Subseq (x :: kept) (x :: l).

(** Between two boundaries that follow each other lie paragraphs of at
    least [minSize] characters in all. *)
Fixpoint gapsAtLeast (paragraphs : list Paragraph.t) (minSize : Z)
    (boundaries : list nat) : Prop :=
  match boundaries with
  | a :: (b :: _) as rest =>
      minSize <= sizeBetween paragraphs a b /\
      gapsAtLeast paragraphs minSize rest
  | _ => True
  end.

(** The strategy [extractHierarchy] falls back on without headings. *)
Definition fallback (embedder : option Embedder) : Strategy :=
  match embedder with
  | Some _ => embedding_similarity
  | None => positional
  end.

(** What holds of the path that [findHeadingPath] returns. *)
Definition pathOK (offset : Z) (f : list HeadingNode) : Prop :=
  Descends f (findHeadingPath offset f) /\
  Forall (fun n => covers offset n = true) (findHeadingPath offset f) /\
  (forall init n,
     findHeadingPath offset f = init ++ [n] ->
     forallb (fun k => negb (covers offset k)) (children n) = true).

(** Every node of the forest is well formed, and the roots do not
    overlap. *)
Definition wellFormed (docLength : Z) (f : list HeadingNode) : Prop :=
  ForallOrdPairs apart f /\ forall n, InTree n f -> nodeOK docLength n.

End SectionNotions.

(** *** Further scenarios *)

Module Examples.
Import Hierarchy Chunker Scenario.

(** The hierarchy of [helloWorld] with the embedder of [quiet]: two
    paragraphs and no topic shift, so one section. *)
Definition helloWorldMap : HierarchyMap :=
  mkMap [mkNode 1 (lit "Section 1 of 1") 0 14 []]
    (lit "1. Section 1 of 1")
    (lit "Hello. World.")
    [SectionSummary.mk (lit "Section 1 of 1") (lit "Hello.") 0 14]
    embedding_similarity.

(** The two nodes of the tree of scenario S2. *)
Definition details : HeadingNode := mkNode 2 (lit "Details") 23 45 [].
Definition intro : HeadingNode := mkNode 1 (lit "Intro") 0 45 [details].

End Examples.

(* ================================================================== *)
(** ** Notions used to state the properties of section chunks          *)
(* ================================================================== *)

Module SectionChunkNotions.
Import Hierarchy Chunker.

(** [c] is the chunk [c0] of the text of [section], moved to document
    offsets and annotated with the section and the path [prefix]. *)
Definition annotated (section : HeadingNode) (prefix : str)
    (c0 c : Chunk) : Prop :=
  Chunker.text c = Chunker.text c0 /\
  hash c = hash c0 /\
  start c = start c0 + startOffset section /\
  end_ c = end_ c0 + startOffset section /\
  sectionTitle c = Some (title section) /\
  sectionPath c = Some prefix /\
  contextPrefix c =
    match prefix with
    | [] => None
    | _ => Some (lit "[" ++ prefix ++ lit "] ")
    end.

(** The text of a section. *)
Definition sectionText (text : str) (section : HeadingNode) : str :=
  slice text (startOffset section) (endOffset section).

End SectionChunkNotions.

(* ================================================================== *)
(** ** Notions used to state the properties of the sync manager        *)
(* ================================================================== *)

Module ManagerNotions.
Import Hierarchy Chunker DocSync Scenario.

(** The bookkeeping of a manager is consistent: no hash is stored
    twice, nothing is stored without a document hash, and a document
    hash comes with a hierarchy. *)
Definition consistent (m : Manager) : Prop :=
  NoDup (storedHashes m) /\
  (lastDocHash m = None -> storedHashes m = []) /\
  (lastHierarchy m = None -> lastDocHash m = None).

(** [hello] followed by a newline: another document, the same chunk. *)
Definition helloNewline : str := hello ++ [nl].

Definition helloNewlineMap : HierarchyMap :=
  mkMap [mkNode 1 (lit "Section 1 of 1") 0 7 []]
    (lit "1. Section 1 of 1")
    (lit "Hello.")
    [SectionSummary.mk (lit "Section 1 of 1") (lit "Hello.") 0 7]
    embedding_similarity.

End ManagerNotions.

(* ================================================================== *)
(** ** Notions used to state the properties of small documents         *)
(* ================================================================== *)

Module SmallNotions.
Import Chunker.

(** The characters of the pieces and two more for each piece: what
    they take when a blank line follows each. *)
Fixpoint spread (pieces : list str) : Z :=
  match pieces with
  | [] => 0
  | p :: rest => len p + 2 + spread rest
  end.

(** A separator pattern whose matches lie within the input and are at
    least two characters long. *)
Definition wideMatches (m : option ascii -> str -> option nat) : Prop :=
  forall prev s n, m prev s = Some n -> (2 <= n <= length s)%nat.

(** The paragraphs of a text that are not blank. *)
Definition paragraphsOf (text : str) : list str :=
  filter nonBlank (splitRegex PARAGRAPH_SPLIT text).

(** The one segment of a document that fits a chunk. *)
Definition wholeText (text : str) : str :=
  join [nl; nl] (map trim (paragraphsOf text)).

Definition isGenerate {Vec} (e : Event Vec) : bool :=
  match e with Generate _ _ _ => true | _ => false end.

(** The three errors [summarizeDocument] throws. *)
Definition summaryError (e : Error) : Prop :=
  e = Thrown Summarize.noSingle \/
  e = Thrown Summarize.noSummaries \/
  e = Thrown Summarize.noFinal.

End SmallNotions.

(* ================================================================== *)
(** ** db/vectordb.ts                                                  *)
(* ================================================================== *)

(** The class [VectorDB].  The LanceDB connection and its tables are
    external: every call to them is recorded with its outcome, [None]
    being a rejected promise.  [Conn] and [Tbl] are the handles the
    library returns, [Rec] the stored records, [Row] the rows a search
    returns and [TRec] the records without vector of [insertText]. *)
Module VectorDB.

Section Store.

Context {Rec TRec Vec Row Conn Tbl : Type}.

Inductive Call :=
| Connect (reply : option Conn)
| TableNames (db : Conn) (reply : option (list str))
| OpenTable (db : Conn) (name : str) (reply : option Tbl)
| CreateTable (db : Conn) (name : str) (data : list Rec)
    (reply : option Tbl)
| AddRows (table : Tbl) (records : list Rec) (reply : option unit)
| DropTable (db : Conn) (name : str) (reply : option unit)
| CountRows (table : Tbl) (reply : option Z)
| VectorSearch (table : Tbl) (queryVector : Vec) (limit : Z)
    (reply : option (list Row))
| Embed (text : str) (reply : option Vec)
| EmbedTexts (texts : list str) (reply : option (list Vec)).

(** What the library and the embedder answer, given the calls so far. *)
Record World := mkWorld {
  onConnect : list Call -> option Conn;
  onTableNames : list Call -> Conn -> option (list str);
  onOpenTable : list Call -> Conn -> str -> option Tbl;
  onCreateTable : list Call -> Conn -> str -> list Rec -> option Tbl;
  onAddRows : list Call -> Tbl -> list Rec -> option unit;
  onDropTable : list Call -> Conn -> str -> option unit;
  onCountRows : list Call -> Tbl -> option Z;
  onVectorSearch : list Call -> Tbl -> Vec -> Z -> option (list Row);
  onEmbed : list Call -> str -> option Vec;
  onEmbedTexts : list Call -> list str -> option (list Vec)
}.

(** The fields of a [VectorDB]; [embedder] tells whether one was given
    to the constructor. *)
Record Store := mkStore {
  tableName : str;
  db : option Conn;
  table : option Tbl;
  embedder : bool
}.

Definition withDb (st : Store) (c : Conn) : Store :=
  mkStore (tableName st) (Some c) (table st) (embedder st).

Definition withTable (st : Store) (t : option Tbl) : Store :=
  mkStore (tableName st) (db st) t (embedder st).

(** An asynchronous method of a [VectorDB]. *)
Definition V (A : Type) : Type :=
  Store -> list Call -> Store * list Call * Result A.

Definition pure {A} (a : A) : V A := fun st log => (st, log, Ok a).

Definition fail {A} (e : Error) : V A := fun st log => (st, log, Err e).

Definition andThen {A B} (c : V A) (k : A -> V B) : V B :=
  fun st log =>
    match c st log with
    | (st', log', Ok a) => k a st' log'
    | (st', log', Err e) => (st', log', Err e)
    end.

Definition this : V Store := fun st log => (st, log, Ok st).

Definition assign (f : Store -> Store) : V unit :=
  fun st log => (f st, log, Ok tt).

(** One awaited call: it is logged with its outcome. *)
Definition call {A} (e : option A -> Call) (reply : list Call -> option A)
  : V A :=
  fun st log =>
    (st, log ++ [e (reply log)],
     match reply log with Some a => Ok a | None => Err Rejected end).

Variable world : World.

Definition quote : ascii := "034"%char.

Definition noEmbedder : str :=
  lit "VectorDB: an Embedder is required for text operations. "
    ++ lit "Pass one to the constructor: new VectorDB("
    ++ [quote] ++ lit "name" ++ [quote] ++ lit ", new Embedder())".

(** [limit = 10] *)
Definition limitOf (limit : option Z) : Z :=
  match limit with Some n => n | None => 10 end.

Definition includes (names : list str) (name : str) : bool :=
  existsb (str_eqb name) names.

(** [connect()]: lazily open, or reuse, the connection. *)
Definition connect : V Conn :=
  andThen this (fun st =>
  match db st with
  | Some c => pure c
  | None =>
      andThen (call Connect (onConnect world)) (fun c =>
      andThen (assign (fun st => withDb st c)) (fun _ =>
      pure c))
  end).

(** [getTable(initialData)] *)
Definition getTable (initialData : option (list Rec)) : V (option Tbl) :=
  andThen this (fun st =>
  match table st with
  | Some t => pure (Some t)
  | None =>
      andThen connect (fun c =>
      andThen (call (TableNames c) (fun log => onTableNames world log c))
        (fun existing =>
      if includes existing (tableName st) then
        andThen (call (OpenTable c (tableName st))
                   (fun log => onOpenTable world log c (tableName st)))
          (fun t =>
        andThen (assign (fun st => withTable st (Some t))) (fun _ =>
        pure (Some t)))
      else
        match initialData with
        | Some (r :: rs) =>
            andThen (call (CreateTable c (tableName st) (r :: rs))
                       (fun log =>
                          onCreateTable world log c (tableName st) (r :: rs)))
              (fun t =>
            andThen (assign (fun st => withTable st (Some t))) (fun _ =>
            pure (Some t)))
        | _ => pure None
        end))
  end).

(** [insert(records)] *)
Definition insert (records : list Rec) : V unit :=
  match records with
  | [] => pure tt
  | _ =>
      andThen (getTable (Some records)) (fun got =>
      andThen this (fun st =>
      match got, table st with
      | Some t, None => assign (fun st => withTable st (Some t))
      | Some t, Some _ =>
          call (AddRows t records) (fun log => onAddRows world log t records)
      | None, _ =>
          andThen connect (fun c =>
          andThen (call (CreateTable c (tableName st) records)
                     (fun log =>
                        onCreateTable world log c (tableName st) records))
            (fun t =>
          assign (fun st => withTable st (Some t))))
      end))
  end.

(** [search(queryVector, limit)]; [toResult] splits a row into its
    record and its distance. *)
Definition search {Res} (toResult : Row -> Res) (queryVector : Vec)
    (limit : option Z) : V (list Res) :=
  andThen (getTable None) (fun got =>
  match got with
  | None => pure []
  | Some t =>
      andThen (call (VectorSearch t queryVector (limitOf limit))
                 (fun log =>
                    onVectorSearch world log t queryVector
                      (limitOf limit)))
        (fun raw =>
      pure (map toResult raw))
  end).

(** [reset()] *)
Definition reset : V unit :=
  andThen connect (fun c =>
  andThen (call (TableNames c) (fun log => onTableNames world log c))
    (fun existing =>
  andThen this (fun st =>
  andThen
    (if includes existing (tableName st)
     then call (DropTable c (tableName st))
            (fun log => onDropTable world log c (tableName st))
     else pure tt) (fun _ =>
  assign (fun st => withTable st None))))).

(** [count()] *)
Definition count : V Z :=
  andThen (getTable None) (fun got =>
  match got with
  | None => pure 0
  | Some t => call (CountRows t) (fun log => onCountRows world log t)
  end).

(** [requireEmbedder()] *)
Definition requireEmbedder : V unit :=
  andThen this (fun st =>
  if embedder st then pure tt else fail (Thrown noEmbedder)).

(** [records.map((r, i) => ({ ...r, vector: vectors[i] }))] from [i]. *)
Fixpoint withVectors (withVector : TRec -> option Vec -> Rec)
    (records : list TRec) (vectors : list Vec) (i : nat) : list Rec :=
  match records with
  | [] => []
  | r :: rest =>
      withVector r (nth_error vectors i)
        :: withVectors withVector rest vectors (S i)
  end.

(** [insertText(records)] *)
Definition insertText (textOf : TRec -> str)
    (withVector : TRec -> option Vec -> Rec) (records : list TRec)
  : V unit :=
  match records with
  | [] => pure tt
  | _ =>
      andThen requireEmbedder (fun _ =>
      andThen (call (EmbedTexts (map textOf records))
                 (fun log => onEmbedTexts world log (map textOf records)))
        (fun vectors =>
      insert (withVectors withVector records vectors 0)))
  end.

(** [searchText(query, limit)] *)
Definition searchText {Res} (toResult : Row -> Res) (query : str)
    (limit : option Z) : V (list Res) :=
  andThen requireEmbedder (fun _ =>
  andThen (call (Embed query) (fun log => onEmbed world log query))
    (fun queryVector =>
  search toResult queryVector limit)).

(** What a call does to the database. *)
Inductive Kind :=
| connecting | listing | opening | creating | adding | dropping
| counting | searching | embedding.

Definition kind (e : Call) : Kind :=
  match e with
  | Connect _ => connecting
  | TableNames _ _ => listing
  | OpenTable _ _ _ => opening
  | CreateTable _ _ _ _ => creating
  | AddRows _ _ _ => adding
  | DropTable _ _ _ => dropping
  | CountRows _ _ => counting
  | VectorSearch _ _ _ _ => searching
  | Embed _ _ | EmbedTexts _ _ => embedding
  end.

(** A call that changes what is stored. *)
Definition writes (e : Call) : bool :=
  match kind e with
  | creating | adding | dropping => true
  | _ => false
  end.

(** A call that [reset] may make. *)
Definition resetting (e : Call) : bool :=
  match kind e with
  | connecting | listing | dropping => true
  | _ => false
  end.

End Store.

Arguments Call : clear implicits.
Arguments World : clear implicits.
Arguments Store : clear implicits.

(** A database without tables that accepts every call; handles are
    [tt], vectors and rows are numbers. *)
Definition emptyWorld : World Z Z Z unit unit :=
  mkWorld (fun _ => Some tt)
          (fun _ _ => Some [])
          (fun _ _ _ => Some tt)
          (fun _ _ _ _ => Some tt)
          (fun _ _ _ => Some tt)
          (fun _ _ _ => Some tt)
          (fun _ _ => Some 0)
          (fun _ _ _ _ => Some [])
          (fun _ text => Some (len text))
          (fun _ texts => Some (map len texts)).

Definition newStore : Store unit unit :=
  mkStore (lit "chunks") None None false.

End VectorDB.

(* ================================================================== *)
(** ** services/criticism.ts, services/suggest.ts, services/agent.ts   *)
(* ================================================================== *)

(** The three functions that hand the document to the agent and parse
    its answer as JSON.  The agent is external: every call is recorded
    with its outcome.  [JSON.parse] stays a parameter: [parseItems] is
    [JSON.parse] followed by the spread of its result into the
    collected array, [None] when either throws; [parseValue] is
    [JSON.parse] alone. *)
Module Review.
Import Chunker.

(** The system prompts of the three files. *)
Inductive Task := CRITICIZE | SUGGEST | CHAT.

(** The outcome of [agent.generate]: a rejected promise, a response
    without [content], or the content. *)
Inductive Answer := Refused | NoContent | Content (content : str).

Record Ask := mkAsk { task : Task; prompt : str; answer : Answer }.

Definition Agent : Type := list Ask -> Task -> str -> Answer.

Definition reviewWindows : ChunkOptions := mkChunkOptions (Some 1500) (Some 200).
Definition chatWindows : ChunkOptions := mkChunkOptions (Some 15000) (Some 0).

Definition dropPrefix (p s : str) : str :=
  if startsWith p s then skipn (length p) s else s.

Definition dropSuffix (p s : str) : str :=
  reverse (dropPrefix (reverse p) (reverse s)).

(** [content.replace(/^```json/, "").replace(/```$/, "").trim()] *)
Definition stripFence (content : str) : str :=
  trim (dropSuffix (lit "```") (dropPrefix (lit "```json") content)).

Section Reviewing.

Context {Item Json : Type}.
Variable sha256 : str -> str.
Variable agent : Agent.
Variable parseItems : str -> option (list Item).
Variable parseValue : str -> option Json.

(** What one round of the loop pushes: nothing when the call is
    refused, has no content, is empty once the fence is stripped, or
    does not parse. *)
Definition itemsOf (a : Answer) : list Item :=
  match a with
  | Content content =>
      match stripFence content with
      | [] => []
      | jsonStr =>
          match parseItems jsonStr with
          | Some items => items
          | None => []
          end
      end
  | _ => []
  end.

(** The loop of [criticizeDocument] and of [suggestChangesDocument]. *)
Fixpoint reviewLoop (t : Task) (chunks : list Chunk) (log : list Ask)
    (all : list Item) : list Ask * list Item :=
  match chunks with
  | [] => (log, all)
  | chunk :: rest =>
      let a := agent log t (Chunker.text chunk) in
      reviewLoop t rest (log ++ [mkAsk t (Chunker.text chunk) a])
        (all ++ itemsOf a)
  end.

Definition reviewDocument (t : Task) (text : str) (log : list Ask)
  : list Ask * list Item :=
  reviewLoop t (chunkText sha256 text reviewWindows) log [].

Definition criticizeDocument : str -> list Ask -> list Ask * list Item :=
  reviewDocument CRITICIZE.

Definition suggestChangesDocument : str -> list Ask -> list Ask * list Item :=
  reviewDocument SUGGEST.

(** The result of [chatWithDocument]: the parsed answer, or one of the
    two replies of the function itself. *)
Inductive ChatResult :=
| Parsed (value : Json)
| Reply (replyText : str).

Definition emptyResponse : str := lit "Received empty response from the AI.".
Definition sorry : str :=
  lit "I'm sorry, I couldn't process that request right now.".

(** The part of the document that is sent: the text of the first
    chunk, the document itself without one. *)
Definition relevantText (text : str) : str :=
  match chunkText sha256 text chatWindows with
  | firstChunk :: _ =>
      match Chunker.text firstChunk with
      | [] => text
      | firstText => firstText
      end
  | [] => text
  end.

Definition chatPrompt (relevant mode query : str) : str :=
  [nl] ++ lit "DOCUMENT TEXT:" ++ [nl] ++ lit "---" ++ [nl]
    ++ relevant ++ [nl] ++ lit "---" ++ [nl] ++ [nl]
    ++ lit "USER MODE: " ++ mode ++ [nl]
    ++ lit "USER QUERY: " ++ query ++ [nl].

Definition chatResultOf (a : Answer) : ChatResult :=
  match a with
  | Refused => Reply sorry
  | NoContent | Content [] => Reply emptyResponse
  | Content content =>
      match stripFence content with
      | [] => Reply sorry
      | jsonStr =>
          match parseValue jsonStr with
          | Some value => Parsed value
          | None => Reply sorry
          end
      end
  end.

Definition chatWithDocument (text query mode : str) (log : list Ask)
  : list Ask * ChatResult :=
  let prompt := chatPrompt (relevantText text) mode query in
  let a := agent log CHAT prompt in
  (log ++ [mkAsk CHAT prompt a], chatResultOf a).

End Reviewing.

End Review.

(* ================================================================== *)
(** ** Facts about the string primitives                               *)
(* ================================================================== *)

Module JsFacts.

Lemma len_nonneg (s : str) : 0 <= len s.
Proof. unfold len; lia. Qed.

Lemma len_app (a b : str) : len (a ++ b) = len a + len b.
Proof. unfold len; rewrite length_app; lia. Qed.

Lemma len_cons (c : ascii) (s : str) : len (c :: s) = 1 + len s.
Proof. unfold len; cbn [length]; lia. Qed.

Lemma startsWith_length (needle s : str) :
  startsWith needle s = true -> len needle <= len s.
Proof.
  revert s; induction needle as [|x needle IH]; intros [|y s] H; cbn in H.
  - lia.
  - unfold len; cbn [length]; lia.
  - discriminate.
  - destruct (Ascii.eqb x y); [|discriminate].
    apply IH in H. rewrite !len_cons; lia.
Qed.

Lemma startsWith_prefix (needle s : str) :
  startsWith needle s = true <-> exists t, s = needle ++ t.
Proof.
  revert s; induction needle as [|x needle IH]; intros s; cbn.
  - split; [exists s; reflexivity | reflexivity].
  - destruct s as [|y s].
    + split; [discriminate | intros [t Ht]; discriminate].
    + destruct (Ascii.eqb x y) eqn:E.
      * apply Ascii.eqb_eq in E. subst y. rewrite IH. split.
        -- intros [t ->]. exists t; reflexivity.
        -- intros [t Ht]. injection Ht as ->. exists t; reflexivity.
      * split; [discriminate|]. intros [t Ht]. injection Ht as -> _.
        rewrite Ascii.eqb_refl in E. discriminate.
Qed.

(** A hit of [indexOfFrom] lies inside the searched suffix; a miss is
    reported as [-1]. *)
Lemma indexOfFrom_range (needle s : str) (pos : Z) :
  0 <= pos ->
  indexOfFrom needle s pos = -1 \/
  (pos <= indexOfFrom needle s pos /\
   indexOfFrom needle s pos + len needle <= pos + len s).
Proof.
  revert pos; induction s as [|c s IH]; intros pos Hpos; cbn [indexOfFrom].
  - destruct (startsWith needle []) eqn:E; [right | left; reflexivity].
    apply startsWith_length in E. lia.
  - destruct (startsWith needle (c :: s)) eqn:E.
    + right. apply startsWith_length in E. lia.
    + destruct (IH (pos + 1)) as [H | [H1 H2]]; [lia | left; exact H | right].
      rewrite len_cons. lia.
Qed.

Lemma len_skipn (s : str) (k : Z) :
  0 <= k <= len s -> len (skipn (Z.to_nat k) s) = len s - k.
Proof. intros H. unfold len in *. rewrite length_skipn. lia. Qed.

Lemma indexOf_range (s needle : str) (from : Z) :
  indexOf s needle from = -1 \/
  (Z.min (Z.max from 0) (len s) <= indexOf s needle from /\
   indexOf s needle from + len needle <= len s).
Proof.
  unfold indexOf. pose proof (len_nonneg s) as Hs.
  set (k := Z.min (Z.max from 0) (len s)).
  assert (Hk : 0 <= k <= len s) by (unfold k; lia).
  destruct (indexOfFrom_range needle (skipn (Z.to_nat k) s) k) as [H | [H1 H2]];
    [lia | left; exact H | right].
  rewrite len_skipn in H2 by exact Hk. lia.
Qed.

End JsFacts.

(* ================================================================== *)
(** ** The chunker: segments, overlap and positions                    *)
(* ================================================================== *)

Module ChunkerFacts.
Import JsFacts Chunker ChunkerNotions.

(** Whatever the raw segments are, [mergeSegments] pushes non-empty
    buffers only. *)
Lemma mergeSegments_nonEmpty (maxSize : Z) (raw : list str) :
  forall buffer merged,
    Forall nonEmpty merged ->
    Forall nonEmpty (mergeSegments maxSize raw buffer merged).
Proof.
  induction raw as [|seg raw IH]; intros buffer merged Hm; cbn [mergeSegments].
  - destruct (0 <? len buffer) eqn:E; [|exact Hm].
    apply Forall_app; split; [exact Hm|]. constructor; [|constructor].
    apply Z.ltb_lt in E. exact E.
  - destruct ((maxSize <? len buffer + len seg + 2) && (0 <? len buffer)) eqn:E.
    + apply IH. apply Forall_app; split; [exact Hm|].
      constructor; [|constructor].
      apply andb_prop in E as [_ E]. apply Z.ltb_lt in E. exact E.
    + apply IH. exact Hm.
Qed.

Lemma splitIntoSegments_nonEmpty (text : str) (maxSize : Z) :
  Forall nonEmpty (splitIntoSegments text maxSize).
Proof. apply mergeSegments_nonEmpty. constructor. Qed.

Lemma overlapLoop_length (overlap : Z) (rest : list str) :
  forall prev, length (overlapLoop overlap prev rest) = length rest.
Proof.
  induction rest as [|seg rest IH]; intros prev; cbn; [reflexivity|].
  rewrite IH. reflexivity.
Qed.

Lemma applyOverlap_length (segments : list str) (overlap : Z) :
  length (applyOverlap segments overlap) = length segments.
Proof.
  unfold applyOverlap.
  destruct ((overlap <=? 0) || (length segments <=? 1)%nat); [reflexivity|].
  destruct segments as [|first rest]; [reflexivity|].
  cbn. rewrite overlapLoop_length. reflexivity.
Qed.

Lemma searchCursor_step (text : str) (segments : list str) :
  forall i searchFrom canonical,
    nth_error segments i = Some canonical ->
    searchCursor text segments (S i) searchFrom =
      let cur := searchCursor text segments i searchFrom in
      let start := indexOf text canonical cur in
      if 0 <=? start then start + 1 else cur.
Proof.
  induction segments as [|seg segments IH]; intros i sf canonical H.
  - destruct i; discriminate.
  - destruct i as [|i].
    + cbn in H. injection H as ->. cbn. destruct segments; reflexivity.
    + cbn [nth_error] in H. cbn [searchCursor].
      change (searchCursor text (seg :: segments) (S (S i)) sf)
        with (searchCursor text segments (S i)
                (if 0 <=? indexOf text seg sf
                 then indexOf text seg sf + 1 else sf)).
      apply IH. exact H.
Qed.

(** The cursor never leaves the document: a located segment is not
    empty, so one past its start is at most its end. *)
Lemma searchCursor_range (text : str) (segments : list str) :
  Forall nonEmpty segments ->
  forall i searchFrom,
    0 <= searchFrom <= len text ->
    0 <= searchCursor text segments i searchFrom <= len text.
Proof.
  induction 1 as [|seg segments Hseg _ IH]; intros i sf Hsf.
  - destruct i; cbn; exact Hsf.
  - destruct i as [|i]; cbn [searchCursor]; [exact Hsf|].
    apply IH. unfold nonEmpty in Hseg.
    destruct (indexOf_range text seg sf) as [E | [H1 H2]].
    + rewrite E. cbn. exact Hsf.
    + destruct (0 <=? indexOf text seg sf) eqn:E; [|exact Hsf].
      apply Z.leb_le in E. lia.
Qed.

Section WithDigest.

Variable sha256 : str -> str.

(** Chunk number [k] of the position loop, read off the loop's inputs. *)
Lemma assignPositions_nth (text : str) :
  forall overlapped segments i0 searchFrom k c,
    length overlapped = length segments ->
    nth_error (assignPositions sha256 text overlapped segments i0 searchFrom) k
      = Some c ->
    exists chunkTxt canonical,
      nth_error overlapped k = Some chunkTxt /\
      nth_error segments k = Some canonical /\
      let cur := searchCursor text segments k searchFrom in
      let found := indexOf text canonical cur in
      index c = (i0 + k)%nat /\
      Chunker.text c = chunkTxt /\
      hash c = sha256 chunkTxt /\
      start c = Z.max found 0 /\
      end_ c = (if 0 <=? found then found + len canonical else cur).
Proof.
  induction overlapped as [|chunkTxt overlapped IH];
    intros segments i0 sf k c Hlen H.
  - destruct k; discriminate.
  - destruct segments as [|canonical segments]; [discriminate|].
    cbn [assignPositions] in H. destruct k as [|k].
    + cbn in H. injection H as <-. exists chunkTxt, canonical. cbn.
      repeat split; try reflexivity. lia.
    + cbn [nth_error] in H. apply IH in H; [|cbn in Hlen; lia].
      destruct H as (t & s & Ht & Hs & Hi & Hrest).
      exists t, s. cbn [nth_error searchCursor].
      repeat split; try assumption; try apply Hrest. lia.
Qed.

Lemma assignPositions_length (text : str) :
  forall overlapped segments i0 searchFrom,
    length overlapped = length segments ->
    length (assignPositions sha256 text overlapped segments i0 searchFrom)
      = length segments.
Proof.
  induction overlapped as [|t overlapped IH]; intros [|s segments] i0 sf H;
    cbn in *; try lia.
  rewrite IH; lia.
Qed.

End WithDigest.

Lemma sliceFrom_last (s : str) (n : Z) :
  0 < n -> sliceFrom s (- n) = lastChars (Z.to_nat n) s.
Proof.
  intros Hn. unfold sliceFrom, slice, relIndex, lastChars.
  destruct (- n <? 0) eqn:E1; [|apply Z.ltb_ge in E1; lia].
  destruct (Z.of_nat (length s) <? 0) eqn:E2; [apply Z.ltb_lt in E2; lia|].
  rewrite Z.min_id.
  replace (Z.to_nat (Z.max (Z.of_nat (length s) + - n) 0))
    with (length s - Z.to_nat n)%nat by lia.
  apply firstn_all2. rewrite length_skipn. lia.
Qed.

Lemma sliceFrom_skipn (s : str) (k : nat) :
  sliceFrom s (Z.of_nat k) = skipn k s.
Proof.
  unfold sliceFrom, slice, relIndex.
  destruct (Z.of_nat k <? 0) eqn:E1; [apply Z.ltb_lt in E1; lia|].
  destruct (Z.of_nat (length s) <? 0) eqn:E2; [apply Z.ltb_lt in E2; lia|].
  rewrite Z.min_id.
  destruct (Nat.le_gt_cases k (length s)) as [Hk | Hk].
  - replace (Z.to_nat (Z.min (Z.of_nat k) (Z.of_nat (length s)))) with k by lia.
    apply firstn_all2. rewrite length_skipn. lia.
  - replace (Z.to_nat (Z.min (Z.of_nat k) (Z.of_nat (length s))))
      with (length s) by lia.
    rewrite skipn_all. rewrite skipn_all2 by lia. destruct (Z.to_nat _); reflexivity.
Qed.

(** Where [indexOf] finds the first space. *)
Lemma indexOfFrom_space (w r : str) (pos : Z) :
  ~ In sp w -> indexOfFrom [sp] (w ++ sp :: r) pos = pos + len w.
Proof.
  revert pos; induction w as [|c w IH]; intros pos Hw.
  - cbn. unfold len; cbn. lia.
  - cbn [app indexOfFrom startsWith].
    destruct (Ascii.eqb sp c) eqn:E.
    + apply Ascii.eqb_eq in E. exfalso. apply Hw. left. symmetry. exact E.
    + rewrite IH by (intros H; apply Hw; right; exact H).
      rewrite len_cons. lia.
Qed.

Lemma indexOfFrom_no_space (s : str) (pos : Z) :
  ~ In sp s -> indexOfFrom [sp] s pos = -1.
Proof.
  revert pos; induction s as [|c s IH]; intros pos Hs; [reflexivity|].
  cbn [indexOfFrom startsWith].
  destruct (Ascii.eqb sp c) eqn:E.
  - apply Ascii.eqb_eq in E. exfalso. apply Hs. left. symmetry. exact E.
  - apply IH. intros H; apply Hs; right; exact H.
Qed.

Lemma indexOf_zero (s needle : str) :
  indexOf s needle 0 = indexOfFrom needle s 0.
Proof.
  unfold indexOf. pose proof (len_nonneg s).
  replace (Z.min (Z.max 0 0) (len s)) with 0 by lia. reflexivity.
Qed.

(** Every string either has no space or splits at its first one. *)
Lemma first_space (s : str) :
  ~ In sp s \/ exists w r, s = w ++ sp :: r /\ ~ In sp w.
Proof.
  induction s as [|c s IH]; [left; intros []|].
  destruct (ascii_dec c sp) as [-> | Hc].
  - right. exists [], s. split; [reflexivity | intros []].
  - destruct IH as [IH | (w & r & -> & Hw)].
    + left. intros [H | H]; [exact (Hc H) | exact (IH H)].
    + right. exists (c :: w), r. split; [reflexivity|].
      intros [H | H]; [exact (Hc H) | exact (Hw H)].
Qed.

Lemma skipn_behind (w r : str) (c : ascii) :
  skipn (S (length w)) (w ++ c :: r) = r.
Proof. induction w as [|x w IH]; [reflexivity | exact IH]. Qed.

Lemma cleanOverlap_wordTrimmed (prev : str) (overlap : Z) :
  0 < overlap ->
  wordTrimmed (lastChars (Z.to_nat overlap) prev) (cleanOverlap prev overlap).
Proof.
  intros Hov. unfold cleanOverlap. rewrite sliceFrom_last by exact Hov.
  set (window := lastChars (Z.to_nat overlap) prev).
  rewrite indexOf_zero.
  destruct (first_space window) as [Hno | (w & r & Hsplit & Hw)].
  - rewrite indexOfFrom_no_space by exact Hno. cbn.
    apply trimmed_no_space. exact Hno.
  - rewrite Hsplit. rewrite indexOfFrom_space by exact Hw.
    destruct w as [|c w].
    + cbn. apply trimmed_leading_space.
    + rewrite len_cons. pose proof (len_nonneg w) as Hl.
      destruct (0 <? 0 + (1 + len w)) eqn:E; [|apply Z.ltb_ge in E; lia].
      replace (0 + (1 + len w) + 1) with (Z.of_nat (S (length (c :: w))))
        by (unfold len; cbn [length]; lia).
      rewrite sliceFrom_skipn, skipn_behind.
      apply trimmed_behind_fragment; [discriminate | exact Hw].
Qed.

Lemma overlapLoop_nth (overlap : Z) (rest : list str) :
  forall prev j t,
    nth_error (overlapLoop overlap prev rest) j = Some t ->
    exists before canonical,
      nth_error (prev :: rest) j = Some before /\
      nth_error rest j = Some canonical /\
      t = cleanOverlap before overlap ++ [sp] ++ canonical.
Proof.
  induction rest as [|seg rest IH]; intros prev j t H.
  - destruct j; discriminate.
  - destruct j as [|j]; cbn in H.
    + injection H as <-. exists prev, seg. repeat split; reflexivity.
    + apply IH in H. destruct H as (b & c & Hb & Hc & ->).
      exists b, c. repeat split; assumption.
Qed.

End ChunkerFacts.

(* ================================================================== *)
(** ** Chunker: the claims                                             *)
(* ================================================================== *)

Module ChunkerClaims.
Import JsFacts Chunker ChunkerNotions ChunkerFacts Scenario.

(** C9. For the text of scenario S1 and the options [{maxChunkSize: 50,
    overlap: 0}], [chunkText] returns exactly one chunk: its text is the
    whole input, its range is [0, 22), and its hash is the digest of its
    text.  (The chunk carries index 0 and no section fields.) *)
Theorem chunkText_S1 (sha256 : str -> str) :
  chunkText sha256 (lit "A paragraph." ++ [nl; nl] ++ lit "Another.")
    (mkChunkOptions (Some 50) (Some 0))
  = [mkChunk 0 (lit "A paragraph." ++ [nl; nl] ++ lit "Another.") 0 22
       (sha256 (lit "A paragraph." ++ [nl; nl] ++ lit "Another."))
       None None None].
Proof. reflexivity. Qed.

(** C8, as the code has it. With a positive overlap, the first chunk's
    text is the first canonical segment unchanged, and the text of every
    later chunk is a prefix, one space, and the chunk's canonical
    segment; the prefix is the last [overlap] characters of the previous
    canonical segment, cut behind their first space when a word fragment
    precedes that space, and kept whole when they contain no space or
    start with one. *)
Theorem chunkText_overlap_prefix (sha256 : str -> str) (text : str)
    (options : ChunkOptions) (i : nat) (c : Chunk) :
  0 < resolveOverlap options ->
  nth_error (chunkText sha256 text options) i = Some c ->
  match i with
  | O =>
      nth_error (splitIntoSegments text (resolveMaxChunkSize options)) 0
        = Some (Chunker.text c)
  | S j =>
      exists prev canonical prefix,
        nth_error (splitIntoSegments text (resolveMaxChunkSize options)) j
          = Some prev /\
        nth_error (splitIntoSegments text (resolveMaxChunkSize options)) (S j)
          = Some canonical /\
        wordTrimmed (lastChars (Z.to_nat (resolveOverlap options)) prev)
          prefix /\
        Chunker.text c = prefix ++ [sp] ++ canonical
  end.
Proof.
  intros Hov H. unfold chunkText in H.
  set (segments := splitIntoSegments text (resolveMaxChunkSize options)) in *.
  apply assignPositions_nth in H; [|apply applyOverlap_length].
  destruct H as (chunkTxt & canonical & Ht & Hs & _ & Htext & _).
  rewrite Htext. clear Htext c.
  unfold applyOverlap in Ht.
  destruct (resolveOverlap options <=? 0) eqn:E1.
  { apply Z.leb_le in E1. lia. }
  cbn [orb] in Ht.
  destruct segments as [|first rest]; [destruct i; discriminate|].
  destruct ((length (first :: rest) <=? 1)%nat) eqn:E2.
  - apply Nat.leb_le in E2. destruct rest; [|cbn in E2; lia].
    destruct i as [|[|j]]; cbn in Ht, Hs; try discriminate. exact Ht.
  - destruct i as [|j]; [exact Ht|]. cbn [nth_error] in Ht, Hs.
    apply overlapLoop_nth in Ht. destruct Ht as (b & k & Hb & Hk & ->).
    exists b, k, (cleanOverlap b (resolveOverlap options)).
    repeat split; try assumption.
    apply cleanOverlap_wordTrimmed. exact Hov.
Qed.

Lemma chunkText_overlap_prefix_witness :
  0 < resolveOverlap lap_options /\
  nth_error (chunkText Sha256.sha256 lap_text lap_options) 1
    = Some (mkChunk 1 (lit " cd. ef.") 8 11
              (Sha256.sha256 (lit " cd. ef.")) None None None) /\
  exists prev canonical prefix,
    nth_error (splitIntoSegments lap_text (resolveMaxChunkSize lap_options)) 0
      = Some prev /\
    nth_error (splitIntoSegments lap_text (resolveMaxChunkSize lap_options)) 1
      = Some canonical /\
    wordTrimmed (lastChars (Z.to_nat (resolveOverlap lap_options)) prev)
      prefix /\
    lit " cd. ef." = prefix ++ [sp] ++ canonical.
Proof.
  assert (Hov : 0 < resolveOverlap lap_options) by reflexivity.
  assert (H : nth_error (chunkText Sha256.sha256 lap_text lap_options) 1
              = Some (mkChunk 1 (lit " cd. ef.") 8 11
                        (Sha256.sha256 (lit " cd. ef.")) None None None))
    by (vm_compute; reflexivity).
  split; [exact Hov|]. split; [exact H|].
  exact (chunkText_overlap_prefix Sha256.sha256 lap_text lap_options 1 _ Hov H).
Defined.

(** C8, as stated, fails: the window [" cd."] taken from ["ab cd."]
    starts with a space, the rule of the specification keeps ["cd."], and
    the chunk text keeps the window with its space. *)
Lemma overlap_window_starting_with_space :
  exists c,
    nth_error (chunkText Sha256.sha256 lap_text lap_options) 1 = Some c /\
    nth_error (splitIntoSegments lap_text 6) 0 = Some (lit "ab cd.") /\
    nth_error (splitIntoSegments lap_text 6) 1 = Some (lit "ef.") /\
    overlapBySpec (lit "ab cd.") 4 = lit "cd." /\
    Chunker.text c = lit " cd. ef." /\
    Chunker.text c <> overlapBySpec (lit "ab cd.") 4 ++ [sp] ++ lit "ef.".
Proof.
  eexists. split; [vm_compute; reflexivity|].
  repeat split; try reflexivity. discriminate.
Qed.

(** C5, as the code has it. Every chunk of [chunkText] has
    [0 <= start <= end <= len(text)].  Its canonical segment is searched
    from the cursor (one past the start of the last segment located
    before it, or 0): when found, [start] is the match and [end] its
    end; when not, [start] is clamped to 0 and [end] is the cursor.  The
    next chunk, if any, starts no earlier than this one unless its own
    canonical segment is not found, in which case it starts at 0. *)
Theorem chunkText_offsets (sha256 : str -> str) (text : str)
    (options : ChunkOptions) (i : nat) (c : Chunk) :
  nth_error (chunkText sha256 text options) i = Some c ->
  (0 <= start c <= end_ c /\ end_ c <= len text) /\
  (exists canonical,
     nth_error (splitIntoSegments text (resolveMaxChunkSize options)) i
       = Some canonical /\
     ((0 <= indexOf text canonical
              (searchCursor text
                 (splitIntoSegments text (resolveMaxChunkSize options)) i 0) /\
       start c =
         indexOf text canonical
           (searchCursor text
              (splitIntoSegments text (resolveMaxChunkSize options)) i 0) /\
       end_ c = start c + len canonical)
      \/
      (indexOf text canonical
         (searchCursor text
            (splitIntoSegments text (resolveMaxChunkSize options)) i 0) = -1 /\
       start c = 0 /\
       end_ c =
         searchCursor text
           (splitIntoSegments text (resolveMaxChunkSize options)) i 0))) /\
  match nth_error (chunkText sha256 text options) (S i) with
  | Some next =>
      start c <= start next \/
      (start next = 0 /\
       exists canonical,
         nth_error (splitIntoSegments text (resolveMaxChunkSize options)) (S i)
           = Some canonical /\
         indexOf text canonical
           (searchCursor text
              (splitIntoSegments text (resolveMaxChunkSize options)) (S i) 0)
           = -1)
  | None => True
  end.
Proof.
  intros H. unfold chunkText in *.
  set (segments := splitIntoSegments text (resolveMaxChunkSize options)) in *.
  set (overlapped := applyOverlap segments (resolveOverlap options)) in *.
  assert (Hlen : length overlapped = length segments)
    by apply applyOverlap_length.
  assert (Hne : Forall nonEmpty segments) by apply splitIntoSegments_nonEmpty.
  pose proof (len_nonneg text) as Htext.
  apply assignPositions_nth in H; [|exact Hlen].
  destruct H as (t & canonical & _ & Hs & _ & _ & _ & Hstart & Hend).
  pose proof (searchCursor_range text segments Hne i 0 ltac:(lia)) as Hcur.
  pose proof (searchCursor_step text segments i 0 canonical Hs) as Hstep.
  cbv zeta in Hstep, Hstart, Hend.
  set (cur := searchCursor text segments i 0) in *.
  set (found := indexOf text canonical cur) in *.
  pose proof (len_nonneg canonical) as Hcan.
  assert (Hfound : found = -1 \/ (cur <= found /\ found + len canonical <= len text)).
  { destruct (indexOf_range text canonical cur) as [E | [E1 E2]];
      [left; exact E | right]. fold found in E1, E2. lia. }
  assert (Hcase :
    (0 <= found /\ start c = found /\ end_ c = start c + len canonical) \/
    (found = -1 /\ start c = 0 /\ end_ c = cur)).
  { destruct Hfound as [E | [E1 E2]].
    - right. rewrite E in Hstart, Hend. cbn in Hstart, Hend. auto.
    - left. destruct (0 <=? found) eqn:E; [|apply Z.leb_gt in E; lia].
      lia. }
  split; [|split].
  - destruct Hcase as [(? & ? & ?) | (? & ? & ?)]; lia.
  - exists canonical. split; [exact Hs | exact Hcase].
  - destruct (nth_error (assignPositions sha256 text overlapped segments 0 0) (S i))
      as [next|] eqn:Hn; [|exact I].
    apply assignPositions_nth in Hn; [|exact Hlen].
    destruct Hn as (t' & canonical' & _ & Hs' & _ & _ & _ & Hstart' & _).
    cbv zeta in Hstart'.
    set (cur' := searchCursor text segments (S i) 0) in *.
    set (found' := indexOf text canonical' cur') in *.
    pose proof (searchCursor_range text segments Hne (S i) 0 ltac:(lia)) as Hcur'.
    fold cur' in Hcur'.
    destruct (indexOf_range text canonical' cur') as [E | [E1 E2]].
    + right. fold found' in E. rewrite E in Hstart'. split; [exact Hstart'|].
      exists canonical'. split; [exact Hs' | exact E].
    + left. fold found' in E1. rewrite Hstart'.
      destruct Hcase as [(F1 & F2 & _) | (F1 & F2 & _)].
      * destruct (0 <=? found) eqn:E; [|apply Z.leb_gt in E; lia]. lia.
      * lia.
Qed.

Lemma chunkText_offsets_witness :
  nth_error (chunkText Sha256.sha256 gap_text gap_options) 0
    = Some (mkChunk 0 (lit "AAAA.") 1 6 (Sha256.sha256 (lit "AAAA."))
              None None None) /\
  (0 <= 1 <= 6 /\ 6 <= len gap_text).
Proof.
  assert (H : nth_error (chunkText Sha256.sha256 gap_text gap_options) 0
              = Some (mkChunk 0 (lit "AAAA.") 1 6
                        (Sha256.sha256 (lit "AAAA.")) None None None))
    by (vm_compute; reflexivity).
  split; [exact H|].
  exact (proj1 (chunkText_offsets Sha256.sha256 gap_text gap_options 0 _ H)).
Defined.

(** C5, as stated, fails in its ordering part: in [gap_text] the second
    canonical segment joins "B." and "C." with two newlines, the
    document has three, so the segment is not found and its chunk starts
    at 0, behind a first chunk that starts at 1. *)
Lemma chunk_starts_not_monotone :
  exists c0 c1,
    nth_error (chunkText Sha256.sha256 gap_text gap_options) 0 = Some c0 /\
    nth_error (chunkText Sha256.sha256 gap_text gap_options) 1 = Some c1 /\
    start c0 = 1 /\ start c1 = 0 /\ ~ start c0 <= start c1.
Proof.
  do 2 eexists. split; [vm_compute; reflexivity|].
  split; [vm_compute; reflexivity|].
  cbn. repeat split. lia.
Qed.

End ChunkerClaims.

(* ================================================================== *)
(** ** The empty document                                              *)
(* ================================================================== *)

Module EmptyDocument.
Import Hierarchy Chunker HierarchyNotions Scenario.

Lemma extractSentences_empty (maxSentences : Z) :
  extractSentences [] maxSentences = [].
Proof.
  unfold extractSentences, slice, relIndex. cbn.
  destruct (maxSentences <? 0);
    match goal with |- context [firstn ?n _] => destruct n as [|[|m]] end;
    reflexivity.
Qed.

Lemma chunkText_empty (sha256 : str -> str) (options : ChunkOptions) :
  chunkText sha256 [] options = [].
Proof.
  unfold chunkText, splitIntoSegments, applyOverlap. cbn.
  destruct (resolveOverlap options <=? 0); reflexivity.
Qed.

(** C7, as the code has it. For the empty text, [analyzeText] counts no
    word and [chunkText] returns no chunk.  [extractHierarchy] detects
    no heading and falls back to one synthetic section "Section 1 of 1"
    covering [0, 0): [headings] is that one node, the outline is its line
    "1. Section 1 of 1" (empty only when [maxOutlineDepth] is below 1),
    the document summary is the empty string, and there is one section
    summary whose text is empty.  The strategy is [positional] when no
    embedder is passed and [embedding-similarity] when one is; no
    external call is made in either case. *)
Theorem empty_document (sha256 : str -> str) {Vec Num St : Type}
    (topicShift : option Num -> list Vec -> nat -> bool) (env : Env Vec)
    (chunking : ChunkOptions) (options : HierarchyOptions Num)
    (s : St) (log : list (Event Vec)) :
  totalWords (analyzeText []) = 0%nat /\
  chunkText sha256 [] chunking = [] /\
  extractHeadings [] = [] /\
  extractHierarchy topicShift env [] None options s log =
    (s, log,
     Ok (mkMap [onlySection] (onlyOutline options) [] [onlySummary]
           positional)) /\
  extractHierarchy topicShift env [] (Some TheEmbedder) options s log =
    (s, log,
     Ok (mkMap [onlySection] (onlyOutline options) [] [onlySummary]
           embedding_similarity)).
Proof.
  split; [reflexivity|]. split; [apply chunkText_empty|].
  split; [reflexivity|].
  assert (Hout : generateOutline [onlySection]
                   (withDefault 6 (maxOutlineDepth options))
                 = onlyOutline options).
  { unfold generateOutline, onlyOutline. cbn.
    destruct (withDefault 6 (maxOutlineDepth options) <? 1); reflexivity. }
  assert (Hsum : generateSectionSummaries [] [onlySection]
                   (withDefault 1 (sectionSummaryMaxSentences options))
                 = [onlySummary]).
  { unfold generateSectionSummaries, onlySummary. cbn [map].
    change (slice [] (startOffset onlySection) (endOffset onlySection))
      with (@nil ascii).
    rewrite extractSentences_empty. reflexivity. }
  split.
  - unfold extractHierarchy, bind, ret. cbn [extractHeadings].
    change (extractHeadings []) with (@nil FlatHeading.t). cbv iota beta.
    change (positionalSections [] 5) with [onlySection].
    change (flattenTopLevel [onlySection]) with [onlySection].
    rewrite Hout, Hsum. unfold generateDocSummary.
    rewrite extractSentences_empty. reflexivity.
  - unfold extractHierarchy, detectSectionsByEmbedding, bind, ret.
    change (extractHeadings []) with (@nil FlatHeading.t). cbv iota beta.
    change (splitParagraphs []) with (@nil Paragraph.t). cbn [length Nat.leb].
    change (len []) with 0.
    change (mkNode 1 (lit "Section 1 of 1") 0 0 []) with onlySection.
    change (flattenTopLevel [onlySection]) with [onlySection].
    rewrite Hout, Hsum. unfold generateDocSummary.
    rewrite extractSentences_empty. reflexivity.
Qed.

(** C7, as stated, fails: the hierarchy of the empty document has one
    heading node and a one-line outline, not none. *)
Lemma empty_document_has_a_section :
  exists h,
    extractHierarchy noShift quiet [] None defaults tt [] = (tt, [], Ok h) /\
    headings h = [mkNode 1 (lit "Section 1 of 1") 0 0 []] /\
    headings h <> [] /\
    outline h = lit "1. Section 1 of 1" /\
    outline h <> [] /\
    sectionSummaries h <> [].
Proof.
  eexists. split; [vm_compute; reflexivity|].
  cbn. repeat split; try reflexivity; discriminate.
Qed.

End EmptyDocument.

(* ================================================================== *)
(** ** summarizeDocument                                               *)
(* ================================================================== *)

Module SummarizeClaims.
Import Chunker Summarize RunNotions Scenario.

Lemma collected_blank {Vec} (evs : list (Event Vec)) :
  Forall blank evs -> collected evs = [].
Proof.
  induction 1 as [|e evs He _ IH]; [reflexivity|].
  unfold collected in *. cbn [flat_map]. rewrite IH, app_nil_r.
  destruct e as [| | |[] content [response|]]; cbn in *;
    try reflexivity; try contradiction.
  rewrite He. reflexivity.
Qed.

Section Agent.

Context {Vec St : Type}.
Variable env : Env Vec.

Lemma mapPhase_run (chunks : list Chunk) :
  forall (chunkSummaries : list str) (s : St) (log : list (Event Vec)),
  exists evs,
    Forall2 mapCall evs chunks /\
    mapPhase env chunks chunkSummaries s log
      = (s, log ++ evs, Ok (chunkSummaries ++ collected evs)).
Proof.
  induction chunks as [|chunk rest IH]; intros acc s log.
  - exists []. split; [constructor|]. cbn. unfold ret.
    rewrite !app_nil_r. reflexivity.
  - cbn [mapPhase]. unfold bind at 1. unfold tryCatch, bind, generate, await, ret.
    destruct (onGenerate env log MAP_PROMPT (Chunker.text chunk))
      as [response|] eqn:E.
    + cbv zeta. destruct (trim response) as [|c0 t] eqn:Et.
      * destruct (IH acc s (log ++ [Generate MAP_PROMPT (Chunker.text chunk) (Some response)]))
          as (evs & Hcalls & Hrun).
        exists (Generate MAP_PROMPT (Chunker.text chunk) (Some response) :: evs).
        split; [constructor; [eexists; reflexivity | exact Hcalls]|].
        etransitivity; [exact Hrun|]. unfold collected. cbn [flat_map kept]. rewrite Et.
        rewrite <- app_assoc. reflexivity.
      * destruct (IH (acc ++ [c0 :: t]) s
                    (log ++ [Generate MAP_PROMPT (Chunker.text chunk) (Some response)]))
          as (evs & Hcalls & Hrun).
        exists (Generate MAP_PROMPT (Chunker.text chunk) (Some response) :: evs).
        split; [constructor; [eexists; reflexivity | exact Hcalls]|].
        etransitivity; [exact Hrun|]. unfold collected. cbn [flat_map kept]. rewrite Et.
        rewrite <- !app_assoc. reflexivity.
    + destruct (IH acc s (log ++ [Generate MAP_PROMPT (Chunker.text chunk) None]))
        as (evs & Hcalls & Hrun).
      exists (Generate MAP_PROMPT (Chunker.text chunk) None :: evs).
      split; [constructor; [eexists; reflexivity | exact Hcalls]|].
      etransitivity; [exact Hrun|]. unfold collected. cbn [flat_map kept].
      rewrite <- app_assoc. reflexivity.
Qed.

End Agent.

(** C10. On a text of more than one chunk, [summarizeDocument] makes one
    MAP call per chunk, in order, and keeps of their responses the
    trimmed ones that are not empty: a response that trims to the empty
    string is dropped like a rejected call.  When nothing is kept the
    function throws "Failed to generate any chunk summaries" without a
    REDUCE call, which is the case as soon as every MAP call was either
    rejected or answered with white space only; otherwise it makes the
    one REDUCE call on the combined kept summaries. *)
Theorem summarize_blank_map_responses (sha256 : str -> str)
    {Vec St : Type} (env : Env Vec) (text : str) (s : St)
    (log : list (Event Vec)) :
  (1 < length (chunkText sha256 text windows))%nat ->
  exists evs,
    Forall2 mapCall evs (chunkText sha256 text windows) /\
    (Forall blank evs -> collected evs = []) /\
    match collected evs with
    | [] =>
        summarizeDocument sha256 env text s log
          = (s, log ++ evs, Err (Thrown noSummaries))
    | summaries =>
        exists reply,
          summarizeDocument sha256 env text s log
            = (s, log ++ evs ++ [Generate REDUCE_PROMPT (combine summaries) reply],
               match reply with
               | Some response => Ok (trim response)
               | None => Err (Thrown noFinal)
               end)
    end.
Proof.
  intros Hn. unfold summarizeDocument.
  destruct (chunkText sha256 text windows) as [|c0 [|c1 chunks]] eqn:Ec;
    cbn in Hn; try lia.
  destruct (mapPhase_run env (c0 :: c1 :: chunks) [] s log) as (evs & Hcalls & Hrun).
  exists evs. split; [exact Hcalls|]. split; [apply collected_blank|].
  cbn [app] in Hrun.
  destruct (collected evs) as [|k ks].
  - unfold bind at 1. rewrite Hrun. reflexivity.
  - exists (onGenerate env (log ++ evs) REDUCE_PROMPT (combine (k :: ks))).
    unfold bind at 1. rewrite Hrun.
    unfold tryCatch, bind, generate, await, ret, throw.
    destruct (onGenerate env (log ++ evs) REDUCE_PROMPT (combine (k :: ks)));
      rewrite app_assoc; reflexivity.
Qed.

Lemma summarize_blank_map_responses_witness :
  (1 < length (chunkText Sha256.sha256 twoWindows windows))%nat /\
  exists evs : list (Event Z),
    Forall2 mapCall evs (chunkText Sha256.sha256 twoWindows windows) /\
    (Forall blank evs -> collected evs = []).
Proof.
  split; [vm_compute; reflexivity|].
  destruct (summarize_blank_map_responses Sha256.sha256 quiet twoWindows tt [])
    as (evs & Hcalls & Hblank & _).
  - vm_compute; reflexivity.
  - exists evs. split; [exact Hcalls | exact Hblank].
Defined.

(** Every MAP call succeeds and answers with three spaces: the function
    throws after the two MAP calls. *)
Example summarize_all_blank :
  exists e0 e1 : Event Z,
    summarizeDocument Sha256.sha256 quiet twoWindows tt []
      = (tt, [e0; e1], Err (Thrown noSummaries)) /\
    failed e0 = false /\ failed e1 = false.
Proof.
  do 2 eexists. split; [vm_compute; reflexivity|].
  split; reflexivity.
Qed.

End SummarizeClaims.

(* ================================================================== *)
(** ** Runs of the asynchronous code                                   *)
(* ================================================================== *)

Module RunFacts.
Import RunNotions.

Section Clean.

Context {Vec : Type}.
Variable env : Env Vec.

Lemma Clean_ret {St A} (a : A) : Clean (Vec := Vec) (St := St) (ret a).
Proof.
  intros s log. exists [], (Ok a). rewrite app_nil_r. split; reflexivity.
Qed.

Lemma Clean_get {St} : Clean (Vec := Vec) (St := St) get.
Proof.
  intros s log. exists [], (Ok s). rewrite app_nil_r. split; reflexivity.
Qed.

Lemma Clean_await {St A} (e : option A -> Event Vec)
    (reply : list (Event Vec) -> option A) :
  (forall r, failed (e r) = match r with None => true | Some _ => false end) ->
  Clean (Vec := Vec) (St := St) (fun s log => await e (reply log) s log).
Proof.
  intros He s log. unfold await.
  exists [e (reply log)],
    (match reply log with Some a => Ok a | None => Err Rejected end).
  split; [reflexivity|]. cbn. rewrite He, orb_false_r.
  destruct (reply log); reflexivity.
Qed.

Lemma Clean_embedBatch {St} (texts : list str) :
  Clean (Vec := Vec) (St := St) (embedBatch env texts).
Proof.
  apply (Clean_await (EmbedBatch texts) (fun log => onEmbedBatch env log texts)).
  intros []; reflexivity.
Qed.

Lemma Clean_vdbInsert {St} (records : list (ChunkRecord Vec)) :
  Clean (Vec := Vec) (St := St) (vdbInsert env records).
Proof.
  apply (Clean_await (Insert records) (fun log => onInsert env log records)).
  intros []; reflexivity.
Qed.

Lemma Clean_vdbReset {St} : Clean (Vec := Vec) (St := St) (vdbReset env).
Proof.
  apply (Clean_await Reset (fun log => onReset env log)).
  intros []; reflexivity.
Qed.

Lemma Clean_bind {St A B} (c : M Vec St A) (k : A -> M Vec St B) :
  Clean c -> (forall a, Clean (k a)) -> Clean (bind c k).
Proof.
  intros Hc Hk s log. unfold bind.
  destruct (Hc s log) as (e1 & r1 & -> & F1).
  destruct r1 as [a | e].
  - destruct (Hk a s (log ++ e1)) as (e2 & r2 & -> & F2).
    exists (e1 ++ e2), r2. rewrite app_assoc. split; [reflexivity|].
    rewrite existsb_app, F1, F2. reflexivity.
  - exists e1, (Err e). split; [reflexivity | exact F1].
Qed.

End Clean.

Create HintDb clean.

#[export] Hint Resolve Clean_ret Clean_get Clean_embedBatch Clean_vdbInsert
  Clean_vdbReset : clean.

Ltac clean :=
  repeat first
    [ apply Clean_bind; [|intros ?]
    | solve [auto with clean]
    | match goal with
      | |- Clean (match ?x with _ => _ end) => destruct x
      | |- Clean (if ?x then _ else _) => destruct x
      end ].

End RunFacts.

(* ================================================================== *)
(** ** The sync manager                                                *)
(* ================================================================== *)

Module DocSyncFacts.
Import Hierarchy Chunker DocSync RunNotions SyncNotions RunFacts.

Lemma str_eqb_eq (a b : str) : str_eqb a b = true <-> a = b.
Proof.
  unfold str_eqb. destruct (list_eq_dec ascii_dec a b); split;
    intros H; try reflexivity; try assumption; try discriminate; contradiction.
Qed.

Lemma has_In (set : list str) (h : str) : has set h = true <-> In h set.
Proof.
  unfold has. rewrite existsb_exists. split.
  - intros (x & Hx & E). apply str_eqb_eq in E. subst x. exact Hx.
  - intros H. exists h. split; [exact H | apply str_eqb_eq; reflexivity].
Qed.

Lemma add_In (set : list str) (x h : str) :
  In h (add set x) <-> In h set \/ h = x.
Proof.
  unfold add. destruct (has set x) eqn:E.
  - apply has_In in E. split; [left; assumption|].
    intros [H | ->]; assumption.
  - rewrite in_app_iff. cbn. split.
    + intros [H | [H | []]]; [left; exact H | right; symmetry; exact H].
    + intros [H | H]; [left; exact H | right; left; symmetry; exact H].
Qed.

Lemma fold_add_In (hashes : list str) :
  forall set h, In h (fold_left add hashes set) <-> In h set \/ In h hashes.
Proof.
  induction hashes as [|x hashes IH]; intros set h; cbn.
  - split; [left; assumption | intros [H | []]; exact H].
  - rewrite IH, add_In. split.
    + intros [[H | H] | H]; auto.
    + intros [H | [H | H]]; auto.
Qed.

Lemma setOf_In (hashes : list str) (h : str) :
  In h (setOf hashes) <-> In h hashes.
Proof.
  unfold setOf. rewrite fold_add_In. cbn. split; [intros [[] | H] | right]; assumption.
Qed.

(** Nothing is stale when every stored hash is a current one. *)
Lemma nothing_stale (stored hashes : list str) :
  (forall h, In h stored -> In h hashes) ->
  filter (fun h => negb (has (setOf hashes) h)) stored = [].
Proof.
  intros H. induction stored as [|x stored IH]; [reflexivity|].
  cbn. assert (E : has (setOf hashes) x = true).
  { apply has_In, setOf_In, H. left. reflexivity. }
  rewrite E. cbn. apply IH. intros h Hh. apply H. right. exact Hh.
Qed.

Lemma partition_Permutation {A} (p : A -> bool) (l : list A) :
  Permutation l (filter (fun x => negb (p x)) l ++ filter p l).
Proof.
  induction l as [|x l IH]; [constructor|].
  cbn. destruct (p x); cbn.
  - apply Permutation_cons_app. exact IH.
  - constructor. exact IH.
Qed.

Section Sync.

Context {Vec Num : Type}.
Variable sha256 : str -> str.
Variable topicShift : option Num -> list Vec -> nat -> bool.
Variable env : Env Vec.

Lemma Clean_detectSections {St} (text : str) (options : HierarchyOptions Num) :
  Clean (Vec := Vec) (St := St) (detectSectionsByEmbedding topicShift env text options).
Proof. unfold detectSectionsByEmbedding. clean. Qed.

Lemma Clean_extractHierarchy {St} (text : str) (embedder : option Embedder)
    (options : HierarchyOptions Num) :
  Clean (Vec := Vec) (St := St) (extractHierarchy topicShift env text embedder options).
Proof.
  unfold extractHierarchy. pose proof (@Clean_detectSections St).
  clean; auto.
Qed.

Lemma extractHierarchy_calls {St} (text : str) (embedder : option Embedder)
    (options : HierarchyOptions Num) (s s' : St)
    (log log' : list (Event Vec)) (r : Result HierarchyMap) :
  extractHierarchy topicShift env text embedder options s log = (s', log', r) ->
  exists evs, log' = log ++ evs /\ hierarchyCalls text evs.
Proof.
  unfold extractHierarchy, detectSectionsByEmbedding, bind, ret, embedBatch, await.
  destruct (extractHeadings text) as [|h0 hs] eqn:Eh.
  - destruct embedder as [e|].
    + destruct ((length (splitParagraphs text) <=? 1)%nat) eqn:El.
      * intros H. injection H as <- <- <-. exists []. rewrite app_nil_r.
        split; [reflexivity | left; reflexivity].
      * apply Nat.leb_gt in El.
        destruct (onEmbedBatch env log (map Paragraph.text (splitParagraphs text)))
          as [vs|] eqn:Er;
          intros H; injection H as <- <- <-;
          eexists; (split; [reflexivity|]); right; eexists;
          (split; [reflexivity|]); (split; [exact Eh | exact El]).
    + intros H. injection H as <- <- <-. exists []. rewrite app_nil_r.
      split; [reflexivity | left; reflexivity].
  - intros H. injection H as <- <- <-. exists []. rewrite app_nil_r.
    split; [reflexivity | left; reflexivity].
Qed.

Lemma extractHierarchy_embeds {St} (text : str) (e : Embedder)
    (options : HierarchyOptions Num) (s s' : St)
    (log log' : list (Event Vec)) (r : Result HierarchyMap) :
  extractHierarchy topicShift env text (Some e) options s log = (s', log', r) ->
  extractHeadings text = [] ->
  (1 < length (splitParagraphs text))%nat ->
  exists reply,
    log' = log ++ [EmbedBatch (map Paragraph.text (splitParagraphs text)) reply].
Proof.
  unfold extractHierarchy, detectSectionsByEmbedding, bind, ret, embedBatch, await.
  intros H Eh El. rewrite Eh in H.
  apply Nat.leb_gt in El. rewrite El in H.
  destruct (onEmbedBatch env log (map Paragraph.text (splitParagraphs text)))
    as [vs|] eqn:Er;
    injection H as <- <- <-; eexists; reflexivity.
Qed.

Lemma Clean_embedAndInsert (chunks : list Chunk) :
  Clean (embedAndInsert env chunks).
Proof. unfold embedAndInsert. clean. Qed.

Lemma Clean_fullResync (allChunks : list Chunk) :
  Clean (fullResync env allChunks).
Proof. unfold fullResync. clean. Qed.

Lemma Clean_diffStep (allChunks : list Chunk) (toDelete : list str)
    (toInsert : list Chunk) :
  Clean (diffStep env allChunks toDelete toInsert).
Proof.
  unfold diffStep.
  destruct toDelete; [destruct toInsert|];
    auto using Clean_ret, Clean_embedAndInsert, Clean_fullResync.
Qed.

(** [syncIfNeeded], one stage after the other. *)
Lemma syncIfNeeded_stages (text : str) (options : Options Num)
    (m : Manager) (log : list (Event Vec)) :
  syncIfNeeded sha256 topicShift env text options m log =
    if sameHash (sha256 text) (lastDocHash m) then (m, log, Ok false)
    else
      match extractHierarchy topicShift env text (Some TheEmbedder)
              (structure options) m log with
      | (m0, log0, Err e) => (m0, log0, Err e)
      | (m0, log0, Ok h) =>
          let chunks := chunkWithHierarchy sha256 text h (chunking options) in
          match diffStep env chunks (staleOf m chunks) (newOf m chunks)
                  (mkManager (lastDocHash m) (storedHashes m) (Some h)) log0 with
          | (m2, log2, Err e) => (m2, log2, Err e)
          | (m2, log2, Ok _) =>
              (mkManager (Some (sha256 text)) (setOf (map hash chunks)) (Some h),
               log2, Ok true)
          end
      end.
Proof.
  unfold syncIfNeeded, hashDocument, bind at 1, get.
  destruct (sameHash (sha256 text) (lastDocHash m)); [reflexivity|].
  unfold bind at 1.
  destruct (extractHierarchy topicShift env text (Some TheEmbedder)
              (structure options) m log) as [[m0 log0] [h|e]]; [|reflexivity].
  unfold bind at 1, put at 1. unfold bind at 1.
  fold (staleOf m (chunkWithHierarchy sha256 text h (chunking options))).
  fold (newOf m (chunkWithHierarchy sha256 text h (chunking options))).
  cbv zeta.
  change (match staleOf m (chunkWithHierarchy sha256 text h (chunking options)) with
          | [] =>
              match newOf m (chunkWithHierarchy sha256 text h (chunking options)) with
              | [] => ret tt
              | _ :: _ =>
                  embedAndInsert env
                    (newOf m (chunkWithHierarchy sha256 text h (chunking options)))
              end
          | _ :: _ =>
              fullResync env (chunkWithHierarchy sha256 text h (chunking options))
          end)
    with (diffStep env (chunkWithHierarchy sha256 text h (chunking options))
            (staleOf m (chunkWithHierarchy sha256 text h (chunking options)))
            (newOf m (chunkWithHierarchy sha256 text h (chunking options)))).
  destruct (diffStep env _ _ _ _ log0) as [[m2 log2] [u|e]]; reflexivity.
Qed.

Lemma embedAndInsert_run (chunks : list Chunk) (m : Manager)
    (log : list (Event Vec)) :
  chunks <> [] ->
  exists reply rest r,
    embedAndInsert env chunks m log
      = (m, log ++ EmbedBatch (map Chunker.text chunks) reply :: rest, r) /\
    filter isEmbedBatch rest = [] /\ filter isReset rest = [].
Proof.
  intros Hne. unfold embedAndInsert.
  destruct chunks as [|c0 chunks]; [contradiction|].
  unfold bind, embedBatch, vdbInsert, await.
  destruct (onEmbedBatch env log (map Chunker.text (c0 :: chunks))) as [vs|].
  - eexists (Some vs), [_], _. rewrite <- app_assoc. cbn [app].
    split; [reflexivity|]. split; reflexivity.
  - exists None, [], (Err Rejected). repeat split.
Qed.

Lemma fullResync_ok (allChunks : list Chunk) (m m' : Manager)
    (log log' : list (Event Vec)) (u : unit) :
  fullResync env allChunks m log = (m', log', Ok u) ->
  exists newVectors existingVectors,
    log' = log
      ++ embedsOf (newOf m allChunks) (Some newVectors)
      ++ embedsOf (keptOf m allChunks) (Some existingVectors)
      ++ [Reset (Some tt)]
      ++ insertOf (toRecords (newOf m allChunks) newVectors 0
                     ++ toRecords (keptOf m allChunks) existingVectors 0)
                  (Some tt).
Proof.
  unfold fullResync, bind at 1, get.
  fold (newOf m allChunks). fold (keptOf m allChunks).
  generalize (newOf m allChunks) as new, (keptOf m allChunks) as old.
  intros new old. unfold bind, ret, embedBatch, vdbReset, vdbInsert, await.
  destruct new as [|n0 new]; destruct old as [|o0 old]; cbn [embedsOf app];
    repeat (cbv beta iota; cbn [toRecords app];
            match goal with
            | |- context [onEmbedBatch env ?l ?t] =>
                destruct (onEmbedBatch env l t) as [?v|]
            | |- context [onReset env ?l] => destruct (onReset env l) as [[]|]
            | |- context [onInsert env ?l ?t] =>
                destruct (onInsert env l t) as [[]|]
            end);
    cbv beta iota; cbn [toRecords app insertOf]; intros H;
    try discriminate;
    injection H as <- <- _;
    rewrite <- ?app_assoc; cbn [app];
    first [ exists [], []; reflexivity
          | eexists _, []; reflexivity
          | eexists [], _; reflexivity
          | eexists _, _; reflexivity ].
Qed.

Lemma toRecords_hashes (chunks : list Chunk) (vectors : list Vec) :
  forall i, map chunkHash (toRecords chunks vectors i) = map hash chunks.
Proof.
  induction chunks as [|c chunks IH]; intros i; cbn; [reflexivity|].
  rewrite IH. reflexivity.
Qed.

Lemma toRecords_texts (chunks : list Chunk) (vectors : list Vec) :
  forall i, map Runtime.text (toRecords chunks vectors i) = map Chunker.text chunks.
Proof.
  induction chunks as [|c chunks IH]; intros i; cbn; [reflexivity|].
  rewrite IH. reflexivity.
Qed.

End Sync.

End DocSyncFacts.

(* ================================================================== *)
(** ** The sync manager: the claims                                    *)
(* ================================================================== *)

Module DocSyncClaims.
Import Hierarchy Chunker DocSync RunNotions SyncNotions RunFacts DocSyncFacts
  Scenario.

Lemma surjective_pairing3 {A B C} (x : A * B * C) :
  x = (fst (fst x), snd (fst x), snd x).
Proof. destruct x as [[a b] c]. reflexivity. Qed.

Lemma since_app {Vec} (log evs : list (Event Vec)) :
  since log (log ++ evs) = evs.
Proof.
  unfold since. rewrite skipn_app, skipn_all, Nat.sub_diag. reflexivity.
Qed.

Section Sync.

Context {Vec Num : Type}.
Variable sha256 : str -> str.
Variable topicShift : option Num -> list Vec -> nat -> bool.
Variable env : Env Vec.

Lemma sameHash_refl (h : str) : sameHash h (Some h) = true.
Proof. cbn. apply str_eqb_eq. reflexivity. Qed.

(** C2. If [syncIfNeeded(text)] completes, a second call with the same
    text (whatever its options) returns [false], leaves the manager as
    it is and appends nothing to the log: no call reaches the embedder or
    the vector store. *)
Theorem sync_again_is_a_no_op (text : str) (options options' : Options Num)
    (m m' : Manager) (log log' : list (Event Vec)) (b : bool) :
  syncIfNeeded sha256 topicShift env text options m log = (m', log', Ok b) ->
  syncIfNeeded sha256 topicShift env text options' m' log'
    = (m', log', Ok false).
Proof.
  intros H.
  assert (Hh : sameHash (sha256 text) (lastDocHash m') = true).
  { rewrite syncIfNeeded_stages in H.
    destruct (sameHash (sha256 text) (lastDocHash m)) eqn:E.
    - injection H as <- _ _. exact E.
    - destruct (extractHierarchy topicShift env text (Some TheEmbedder)
                  (structure options) m log) as [[m0 log0] [h|e]];
        [|discriminate].
      cbv zeta in H.
      destruct (diffStep env _ _ _ _ log0) as [[m2 log2] [u|e]];
        [|discriminate].
      injection H as <- _ _. apply sameHash_refl. }
  rewrite syncIfNeeded_stages, Hh. reflexivity.
Qed.

(** C4. When a call to [syncIfNeeded] made an external call that was
    rejected (by the embedder or by the store), or when it ended in an
    error, [storedHashes] and [lastDocHash] are what they were before
    the call.  So the two fields change only in a call that returns
    normally, all of whose external calls, the store insert being the
    last, have completed. *)
Theorem sync_commits_last (text : str) (options : Options Num)
    (m m' : Manager) (log log' : list (Event Vec)) (r : Result bool) :
  syncIfNeeded sha256 topicShift env text options m log = (m', log', r) ->
  existsb failed (since log log') = true \/ isErr r = true ->
  storedHashes m' = storedHashes m /\
  lastDocHash m' = lastDocHash m.
Proof.
  rewrite syncIfNeeded_stages.
  destruct (sameHash (sha256 text) (lastDocHash m)).
  { intros H. injection H as <- <- <-. split; reflexivity. }
  destruct (Clean_extractHierarchy topicShift env text (Some TheEmbedder)
              (structure options) m log) as (e1 & r1 & -> & F1).
  destruct r1 as [h | e].
  - cbv zeta.
    destruct (Clean_diffStep env
                (chunkWithHierarchy sha256 text h (chunking options))
                (staleOf m (chunkWithHierarchy sha256 text h (chunking options)))
                (newOf m (chunkWithHierarchy sha256 text h (chunking options)))
                (mkManager (lastDocHash m) (storedHashes m) (Some h))
                (log ++ e1)) as (e2 & r2 & -> & F2).
    destruct r2 as [u | e]; intros H; injection H as <- <- <-;
      rewrite <- app_assoc, since_app, existsb_app, F1, F2; cbn.
    + intros [F | F]; discriminate.
    + intros _. split; reflexivity.
  - intros H. injection H as <- <- <-. intros _. split; reflexivity.
Qed.

(** C1, as the code has it. Take a document whose hash differs from
    [lastDocHash], whose hierarchy extraction succeeds, such that every
    stored chunk hash is still among its chunk hashes and at least one
    of its chunks has a hash that is not stored.  Hierarchy extraction
    comes first and calls [embedBatch] at most once, on the paragraph
    texts; it makes this call exactly when the document has no headings
    and more than one paragraph, and makes no call otherwise.  After it,
    [syncIfNeeded] calls [embedBatch] exactly once, on exactly the texts
    of the chunks whose hashes were not stored, in document order; the
    [insert] follows when the embedder answers.  [reset] is never
    called. *)
Theorem sync_append_embeds_new_chunks (text : str) (options : Options Num)
    (m : Manager) (log logH : list (Event Vec)) (h : HierarchyMap) :
  sameHash (sha256 text) (lastDocHash m) = false ->
  extractHierarchy topicShift env text (Some TheEmbedder) (structure options)
    m log = (m, logH, Ok h) ->
  (forall x, In x (storedHashes m) ->
             In x (map hash (chunkWithHierarchy sha256 text h (chunking options)))) ->
  newOf m (chunkWithHierarchy sha256 text h (chunking options)) <> [] ->
  exists pre reply rest m' r,
    logH = log ++ pre /\
    hierarchyCalls text pre /\
    (extractHeadings text = [] ->
     (1 < length (splitParagraphs text))%nat ->
     exists answer,
       pre = [EmbedBatch (map Paragraph.text (splitParagraphs text)) answer]) /\
    syncIfNeeded sha256 topicShift env text options m log
      = (m',
         logH ++
         EmbedBatch
           (map Chunker.text
              (newOf m (chunkWithHierarchy sha256 text h (chunking options))))
           reply :: rest,
         r) /\
    filter isEmbedBatch rest = [] /\
    filter isReset (since log (logH ++ EmbedBatch
           (map Chunker.text
              (newOf m (chunkWithHierarchy sha256 text h (chunking options))))
           reply :: rest)) = [].
Proof.
  intros Hhash Hh Hkeep Hnew.
  assert (Hmust : forall pre, logH = log ++ pre ->
            extractHeadings text = [] ->
            (1 < length (splitParagraphs text))%nat ->
            exists answer,
              pre = [EmbedBatch (map Paragraph.text (splitParagraphs text))
                       answer]).
  { intros pre E Eh El.
    destruct (extractHierarchy_embeds topicShift env _ _ _ _ _ _ _ _ Hh Eh El)
      as (answer & E').
    exists answer. rewrite E in E'. exact (app_inv_head _ _ _ E'). }
  destruct (extractHierarchy_calls topicShift env _ _ _ _ _ _ _ _ Hh)
    as (pre & -> & Hpre).
  specialize (Hmust pre eq_refl).
  rewrite syncIfNeeded_stages, Hhash, Hh. cbv zeta.
  set (chunks := chunkWithHierarchy sha256 text h (chunking options)) in *.
  unfold staleOf. rewrite (nothing_stale _ _ Hkeep).
  unfold diffStep.
  destruct (newOf m chunks) as [|c0 new] eqn:En; [contradiction|].
  destruct (embedAndInsert_run env (c0 :: new)
              (mkManager (lastDocHash m) (storedHashes m) (Some h))
              (log ++ pre) ltac:(discriminate))
    as (reply & rest & r & Hrun & Hrest & Hreset).
  rewrite Hrun.
  assert (Hnoreset : filter isReset
            (since log ((log ++ pre) ++
               EmbedBatch (map Chunker.text (c0 :: new)) reply :: rest)) = []).
  { rewrite <- app_assoc, since_app, filter_app. cbn [filter isReset].
    rewrite Hreset, app_nil_r.
    destruct Hpre as [-> | (rp & -> & _)]; reflexivity. }
  destruct r as [u | e]; exists pre, reply, rest; eexists; eexists;
    (split; [reflexivity|]); (split; [exact Hpre|]);
    (split; [exact Hmust|]);
    (split; [reflexivity|]); (split; [exact Hrest | exact Hnoreset]).
Qed.

(** C3. In a sync that completes and in which a stored chunk hash is
    absent from the document's chunk hashes, the calls made after
    hierarchy extraction are, in this order: [embedBatch] on the chunks
    whose hashes were not stored (if any), [embedBatch] on the chunks
    whose hashes were stored (if any), [reset], and one [insert] of a
    record per current chunk (if there is any chunk).  The embedded texts
    are the texts of all current chunks, and so are the inserted
    records, up to order. *)
Theorem sync_full_resync (text : str) (options : Options Num)
    (m m' : Manager) (log logH log' : list (Event Vec)) (h : HierarchyMap)
    (b : bool) :
  sameHash (sha256 text) (lastDocHash m) = false ->
  extractHierarchy topicShift env text (Some TheEmbedder) (structure options)
    m log = (m, logH, Ok h) ->
  staleOf m (chunkWithHierarchy sha256 text h (chunking options)) <> [] ->
  syncIfNeeded sha256 topicShift env text options m log = (m', log', Ok b) ->
  exists newVectors existingVectors records,
    records =
      toRecords (newOf m (chunkWithHierarchy sha256 text h (chunking options)))
        newVectors 0
      ++ toRecords (keptOf m (chunkWithHierarchy sha256 text h (chunking options)))
           existingVectors 0 /\
    log' = logH
      ++ embedsOf (newOf m (chunkWithHierarchy sha256 text h (chunking options)))
           (Some newVectors)
      ++ embedsOf (keptOf m (chunkWithHierarchy sha256 text h (chunking options)))
           (Some existingVectors)
      ++ [Reset (Some tt)]
      ++ insertOf records (Some tt) /\
    Permutation
      (map Chunker.text (chunkWithHierarchy sha256 text h (chunking options)))
      (flat_map embedded (since logH log')) /\
    Permutation
      (map Chunker.text (chunkWithHierarchy sha256 text h (chunking options)))
      (map Runtime.text records) /\
    Permutation
      (map hash (chunkWithHierarchy sha256 text h (chunking options)))
      (map chunkHash records) /\
    b = true /\
    storedHashes m' =
      setOf (map hash (chunkWithHierarchy sha256 text h (chunking options))).
Proof.
  intros Hhash Hh Hstale.
  rewrite syncIfNeeded_stages, Hhash, Hh. cbv zeta.
  set (chunks := chunkWithHierarchy sha256 text h (chunking options)) in *.
  unfold diffStep.
  destruct (staleOf m chunks) as [|s0 stale]; [contradiction|].
  destruct (fullResync env chunks _ logH) as [[m2 log2] [u|e]] eqn:Hrun;
    [|discriminate].
  intros H. injection H as <- <- <-.
  apply fullResync_ok in Hrun. cbn [storedHashes] in Hrun.
  change (newOf {| lastDocHash := lastDocHash m; storedHashes := storedHashes m;
                   lastHierarchy := Some h |} chunks)
    with (newOf m chunks) in Hrun.
  change (keptOf {| lastDocHash := lastDocHash m; storedHashes := storedHashes m;
                    lastHierarchy := Some h |} chunks)
    with (keptOf m chunks) in Hrun.
  destruct Hrun as (nv & xv & ->).
  exists nv, xv, (toRecords (newOf m chunks) nv 0 ++ toRecords (keptOf m chunks) xv 0).
  split; [reflexivity|]. split; [reflexivity|].
  split; [|split; [|split; [|split; reflexivity]]].
  - rewrite since_app. rewrite !flat_map_app.
    assert (E : forall cs (v : option (list Vec)),
              flat_map embedded (embedsOf cs v) = map Chunker.text cs).
    { intros [|c cs] v; cbn; [reflexivity|]. rewrite app_nil_r. reflexivity. }
    rewrite !E.
    assert (E2 : forall rs (v : option unit),
              flat_map embedded (insertOf (Vec := Vec) rs v) = []).
    { intros [|x rs] v; reflexivity. }
    rewrite E2. cbn [flat_map embedded app]. rewrite app_nil_r.
    rewrite <- map_app. apply Permutation_map.
    apply (partition_Permutation (fun c => has (storedHashes m) (hash c))).
  - rewrite map_app, !toRecords_texts, <- map_app. apply Permutation_map.
    apply (partition_Permutation (fun c => has (storedHashes m) (hash c))).
  - rewrite map_app, !toRecords_hashes, <- map_app. apply Permutation_map.
    apply (partition_Permutation (fun c => has (storedHashes m) (hash c))).
Qed.

End Sync.

Lemma sync_again_is_a_no_op_witness :
  sync hello smallChunks fresh []
    = (fst afterHello, snd afterHello, Ok true) /\
  sync hello smallChunks (fst afterHello) (snd afterHello)
    = (fst afterHello, snd afterHello, Ok false).
Proof.
  assert (H : sync hello smallChunks fresh []
              = (fst afterHello, snd afterHello, Ok true))
    by (vm_compute; reflexivity).
  split; [exact H|].
  exact (sync_again_is_a_no_op Sha256.sha256 noShift quiet hello
           smallChunks smallChunks fresh _ [] _ true H).
Defined.

Lemma sync_commits_last_witness :
  (existsb failed
     (since [] (snd (fst (syncIfNeeded Sha256.sha256 noShift brokenTable
                            hello smallChunks fresh [])))) = true \/
   isErr (snd (syncIfNeeded Sha256.sha256 noShift brokenTable
                 hello smallChunks fresh [])) = true) /\
  storedHashes
    (fst (fst (syncIfNeeded Sha256.sha256 noShift brokenTable
                 hello smallChunks fresh []))) = [] /\
  lastDocHash
    (fst (fst (syncIfNeeded Sha256.sha256 noShift brokenTable
                 hello smallChunks fresh []))) = None.
Proof.
  assert (F : isErr (snd (syncIfNeeded Sha256.sha256 noShift brokenTable
                            hello smallChunks fresh [])) = true)
    by (vm_compute; reflexivity).
  split; [right; exact F|].
  exact (sync_commits_last Sha256.sha256 noShift brokenTable hello
           smallChunks fresh _ [] _ _ (surjective_pairing3 _) (or_intror F)).
Defined.

Lemma sync_append_embeds_new_chunks_witness :
  sameHash (Sha256.sha256 helloWorld) (lastDocHash (fst afterHello)) = false /\
  (forall x, In x (storedHashes (fst afterHello)) ->
             In x (map hash (chunksOf helloWorld afterHello))) /\
  newOf (fst afterHello) (chunksOf helloWorld afterHello) <> [] /\
  exists pre reply rest m' r,
    snd (fst (hierarchyOf helloWorld afterHello)) = snd afterHello ++ pre /\
    hierarchyCalls helloWorld pre /\
    (extractHeadings helloWorld = [] ->
     (1 < length (splitParagraphs helloWorld))%nat ->
     exists answer,
       pre = [EmbedBatch (map Paragraph.text (splitParagraphs helloWorld))
                answer]) /\
    sync helloWorld smallChunks (fst afterHello) (snd afterHello)
      = (m',
         snd (fst (hierarchyOf helloWorld afterHello)) ++
         EmbedBatch
           (map Chunker.text
              (newOf (fst afterHello) (chunksOf helloWorld afterHello)))
           reply :: rest,
         r) /\
    filter isEmbedBatch rest = [] /\
    filter isReset
      (since (snd afterHello)
         (snd (fst (hierarchyOf helloWorld afterHello)) ++
          EmbedBatch
            (map Chunker.text
               (newOf (fst afterHello) (chunksOf helloWorld afterHello)))
            reply :: rest)) = [].
Proof.
  assert (H0 : sameHash (Sha256.sha256 helloWorld)
                 (lastDocHash (fst afterHello)) = false)
    by (vm_compute; reflexivity).
  assert (H1 : extractHierarchy noShift quiet helloWorld (Some TheEmbedder)
                 (structure smallChunks) (fst afterHello) (snd afterHello)
               = (fst afterHello, snd (fst (hierarchyOf helloWorld afterHello)),
                  Ok (orEmpty (snd (hierarchyOf helloWorld afterHello)))))
    by (vm_compute; reflexivity).
  assert (H2 : forall x, In x (storedHashes (fst afterHello)) ->
                         In x (map hash (chunksOf helloWorld afterHello))).
  { intros x Hx.
    assert (E : storedHashes (fst afterHello) = [Sha256.sha256 hello])
      by (vm_compute; reflexivity).
    rewrite E in Hx. destruct Hx as [<- | []].
    assert (E2 : map hash (chunksOf helloWorld afterHello)
                 = [Sha256.sha256 hello; Sha256.sha256 (lit "World.")])
      by (vm_compute; reflexivity).
    rewrite E2. left. reflexivity. }
  assert (H3 : newOf (fst afterHello) (chunksOf helloWorld afterHello) <> []).
  { assert (E : length (newOf (fst afterHello) (chunksOf helloWorld afterHello))
                = 1%nat) by (vm_compute; reflexivity).
    intros C. rewrite C in E. discriminate E. }
  split; [exact H0|]. split; [exact H2|]. split; [exact H3|].
  exact (sync_append_embeds_new_chunks Sha256.sha256 noShift quiet helloWorld
           smallChunks (fst afterHello) (snd afterHello) _ _ H0 H1 H2 H3).
Defined.

(** C1, as stated, fails: after [hello] is synced, syncing [helloWorld]
    keeps the stored chunk and adds one, and the embedder is called
    twice, the first time (by hierarchy extraction) also on the text
    whose hash was already stored. *)
Lemma append_sync_calls_embedder_twice :
  sync hello smallChunks fresh []
    = (fst afterHello, snd afterHello, Ok true) /\
  storedHashes (fst afterHello) = [Sha256.sha256 hello] /\
  map hash (chunksOf helloWorld afterHello)
    = [Sha256.sha256 hello; Sha256.sha256 (lit "World.")] /\
  map embedded
    (filter isEmbedBatch
       (since (snd afterHello)
          (snd (fst (sync helloWorld smallChunks
                       (fst afterHello) (snd afterHello))))))
    = [[lit "Hello."; lit "World."]; [lit "World."]] /\
  length
    (filter isEmbedBatch
       (since (snd afterHello)
          (snd (fst (sync helloWorld smallChunks
                       (fst afterHello) (snd afterHello))))))
    <> 1%nat.
Proof.
  split; [vm_compute; reflexivity|].
  split; [vm_compute; reflexivity|].
  split; [vm_compute; reflexivity|].
  split; [vm_compute; reflexivity|].
  vm_compute. discriminate.
Qed.

Lemma sync_full_resync_witness :
  sameHash (Sha256.sha256 hello) (lastDocHash (fst afterHelloWorld)) = false /\
  staleOf (fst afterHelloWorld) (chunksOf hello afterHelloWorld) <> [] /\
  snd (sync hello smallChunks (fst afterHelloWorld) (snd afterHelloWorld))
    = Ok true /\
  exists newVectors existingVectors records,
    records =
      toRecords (newOf (fst afterHelloWorld) (chunksOf hello afterHelloWorld))
        newVectors 0
      ++ toRecords (keptOf (fst afterHelloWorld) (chunksOf hello afterHelloWorld))
           existingVectors 0 /\
    snd (fst (sync hello smallChunks (fst afterHelloWorld) (snd afterHelloWorld)))
      = snd (fst (hierarchyOf hello afterHelloWorld))
      ++ embedsOf (newOf (fst afterHelloWorld) (chunksOf hello afterHelloWorld))
           (Some newVectors)
      ++ embedsOf (keptOf (fst afterHelloWorld) (chunksOf hello afterHelloWorld))
           (Some existingVectors)
      ++ [Reset (Some tt)]
      ++ insertOf records (Some tt).
Proof.
  assert (H0 : sameHash (Sha256.sha256 hello)
                 (lastDocHash (fst afterHelloWorld)) = false)
    by (vm_compute; reflexivity).
  assert (H1 : extractHierarchy noShift quiet hello (Some TheEmbedder)
                 (structure smallChunks) (fst afterHelloWorld)
                 (snd afterHelloWorld)
               = (fst afterHelloWorld,
                  snd (fst (hierarchyOf hello afterHelloWorld)),
                  Ok (orEmpty (snd (hierarchyOf hello afterHelloWorld)))))
    by (vm_compute; reflexivity).
  assert (H2 : staleOf (fst afterHelloWorld) (chunksOf hello afterHelloWorld)
               <> []).
  { assert (E : length (staleOf (fst afterHelloWorld)
                          (chunksOf hello afterHelloWorld)) = 1%nat)
      by (vm_compute; reflexivity).
    intros C. rewrite C in E. discriminate E. }
  assert (H3 : syncIfNeeded Sha256.sha256 noShift quiet hello smallChunks
                 (fst afterHelloWorld) (snd afterHelloWorld)
               = (fst (fst (sync hello smallChunks (fst afterHelloWorld)
                              (snd afterHelloWorld))),
                  snd (fst (sync hello smallChunks (fst afterHelloWorld)
                              (snd afterHelloWorld))),
                  Ok true))
    by (vm_compute; reflexivity).
  split; [exact H0|]. split; [exact H2|].
  split; [vm_compute; reflexivity|].
  destruct (sync_full_resync Sha256.sha256 noShift quiet hello smallChunks
              (fst afterHelloWorld) _ (snd afterHelloWorld) _ _ _ true
              H0 H1 H2 H3)
    as (nv & xv & records & Hr & Hlog & _).
  exists nv, xv, records. split; [exact Hr | exact Hlog].
Defined.

End DocSyncClaims.

(* ================================================================== *)
(** ** The heading tree                                                *)
(* ================================================================== *)

Module HierarchyFacts.
Import JsFacts Hierarchy HierarchyNotions.

(** *** Lines and heading offsets *)

Lemma splitChar_not_nil (c : ascii) (s : str) : splitChar c s <> [].
Proof.
  induction s as [|x s IH]; cbn; [discriminate|].
  destruct (Ascii.eqb x c); [discriminate|].
  destruct (splitChar c s); [contradiction | discriminate].
Qed.

Lemma extent_nonneg (lines : list str) : 0 <= extent lines.
Proof.
  induction lines as [|l lines IH]; cbn; [lia|].
  pose proof (len_nonneg l). lia.
Qed.

Lemma extent_splitChar (c : ascii) (s : str) :
  extent (splitChar c s) = len s + 1.
Proof.
  induction s as [|x s IH]; [reflexivity|].
  cbn [splitChar]. destruct (Ascii.eqb x c).
  - cbn [extent]. rewrite IH, len_cons. change (len []) with 0. lia.
  - pose proof (splitChar_not_nil c s) as Hne.
    destruct (splitChar c s) as [|p ps]; [contradiction|].
    cbn [extent] in *. rewrite !len_cons. lia.
Qed.

Lemma ascending_weaken (flat : list FlatHeading.t) :
  forall lo lo' hi, lo' <= lo -> ascending lo hi flat -> ascending lo' hi flat.
Proof.
  destruct flat as [|h rest]; intros lo lo' hi Hlo H; [exact I|].
  cbn in *. destruct H as [H1 H2]. split; [lia | exact H2].
Qed.

Lemma ascending_In (flat : list FlatHeading.t) :
  forall lo hi h,
    ascending lo hi flat -> In h flat -> lo <= FlatHeading.offset h < hi.
Proof.
  induction flat as [|x rest IH]; intros lo hi h H Hin; [contradiction|].
  cbn in H. destruct H as [H1 H2]. destruct Hin as [<- | Hin]; [exact H1|].
  specialize (IH _ _ _ H2 Hin). lia.
Qed.

Lemma recognize_nonempty (line : str) (r : nat * str) :
  recognize (trim line) = Some r -> 0 < len line.
Proof.
  destruct line as [|c line]; [discriminate|].
  intros _. rewrite len_cons. pose proof (len_nonneg line). lia.
Qed.

Lemma headingLoop_ascending (lines : list str) :
  forall offset,
    ascending offset (offset + extent lines - 1) (headingLoop lines offset).
Proof.
  induction lines as [|line rest IH]; intros offset; [exact I|].
  cbn [headingLoop extent].
  specialize (IH (offset + len line + 1)).
  replace (offset + len line + 1 + extent rest - 1)
    with (offset + (len line + 1 + extent rest) - 1) in IH by lia.
  pose proof (len_nonneg line) as Hl. pose proof (extent_nonneg rest) as He.
  destruct (recognize (trim line)) as [[lvl ttl]|] eqn:E.
  - apply recognize_nonempty in E. cbn [ascending FlatHeading.offset].
    split; [lia|]. eapply ascending_weaken; [|exact IH]. lia.
  - eapply ascending_weaken; [|exact IH]. lia.
Qed.

Lemma extractHeadings_ascending (text : str) :
  ascending 0 (len text) (extractHeadings text).
Proof.
  unfold extractHeadings.
  pose proof (headingLoop_ascending (splitChar nl text) 0) as H.
  rewrite extent_splitChar in H.
  replace (0 + (len text + 1) - 1) with (len text) in H by lia. exact H.
Qed.

(** *** End offsets *)

Lemma withEnds_nth (docLength : Z) (flat : list FlatHeading.t) :
  forall i item,
    nth_error (withEnds flat docLength) i = Some item ->
    exists h,
      nth_error flat i = Some h /\
      Ended.level item = FlatHeading.level h /\
      Ended.offset item = FlatHeading.offset h /\
      Ended.endOffset item =
        match find (sameOrHigher h) (skipn (S i) flat) with
        | Some n => FlatHeading.offset n
        | None => docLength
        end.
Proof.
  induction flat as [|h rest IH]; intros i item H.
  - destruct i; discriminate.
  - destruct i as [|i]; cbn [withEnds nth_error] in H.
    + injection H as <-. exists h. repeat split.
    + apply IH in H. destruct H as (hi & H1 & H2 & H3 & H4).
      exists hi. repeat split; assumption.
Qed.

Lemma withEnds_length (docLength : Z) (flat : list FlatHeading.t) :
  length (withEnds flat docLength) = length flat.
Proof. induction flat as [|h rest IH]; cbn; [reflexivity | rewrite IH; reflexivity]. Qed.

(** [find] returns the first hit: it lies in the list, and no hit comes
    before it. *)
Lemma find_first (p : FlatHeading.t -> bool) (l : list FlatHeading.t) :
  forall lo hi n,
    ascending lo hi l ->
    find p l = Some n ->
    In n l /\ p n = true /\
    forall x, In x l -> p x = true ->
              FlatHeading.offset n <= FlatHeading.offset x.
Proof.
  induction l as [|y l IH]; intros lo hi n Ha Hf; [discriminate|].
  cbn in Ha. destruct Ha as [Hy Ha]. cbn [find] in Hf.
  destruct (p y) eqn:E.
  - injection Hf as <-. split; [left; reflexivity|]. split; [exact E|].
    intros x [<- | Hx] _; [lia|].
    pose proof (ascending_In _ _ _ _ Ha Hx). lia.
  - destruct (IH _ _ _ Ha Hf) as (H1 & H2 & H3).
    split; [right; exact H1|]. split; [exact H2|].
    intros x [<- | Hx] Hp; [congruence | apply H3; assumption].
Qed.

Lemma ascending_skipn (l : list FlatHeading.t) :
  forall k lo hi h,
    ascending lo hi l -> nth_error l k = Some h ->
    ascending (FlatHeading.offset h + 1) hi (skipn (S k) l) /\
    lo <= FlatHeading.offset h < hi.
Proof.
  induction l as [|y l IH]; intros k lo hi h Ha Hk.
  - destruct k; discriminate.
  - cbn in Ha. destruct Ha as [Hy Ha]. destruct k as [|k].
    + injection Hk as <-. split; [exact Ha | exact Hy].
    + cbn [nth_error] in Hk. destruct (IH _ _ _ _ Ha Hk) as [H1 H2].
      split; [exact H1 | lia].
Qed.

Lemma nth_error_skipn_In {A} (l : list A) (i j : nat) (x : A) :
  (i < j)%nat -> nth_error l j = Some x -> In x (skipn (S i) l).
Proof.
  intros Hij Hx.
  apply nth_error_In with (n := (j - S i)%nat).
  rewrite nth_error_skipn. replace (S i + (j - S i))%nat with j by lia.
  exact Hx.
Qed.

Section Items.

Variable docLength : Z.
Variable flat : list FlatHeading.t.
Hypothesis flat_ascending : ascending 0 docLength flat.

(** A section ends behind its start, inside the document. *)
Lemma ended_range (i : nat) (item : Ended.t) :
  nth_error (withEnds flat docLength) i = Some item ->
  Ended.offset item < Ended.endOffset item <= docLength.
Proof.
  intros H. apply withEnds_nth in H. destruct H as (h & Hh & _ & Ho & He).
  destruct (ascending_skipn _ _ _ _ _ flat_ascending Hh) as [Ha Hr].
  rewrite Ho, He.
  destruct (find (sameOrHigher h) (skipn (S i) flat)) as [n|] eqn:Ef; [|lia].
  destruct (find_first _ _ _ _ _ Ha Ef) as (Hin & _ & _).
  pose proof (ascending_In _ _ _ _ Ha Hin). lia.
Qed.

(** Later headings start later. *)
Lemma ended_order (i j : nat) (a b : Ended.t) :
  (i < j)%nat ->
  nth_error (withEnds flat docLength) i = Some a -> nth_error (withEnds flat docLength) j = Some b ->
  Ended.offset a < Ended.offset b.
Proof.
  intros Hij Ha Hb.
  apply withEnds_nth in Ha. destruct Ha as (h & Hh & _ & Ho & _).
  apply withEnds_nth in Hb. destruct Hb as (k & Hk & _ & Ho' & _).
  destruct (ascending_skipn _ _ _ _ _ flat_ascending Hh) as [Ha _].
  pose proof (ascending_In _ _ _ _ Ha (nth_error_skipn_In _ _ _ _ Hij Hk)).
  lia.
Qed.

(** A section ends no later than any later heading of its level or
    above. *)
Lemma ended_before (i j : nat) (a b : Ended.t) :
  (i < j)%nat ->
  nth_error (withEnds flat docLength) i = Some a -> nth_error (withEnds flat docLength) j = Some b ->
  (Ended.level b <= Ended.level a)%nat ->
  Ended.endOffset a <= Ended.offset b.
Proof.
  intros Hij Ha Hb Hl.
  apply withEnds_nth in Ha. destruct Ha as (h & Hh & Lh & _ & He).
  apply withEnds_nth in Hb. destruct Hb as (k & Hk & Lk & Ho' & _).
  destruct (ascending_skipn _ _ _ _ _ flat_ascending Hh) as [Ha _].
  pose proof (nth_error_skipn_In _ _ _ _ Hij Hk) as Hin.
  assert (Hp : sameOrHigher h k = true)
    by (unfold sameOrHigher; apply Nat.leb_le; lia).
  rewrite He, Ho'.
  destruct (find (sameOrHigher h) (skipn (S i) flat)) as [n|] eqn:Ef.
  - destruct (find_first _ _ _ _ _ Ha Ef) as (_ & _ & Hfirst).
    apply Hfirst; assumption.
  - pose proof (find_none _ _ Ef _ Hin). congruence.
Qed.

(** A section ends at the end of the document or at a later heading of
    its level or above. *)
Lemma ended_at (i : nat) (a : Ended.t) :
  nth_error (withEnds flat docLength) i = Some a ->
  Ended.endOffset a = docLength \/
  exists j b,
    (i < j)%nat /\ nth_error (withEnds flat docLength) j = Some b /\
    (Ended.level b <= Ended.level a)%nat /\
    Ended.endOffset a = Ended.offset b.
Proof.
  intros Ha. pose proof Ha as Ha'.
  apply withEnds_nth in Ha. destruct Ha as (h & Hh & Lh & _ & He).
  destruct (find (sameOrHigher h) (skipn (S i) flat)) as [n|] eqn:Ef;
    [right | left; exact He].
  destruct (find_some _ _ Ef) as [Hin Hp].
  apply In_nth_error in Hin. destruct Hin as (d & Hd).
  rewrite nth_error_skipn in Hd.
  assert (Hlt : (S i + d < length (withEnds flat docLength))%nat).
  { rewrite withEnds_length. apply nth_error_Some. congruence. }
  destruct (nth_error (withEnds flat docLength) (S i + d)) as [b|] eqn:Eb;
    [|apply nth_error_None in Eb; lia].
  exists (S i + d)%nat, b. split; [lia|]. split; [exact Eb|].
  apply withEnds_nth in Eb. destruct Eb as (k & Hk & Lk & Ok' & _).
  assert (k = n) by congruence. subst k.
  unfold sameOrHigher in Hp. apply Nat.leb_le in Hp.
  split; [lia | congruence].
Qed.

End Items.

End HierarchyFacts.

(* ================================================================== *)
(** ** Nesting                                                         *)
(* ================================================================== *)

Module NestingFacts.
Import JsFacts Hierarchy HierarchyNotions HierarchyFacts.

Section Scan.

Variable items : list Ended.t.
Variable end_ : nat.
Hypothesis end_in_range : (end_ <= length items)%nat.

(** The inner loop stops inside the range, has seen deeper items only,
    and stops before the end only on an item that is not deeper. *)
Lemma scanChildren_spec (lvl : nat) :
  forall steps childEnd,
    (childEnd <= end_)%nat -> (end_ - childEnd <= steps)%nat ->
    (childEnd <= scanChildren items end_ lvl steps childEnd <= end_)%nat /\
    (forall j it,
       (childEnd <= j < scanChildren items end_ lvl steps childEnd)%nat ->
       nth_error items j = Some it -> (lvl < Ended.level it)%nat) /\
    ((scanChildren items end_ lvl steps childEnd < end_)%nat ->
     exists it,
       nth_error items (scanChildren items end_ lvl steps childEnd) = Some it /\
       (Ended.level it <= lvl)%nat).
Proof.
  induction steps as [|steps IH]; intros c Hc Hs; cbn [scanChildren].
  - split; [lia|]. split; [intros j it Hj; lia | intros H; lia].
  - destruct (c <? end_)%nat eqn:E.
    + apply Nat.ltb_lt in E.
      destruct (nth_error items c) as [it|] eqn:Ec;
        [|apply nth_error_None in Ec; lia].
      destruct (lvl <? Ended.level it)%nat eqn:El.
      * apply Nat.ltb_lt in El.
        destruct (IH (S c) ltac:(lia) ltac:(lia)) as (H1 & H2 & H3).
        split; [lia|]. split; [|exact H3].
        intros j x Hj Hx. destruct (Nat.eq_dec j c) as [-> | Hne].
        -- congruence.
        -- apply (H2 j x); [lia | exact Hx].
      * apply Nat.ltb_ge in El. split; [lia|].
        split; [intros j x Hj; lia|]. intros _. exists it. split; [exact Ec | exact El].
    + apply Nat.ltb_ge in E. split; [lia|].
      split; [intros j x Hj; lia | intros H; lia].
Qed.

End Scan.

Section Nesting.

Variable items : list Ended.t.

Lemma nestFrom_Nested (fuel : nat) :
  forall start end_ parentLevel,
    (end_ <= length items)%nat ->
    Nested items start end_ (nestFrom fuel items start end_ parentLevel).
Proof.
  induction fuel as [|fuel IH]; intros s e pl He; cbn [nestFrom];
    [constructor|].
  destruct (s <? e)%nat eqn:Es; [|constructor]. apply Nat.ltb_lt in Es.
  destruct (nth_error items s) as [item|] eqn:Ei; [|constructor].
  destruct ((Ended.level item <=? pl) && (0 <? pl))%nat; [constructor|].
  destruct (scanChildren_spec items e He (Ended.level item) (e - S s) (S s)
              ltac:(lia) ltac:(lia)) as (H1 & H2 & H3).
  set (childEnd := scanChildren items e (Ended.level item) (e - S s) (S s)) in *.
  apply (Nested_cons items s e childEnd item); try assumption.
  - destruct (S s <? childEnd)%nat; [apply IH; lia | constructor].
  - apply IH. exact He.
Qed.

(** Enough fuel: the result does not depend on it. *)
Lemma nestFrom_fuel (f1 : nat) :
  forall f2 start end_ parentLevel,
    (end_ <= length items)%nat ->
    (end_ - start <= f1)%nat -> (end_ - start <= f2)%nat ->
    nestFrom f1 items start end_ parentLevel
      = nestFrom f2 items start end_ parentLevel.
Proof.
  induction f1 as [|f1 IH]; intros f2 s e pl He H1 H2.
  - destruct f2 as [|f2]; [reflexivity|]. cbn [nestFrom].
    destruct (s <? e)%nat eqn:Es; [apply Nat.ltb_lt in Es; lia | reflexivity].
  - destruct f2 as [|f2]; cbn [nestFrom].
    + destruct (s <? e)%nat eqn:Es; [apply Nat.ltb_lt in Es; lia | reflexivity].
    + destruct (s <? e)%nat eqn:Es; [|reflexivity]. apply Nat.ltb_lt in Es.
      destruct (nth_error items s) as [item|]; [|reflexivity].
      destruct ((Ended.level item <=? pl) && (0 <? pl))%nat; [reflexivity|].
      destruct (scanChildren_spec items e He (Ended.level item) (e - S s) (S s)
                  ltac:(lia) ltac:(lia)) as (Hc & _ & _).
      set (childEnd := scanChildren items e (Ended.level item) (e - S s) (S s)) in *.
      rewrite (IH f2 childEnd e pl) by lia.
      destruct (S s <? childEnd)%nat; [|reflexivity].
      rewrite (IH f2 (S s) childEnd (Ended.level item)) by lia.
      reflexivity.
Qed.

End Nesting.

End NestingFacts.

(* ================================================================== *)
(** ** The heading tree: the claim                                     *)
(* ================================================================== *)

Module TreeClaims.
Import JsFacts Hierarchy HierarchyNotions HierarchyFacts NestingFacts.

Lemma InTree_cons (n m : HeadingNode) (f : list HeadingNode) :
  InTree n (m :: f) -> n = m \/ InTree n (children m) \/ InTree n f.
Proof.
  intros H. inversion H as [? ? Hin | ? k ? Hin Hbelow]; subst.
  - destruct Hin as [<- | Hin]; [left; reflexivity|].
    right; right. apply InTree_here. exact Hin.
  - destruct Hin as [<- | Hin]; [right; left; exact Hbelow|].
    right; right. eapply InTree_below; eassumption.
Qed.

Lemma InTree_nil (n : HeadingNode) : ~ InTree n [].
Proof. intros H. inversion H; subst; contradiction. Qed.

Section Shape.

Variable docLength : Z.
Variable items : list Ended.t.

Hypothesis item_range : forall i a,
  nth_error items i = Some a ->
  Ended.offset a < Ended.endOffset a <= docLength.

Hypothesis item_order : forall i j a b,
  (i < j)%nat -> nth_error items i = Some a -> nth_error items j = Some b ->
  Ended.offset a < Ended.offset b.

Hypothesis item_before : forall i j a b,
  (i < j)%nat -> nth_error items i = Some a -> nth_error items j = Some b ->
  (Ended.level b <= Ended.level a)%nat ->
  Ended.endOffset a <= Ended.offset b.

Hypothesis item_at : forall i a,
  nth_error items i = Some a ->
  Ended.endOffset a = docLength \/
  exists j b,
    (i < j)%nat /\ nth_error items j = Some b /\
    (Ended.level b <= Ended.level a)%nat /\
    Ended.endOffset a = Ended.offset b.

Lemma builtFrom_wider (lo lo' hi hi' : nat) (n : HeadingNode) :
  (lo' <= lo)%nat -> (hi <= hi')%nat ->
  builtFrom items lo hi n -> builtFrom items lo' hi' n.
Proof.
  intros H1 H2 (k & item & Hk & Hrest). exists k, item.
  split; [lia | exact Hrest].
Qed.

Lemma Nested_roots (lo hi : nat) (forest : list HeadingNode) :
  Nested items lo hi forest -> Forall (builtFrom items lo hi) forest.
Proof.
  induction 1 as [| lo hi childEnd item kids rest Hi Hc _ _ _ _ _ IHrest];
    constructor.
  - exists lo, item. repeat split; try assumption; lia.
  - eapply Forall_impl; [|exact IHrest].
    intros n. apply builtFrom_wider; lia.
Qed.

Lemma Nested_apart (lo hi : nat) (forest : list HeadingNode) :
  Nested items lo hi forest -> ForallOrdPairs apart forest.
Proof.
  induction 1 as [| lo hi childEnd item kids rest Hi Hc _ Hstop _ _ Hrest IHrest];
    constructor; [|exact IHrest].
  apply Nested_roots in Hrest.
  eapply Forall_impl; [|exact Hrest].
  intros n (k & b & Hk & Hb & _ & Hs & _).
  unfold apart. cbn [endOffset nodeOf]. rewrite Hs.
  destruct (Hstop ltac:(lia)) as (it & Hit & Hl).
  pose proof (item_before lo childEnd item it ltac:(lia) Hi Hit Hl) as H1.
  destruct (Nat.eq_dec k childEnd) as [-> | Hne].
  - assert (b = it) by congruence. subst b. exact H1.
  - pose proof (item_order childEnd k it b ltac:(lia) Hit Hb). lia.
Qed.

Lemma Nested_nodes (lo hi : nat) (forest : list HeadingNode) :
  Nested items lo hi forest ->
  forall n, InTree n forest -> nodeOK docLength n.
Proof.
  induction 1
    as [| lo hi childEnd item kids rest Hi Hc Hdeep Hstop Hkids IHkids Hrest IHrest];
    intros n Hn.
  - exfalso. exact (InTree_nil n Hn).
  - apply InTree_cons in Hn. destruct Hn as [-> | [Hn | Hn]];
      [| apply IHkids; exact Hn | apply IHrest; exact Hn].
    unfold nodeOK. cbn [startOffset endOffset children nodeOf level].
    split; [exact (item_range lo item Hi)|].
    split; [|exact (Nested_apart _ _ _ Hkids)].
    pose proof (Nested_roots _ _ _ Hkids) as Hroots.
    eapply Forall_impl; [|exact Hroots].
    intros c (k & b & Hk & Hb & Hl & Hs & He).
    unfold within, deeper. cbn [startOffset endOffset level nodeOf].
    rewrite Hl, Hs, He.
    pose proof (item_order lo k item b ltac:(lia) Hi Hb) as Hstart.
    pose proof (Hdeep k b ltac:(lia) Hb) as Hlevel.
    split; [split; [lia|] | exact Hlevel].
    destruct (item_at lo item Hi) as [E | (j & x & Hj & Hx & Hxl & E)].
    + rewrite E. exact (proj2 (item_range k b Hb)).
    + assert (Hjc : (childEnd <= j)%nat).
      { destruct (Nat.lt_ge_cases j childEnd) as [Hlt | Hge]; [|exact Hge].
        pose proof (Hdeep j x ltac:(lia) Hx). lia. }
      rewrite E.
      apply (item_before k j b x); [lia | exact Hb | exact Hx | lia].
Qed.

Lemma Descends_deeper (forest : list HeadingNode) :
  (forall n, InTree n forest -> nodeOK docLength n) ->
  forall path, Descends forest path -> Sorted deeper path.
Proof.
  intros Hok path Hd. induction Hd as [f | f n path Hin Hd IH].
  - constructor.
  - constructor.
    + apply IH. intros k Hk. apply Hok. eapply InTree_below; eassumption.
    + inversion Hd as [| f' c path' Hc Hd']; subst; constructor.
      destruct (Hok n (InTree_here _ _ Hin)) as (_ & Hkids & _).
      rewrite Forall_forall in Hkids. exact (proj2 (Hkids c Hc)).
Qed.

(** With enough fuel, every item of a range of deeper items gets its
    node. *)
Lemma nestFrom_complete (fuel : nat) :
  forall start end_ parentLevel,
    (end_ <= length items)%nat -> (end_ - start <= fuel)%nat ->
    (parentLevel = 0%nat \/
     forall j it, (start <= j < end_)%nat -> nth_error items j = Some it ->
                  (parentLevel < Ended.level it)%nat) ->
    sizeAll (nestFrom fuel items start end_ parentLevel) = (end_ - start)%nat.
Proof.
  induction fuel as [|fuel IH]; intros s e pl He Hf Hpl; cbn [nestFrom].
  - cbn. lia.
  - destruct (s <? e)%nat eqn:Es; [|apply Nat.ltb_ge in Es; cbn; lia].
    apply Nat.ltb_lt in Es.
    destruct (nth_error items s) as [item|] eqn:Ei;
      [|apply nth_error_None in Ei; lia].
    assert (Hgo : ((Ended.level item <=? pl) && (0 <? pl))%nat = false).
    { destruct Hpl as [-> | Hpl]; [apply andb_false_r|].
      specialize (Hpl s item ltac:(lia) Ei).
      apply andb_false_intro1. apply Nat.leb_gt. exact Hpl. }
    rewrite Hgo.
    destruct (scanChildren_spec items e He (Ended.level item) (e - S s) (S s)
                ltac:(lia) ltac:(lia)) as (Hc & Hdeep & _).
    set (childEnd := scanChildren items e (Ended.level item) (e - S s) (S s)) in *.
    unfold sizeAll in *. cbn [map size children nodeOf].
    change (list_sum (?x :: ?l)) with (x + list_sum l)%nat.
    rewrite (IH childEnd e pl He ltac:(lia)).
    2:{ destruct Hpl as [-> | Hpl]; [left; reflexivity | right].
        intros j it Hj. apply Hpl. lia. }
    destruct (S s <? childEnd)%nat eqn:Ek.
    + rewrite (IH (S s) childEnd (Ended.level item) ltac:(lia) ltac:(lia)).
      * lia.
      * right. exact Hdeep.
    + apply Nat.ltb_ge in Ek. cbn. lia.
Qed.

End Shape.

(** C6. When headings are detected in a text, [extractHierarchy] makes no
    external call and returns, with strategy [heading], the tree of
    [buildHierarchyTree]; the tree has one node per detected heading,
    and: every node has [startOffset < endOffset <= len(text)]; the
    range of every child lies within its parent's range and the child's
    level is greater than the parent's; siblings, roots included, follow
    each other without overlap; and along every path from a root
    downwards the levels are strictly increasing. *)
Theorem heading_tree_invariants {Vec Num St : Type}
    (topicShift : option Num -> list Vec -> nat -> bool) (env : Env Vec)
    (text : str) (embedder : option Embedder) (options : HierarchyOptions Num)
    (s : St) (log : list (Event Vec)) :
  extractHeadings text <> [] ->
  exists h,
    extractHierarchy topicShift env text embedder options s log
      = (s, log, Ok h) /\
    strategy h = heading /\
    headings h = buildHierarchyTree (extractHeadings text) (len text) /\
    sizeAll (headings h) = length (extractHeadings text) /\
    ForallOrdPairs apart (headings h) /\
    (forall n, InTree n (headings h) ->
       startOffset n < endOffset n <= len text /\
       Forall (fun c => within c n /\ deeper n c) (children n) /\
       ForallOrdPairs apart (children n)) /\
    (forall path, Descends (headings h) path -> Sorted deeper path).
Proof.
  intros Hne.
  pose proof (extractHeadings_ascending text) as Hasc.
  set (flat := extractHeadings text) in *.
  set (items := withEnds flat (len text)).
  assert (Hnested : Nested items 0 (length items)
                      (buildHierarchyTree flat (len text))).
  { unfold buildHierarchyTree. destruct flat as [|h0 rest]; [contradiction|].
    apply nestFrom_Nested. apply Nat.le_refl. }
  assert (Hnodes : forall n, InTree n (buildHierarchyTree flat (len text)) ->
                             nodeOK (len text) n).
  { apply (Nested_nodes (len text) items
             (ended_range (len text) flat Hasc)
             (ended_order (len text) flat Hasc)
             (ended_before (len text) flat Hasc)
             (ended_at (len text) flat)
             0%nat (length items)).
    exact Hnested. }
  exists (mkMap (buildHierarchyTree flat (len text))
            (generateOutline (buildHierarchyTree flat (len text))
               (withDefault 6 (maxOutlineDepth options)))
            (generateDocSummary text
               (withDefault 3 (docSummaryMaxSentences options)))
            (generateSectionSummaries text
               (flattenTopLevel (buildHierarchyTree flat (len text)))
               (withDefault 1 (sectionSummaryMaxSentences options)))
            heading).
  cbn [strategy headings].
  split.
  { unfold extractHierarchy, bind, ret. fold flat.
    destruct flat as [|h0 rest]; [contradiction | reflexivity]. }
  split; [reflexivity|]. split; [reflexivity|].
  split.
  { unfold buildHierarchyTree. destruct flat as [|h0 rest] eqn:Ef; [contradiction|].
    fold items. rewrite (nestFrom_complete items (length items));
      [unfold items; rewrite withEnds_length; lia | lia | lia | left; reflexivity]. }
  split.
  { apply (Nested_apart items
             (ended_order (len text) flat Hasc)
             (ended_before (len text) flat Hasc)
             0%nat (length items)).
    exact Hnested. }
  split; [exact Hnodes|].
  apply (Descends_deeper (len text)). exact Hnodes.
Qed.

Lemma heading_tree_invariants_witness :
  extractHeadings Scenario.S2_text <> [] /\
  exists h,
    extractHierarchy Scenario.noShift Scenario.quiet Scenario.S2_text None
      Scenario.defaults tt [] = (tt, [], Ok h) /\
    sizeAll (headings h) = length (extractHeadings Scenario.S2_text) /\
    ForallOrdPairs apart (headings h) /\
    (forall path, Descends (headings h) path -> Sorted deeper path).
Proof.
  assert (H : extractHeadings Scenario.S2_text <> [])
    by (vm_compute; discriminate).
  split; [exact H|].
  destruct (heading_tree_invariants Scenario.noShift Scenario.quiet
              Scenario.S2_text None Scenario.defaults tt [] H)
    as (h & Hrun & _ & _ & Hsize & Hapart & _ & Hpaths).
  exists h. repeat split; assumption.
Defined.

(** Scenario S2: "Intro" spans the document and holds "Details". *)
Example S2_tree :
  buildHierarchyTree (extractHeadings Scenario.S2_text) (len Scenario.S2_text)
  = [mkNode 1 (lit "Intro") 0 45 [mkNode 2 (lit "Details") 23 45 []]].
Proof. vm_compute. reflexivity. Qed.

End TreeClaims.

(* ================================================================== *)
(** ** The model on known inputs                                       *)
(* ================================================================== *)

Module Checks.
Import Hierarchy Chunker.

(** The test vectors of FIPS 180-4 for the empty message and "abc". *)
Example sha256_empty :
  Sha256.sha256 [] =
  lit "e3b0c44298fc1c149afbf4c8996fb92427ae41e4649b934ca495991b7852b855".
Proof. vm_compute. reflexivity. Qed.

Example sha256_abc :
  Sha256.sha256 (lit "abc") =
  lit "ba7816bf8f01cfea414140de5dae2223b00361a396177a9cb410ff61f20015ad".
Proof. vm_compute. reflexivity. Qed.

Example trim_both_ends :
  trim ([nl] ++ lit "  a b " ++ [cr; nl]) = lit "a b".
Proof. reflexivity. Qed.

Example split_paragraphs :
  splitRegex PARAGRAPH_SPLIT (lit "a" ++ [nl; sp; nl; nl] ++ lit "b" ++ [nl] ++ lit "c")
  = [lit "a"; lit "b" ++ [nl] ++ lit "c"].
Proof. reflexivity. Qed.

Example split_sentences :
  splitRegex SENTENCE_SPLIT (lit "One. Two!  Three") =
  [lit "One."; lit "Two!"; lit "Three"].
Proof. reflexivity. Qed.

(** A numbered line needs a dot or a parenthesis behind the number. *)
Example numbered_headings :
  map recognize [lit "1. First"; lit "1.1) Nested"; lit "2.3.1. Deep";
                 lit "1.1 Nested"; lit "THE BIG TITLE"; lit "TWO WORDS";
                 lit "### Third level"]
  = [Some (1%nat, lit "First"); Some (2%nat, lit "Nested");
     Some (3%nat, lit "Deep"); None; Some (1%nat, lit "The Big Title");
     None; Some (3%nat, lit "Third level")].
Proof. vm_compute. reflexivity. Qed.

Example sentences_of_summary :
  extractSentences (lit "First one. Second one! Third? Fourth.") 3
  = lit "First one. Second one! Third?".
Proof. vm_compute. reflexivity. Qed.

Example positional_three_sections :
  map (fun n => (startOffset n, endOffset n))
      (positionalSections (repeatStr (lit "x") 1100) 5)
  = [(0, 367); (367, 734); (734, 1100)].
Proof. vm_compute. reflexivity. Qed.

End Checks.

(* ================================================================== *)
(** ** Facts about [trim] and the split patterns                       *)
(* ================================================================== *)

Module TrimFacts.
Import JsFacts SegmentNotions.

Lemma ink_app (a b : str) : ink (a ++ b) = ink a ++ ink b.
Proof. apply filter_app. Qed.

Lemma ink_space (c : ascii) (s : str) :
  isSpace c = true -> ink (c :: s) = ink s.
Proof. intros H. unfold ink, solid. cbn [filter]. rewrite H. reflexivity. Qed.

Lemma ink_solid (c : ascii) (s : str) :
  isSpace c = false -> ink (c :: s) = c :: ink s.
Proof. intros H. unfold ink, solid. cbn [filter]. rewrite H. reflexivity. Qed.

Lemma ink_nil_forallb (s : str) : ink s = [] <-> forallb isSpace s = true.
Proof.
  induction s as [|c s IH]; [cbn; tauto|].
  destruct (isSpace c) eqn:E.
  - rewrite (ink_space c s E). cbn [forallb]. rewrite E. exact IH.
  - rewrite (ink_solid c s E). cbn [forallb]. rewrite E. cbn. split; discriminate.
Qed.

Lemma ink_trimStart (s : str) : ink (trimStart s) = ink s.
Proof.
  unfold trimStart. induction s as [|c s IH]; [reflexivity|].
  cbn [dropWhile]. destruct (isSpace c) eqn:E; [|reflexivity].
  rewrite (ink_space c s E). exact IH.
Qed.

Lemma ink_trimEnd (s : str) : ink (trimEnd s) = ink s.
Proof.
  induction s as [|c s IH]; [reflexivity|].
  cbn [trimEnd]. destruct (trimEnd s) as [|k kept] eqn:K.
  - destruct (isSpace c) eqn:E.
    + rewrite (ink_space c s E). exact IH.
    + rewrite !(ink_solid c _ E), <- IH. reflexivity.
  - destruct (isSpace c) eqn:E.
    + rewrite !(ink_space c _ E). exact IH.
    + rewrite !(ink_solid c _ E), IH. reflexivity.
Qed.

Lemma ink_trim (s : str) : ink (trim s) = ink s.
Proof. unfold trim. rewrite ink_trimEnd. apply ink_trimStart. Qed.

Lemma trimStart_blank (s : str) : ink s = [] -> trimStart s = [].
Proof.
  unfold trimStart. induction s as [|c s IH]; [reflexivity|].
  destruct (isSpace c) eqn:E.
  - rewrite (ink_space c s E). cbn [dropWhile]. rewrite E. exact IH.
  - rewrite (ink_solid c s E). discriminate.
Qed.

Lemma trim_nil (s : str) : trim s = [] <-> ink s = [].
Proof.
  split; intros H.
  - rewrite <- ink_trim, H. reflexivity.
  - unfold trim. rewrite (trimStart_blank s H). reflexivity.
Qed.

Lemma length_trimStart (s : str) : (length (trimStart s) <= length s)%nat.
Proof.
  unfold trimStart. induction s as [|c s IH]; [cbn; lia|].
  cbn [dropWhile]. destruct (isSpace c); cbn [length]; lia.
Qed.

Lemma length_trimEnd (s : str) : (length (trimEnd s) <= length s)%nat.
Proof.
  induction s as [|c s IH]; [cbn; lia|].
  cbn [trimEnd]. destruct (trimEnd s) as [|k kept].
  - destruct (isSpace c); cbn [length]; lia.
  - cbn [length] in *. lia.
Qed.

Lemma len_trim (s : str) : len (trim s) <= len s.
Proof.
  unfold len, trim.
  pose proof (length_trimEnd (trimStart s)). pose proof (length_trimStart s).
  lia.
Qed.

Lemma trimStart_solid (c : ascii) (s : str) :
  isSpace c = false -> trimStart (c :: s) = c :: s.
Proof. intros H. unfold trimStart. cbn [dropWhile]. rewrite H. reflexivity. Qed.

Lemma trimStart_head (s : str) :
  trimStart s = s -> s = [] \/ exists c s', s = c :: s' /\ isSpace c = false.
Proof.
  destruct s as [|c s']; [left; reflexivity|]. intros H. right.
  exists c, s'. split; [reflexivity|].
  destruct (isSpace c) eqn:E; [|reflexivity].
  exfalso. unfold trimStart in H. cbn [dropWhile] in H. rewrite E in H.
  pose proof (length_trimStart s') as L. unfold trimStart in L.
  rewrite H in L. cbn [length] in L. lia.
Qed.

Lemma trimEnd_idem (s : str) : trimEnd (trimEnd s) = trimEnd s.
Proof.
  induction s as [|c s IH]; [reflexivity|].
  cbn [trimEnd]. destruct (trimEnd s) as [|k kept] eqn:K.
  - destruct (isSpace c) eqn:E; [reflexivity|].
    cbn [trimEnd]. rewrite E. reflexivity.
  - change (trimEnd (c :: k :: kept)) with
      (match trimEnd (k :: kept) with
       | [] => if isSpace c then [] else [c]
       | kept' => c :: kept'
       end).
    rewrite IH. reflexivity.
Qed.

(** [trimEnd] keeps a first character that is not white space. *)
Lemma trimEnd_solid_head (c : ascii) (s : str) :
  isSpace c = false -> exists kept, trimEnd (c :: s) = c :: kept.
Proof.
  intros H. cbn [trimEnd]. destruct (trimEnd s) as [|k kept].
  - rewrite H. exists []. reflexivity.
  - exists (k :: kept). reflexivity.
Qed.

Lemma trimStart_idem (s : str) : trimStart (trimStart s) = trimStart s.
Proof.
  unfold trimStart. induction s as [|c s IH]; [reflexivity|].
  cbn [dropWhile]. destruct (isSpace c) eqn:E; [exact IH|].
  cbn [dropWhile]. rewrite E. reflexivity.
Qed.

Lemma trimStart_trimEnd (s : str) :
  trimStart s = s -> trimStart (trimEnd s) = trimEnd s.
Proof.
  intros H. destruct (trimStart_head s H) as [-> | (c & s' & -> & E)];
    [reflexivity|].
  destruct (trimEnd_solid_head c s' E) as [kept ->].
  apply trimStart_solid, E.
Qed.

Lemma trim_idem (s : str) : trim (trim s) = trim s.
Proof.
  unfold trim.
  rewrite (trimStart_trimEnd (trimStart s) (trimStart_idem s)).
  apply trimEnd_idem.
Qed.

Lemma tidy_trim (s : str) : trim s <> [] -> tidy (trim s).
Proof. intros H. split; [exact H | apply trim_idem]. Qed.

Lemma tidy_ends (s : str) :
  tidy s <-> s <> [] /\ trimStart s = s /\ trimEnd s = s.
Proof.
  split.
  - intros [Hne Ht]. split; [exact Hne|].
    assert (Hs : trimStart s = s).
    { pose proof (length_trimStart s) as L1.
      pose proof (length_trimEnd (trimStart s)) as L2.
      unfold trim in Ht. rewrite Ht in L2.
      destruct s as [|c s']; [reflexivity|].
      destruct (isSpace c) eqn:E; [|apply trimStart_solid, E].
      exfalso. unfold trimStart in L2. cbn [dropWhile] in L2. rewrite E in L2.
      pose proof (length_trimStart s') as L3. unfold trimStart in L3.
      cbn [length] in L2. lia. }
    split; [exact Hs|]. unfold trim in Ht. rewrite Hs in Ht. exact Ht.
  - intros (Hne & Hs & He). split; [exact Hne|].
    unfold trim. rewrite Hs. exact He.
Qed.

Lemma trimEnd_app (a b : str) :
  b <> [] -> trimEnd b = b -> trimEnd (a ++ b) = a ++ b.
Proof.
  intros Hne Hb. induction a as [|c a IH]; [exact Hb|].
  cbn [app trimEnd]. rewrite IH.
  destruct (a ++ b) eqn:E; [|reflexivity].
  apply app_eq_nil in E. destruct E as [_ E]. contradiction.
Qed.

(** Joining two tidy strings with any separator gives a tidy string. *)
Lemma tidy_join (a sep b : str) : tidy a -> tidy b -> tidy (a ++ sep ++ b).
Proof.
  intros Ha Hb. apply tidy_ends in Ha, Hb.
  destruct Ha as (Ha & Hs & _), Hb as (Hb & _ & He).
  apply tidy_ends. split; [|split].
  - intros E. apply app_eq_nil in E. destruct E as [E _]. contradiction.
  - destruct (trimStart_head a Hs) as [-> | (c & a' & -> & E)];
      [contradiction|].
    cbn [app]. apply trimStart_solid, E.
  - rewrite app_assoc. apply trimEnd_app; assumption.
Qed.

Lemma tidy_ink (s : str) : tidy s -> ink s <> [].
Proof.
  intros [Hne Ht] E. apply trim_nil in E. rewrite Ht in E. contradiction.
Qed.

End TrimFacts.

Module SplitFacts.
Import JsFacts SegmentNotions TrimFacts.

Lemma reverse_rev {A} (l : list A) : reverse l = rev l.
Proof. unfold reverse. rewrite rev_append_rev. apply app_nil_r. Qed.

(** Splitting at white space keeps every other character, in order. *)
Lemma splitGo_ink (m : option ascii -> str -> option nat) :
  whiteOnly m ->
  forall s prev skip cur,
    forallb isSpace (firstn skip s) = true ->
    ink (concat (splitGo m prev skip cur s)) = ink (rev cur ++ s).
Proof.
  intros Hm. induction s as [|c s IH]; intros prev skip cur Hskip.
  - cbn [splitGo concat]. rewrite reverse_rev. reflexivity.
  - cbn [splitGo]. destruct skip as [|k].
    + destruct (m prev (c :: s)) as [[|k]|] eqn:E.
      * rewrite IH by reflexivity. cbn [rev]. rewrite <- app_assoc. reflexivity.
      * apply Hm in E. cbn [firstn forallb] in E.
        apply andb_prop in E. destruct E as [Ec Ek].
        cbn [concat]. rewrite ink_app, (IH _ k [] Ek), reverse_rev.
        cbn [rev app]. rewrite (ink_app (rev cur)), (ink_space c s Ec).
        reflexivity.
      * rewrite IH by reflexivity. cbn [rev]. rewrite <- app_assoc. reflexivity.
    + cbn [firstn forallb] in Hskip.
      apply andb_prop in Hskip. destruct Hskip as [Ec Ek].
      rewrite (IH _ k cur Ek), !ink_app, (ink_space c s Ec). reflexivity.
Qed.

Lemma splitRegex_ink (m : option ascii -> str -> option nat) (s : str) :
  whiteOnly m -> ink (concat (splitRegex m s)) = ink s.
Proof. intros Hm. unfold splitRegex. rewrite (splitGo_ink m Hm) by reflexivity. reflexivity. Qed.

Lemma forallb_firstn_takeWhile (p : ascii -> bool) (l : str) :
  forall k, (k <= length (takeWhile p l))%nat ->
            forallb p (firstn k l) = true.
Proof.
  induction l as [|x l IH]; intros k Hk.
  - destruct k; reflexivity.
  - destruct k as [|k]; [reflexivity|].
    cbn [takeWhile] in Hk. destruct (p x) eqn:E; cbn [length] in Hk; [|lia].
    cbn [firstn forallb]. rewrite E. apply IH. lia.
Qed.

Lemma uptoLastNewline_length (ws : str) (k : nat) :
  uptoLastNewline ws = Some k -> (k <= length ws)%nat.
Proof.
  revert k. induction ws as [|c ws IH]; intros k H; [discriminate|].
  cbn [uptoLastNewline] in H. destruct (uptoLastNewline ws) as [j|].
  - injection H as <-. specialize (IH j eq_refl). cbn [length]. lia.
  - destruct (Ascii.eqb c nl); [|discriminate]. injection H as <-.
    cbn [length]. lia.
Qed.

Lemma nl_isSpace (c : ascii) : Ascii.eqb c nl = true -> isSpace c = true.
Proof. intros H. apply Ascii.eqb_eq in H. subst c. reflexivity. Qed.

Lemma PARAGRAPH_SPLIT_white : whiteOnly PARAGRAPH_SPLIT.
Proof.
  intros prev s k H. unfold PARAGRAPH_SPLIT in H.
  destruct s as [|c rest]; [discriminate|].
  destruct (Ascii.eqb c nl) eqn:E; [|discriminate].
  destruct (uptoLastNewline (takeWhile isSpace rest)) as [j|] eqn:U;
    [|discriminate].
  injection H as <-. cbn [firstn forallb]. rewrite (nl_isSpace c E).
  apply forallb_firstn_takeWhile, uptoLastNewline_length, U.
Qed.

Lemma WHITESPACE_RUN_white : whiteOnly WHITESPACE_RUN.
Proof.
  intros prev s k H. unfold WHITESPACE_RUN in H.
  destruct (length (takeWhile isSpace s)) as [|n] eqn:L; [discriminate|].
  injection H as <-. apply forallb_firstn_takeWhile. lia.
Qed.

Lemma SENTENCE_SPLIT_white : whiteOnly SENTENCE_SPLIT.
Proof.
  intros prev s k H. unfold SENTENCE_SPLIT in H.
  destruct prev as [p|]; [|discriminate].
  destruct (isSentenceEnd p); [|discriminate].
  exact (WHITESPACE_RUN_white _ _ _ H).
Qed.

(** The pieces of a split at runs of white space hold no white space. *)
Lemma splitGo_words (s : str) :
  forall prev skip cur,
    forallb solid cur = true ->
    Forall (fun w => forallb solid w = true)
      (splitGo WHITESPACE_RUN prev skip cur s).
Proof.
  assert (Hrev : forall cur, forallb solid cur = true ->
                             forallb solid (reverse cur) = true).
  { intros cur H. rewrite reverse_rev. rewrite forallb_forall in *.
    intros x Hx. apply H, in_rev, Hx. }
  induction s as [|c s IH]; intros prev skip cur Hcur; cbn [splitGo].
  - constructor; [apply Hrev, Hcur | constructor].
  - destruct skip as [|k]; [|apply IH, Hcur].
    destruct (WHITESPACE_RUN prev (c :: s)) as [[|k]|] eqn:E.
    + unfold WHITESPACE_RUN in E.
      destruct (length (takeWhile isSpace (c :: s))); discriminate.
    + constructor; [apply Hrev, Hcur | apply IH; reflexivity].
    + apply IH. cbn [forallb]. rewrite Hcur, andb_true_r.
      unfold WHITESPACE_RUN in E. cbn [takeWhile] in E.
      unfold solid. destruct (isSpace c); [discriminate | reflexivity].
Qed.

Lemma solid_ink (w : str) : forallb solid w = true -> ink w = w.
Proof.
  intros H. unfold ink. induction w as [|c w IH]; [reflexivity|].
  cbn [forallb] in H. apply andb_prop in H. destruct H as [Hc Hw].
  cbn [filter]. rewrite Hc, (IH Hw). reflexivity.
Qed.

End SplitFacts.

(* ================================================================== *)
(** ** Facts about [indexOf]                                           *)
(* ================================================================== *)

Module SearchFacts.
Import JsFacts SegmentNotions.

Lemma indexOfFrom_found (needle : str) :
  forall s pos,
    0 <= pos ->
    0 <= indexOfFrom needle s pos ->
    exists before after,
      s = before ++ needle ++ after /\
      indexOfFrom needle s pos = pos + len before.
Proof.
  induction s as [|c s IH]; intros pos Hpos H.
  - cbn [indexOfFrom] in *. destruct (startsWith needle []) eqn:E; [|lia].
    apply startsWith_prefix in E. destruct E as [t E].
    exists [], t. split; [exact E | cbn; lia].
  - cbn [indexOfFrom] in *. destruct (startsWith needle (c :: s)) eqn:E.
    + apply startsWith_prefix in E. destruct E as [t E].
      exists [], t. split; [exact E | cbn; lia].
    + destruct (IH (pos + 1) ltac:(lia) H) as (before & after & Hs & Hk).
      exists (c :: before), after. split; [rewrite Hs; reflexivity|].
      rewrite Hk, len_cons. lia.
Qed.

Lemma indexOfFrom_none (needle : str) :
  forall s pos,
    0 <= pos ->
    indexOfFrom needle s pos = -1 ->
    forall before after, s <> before ++ needle ++ after.
Proof.
  induction s as [|c s IH]; intros pos Hpos H before after Hs.
  - cbn [indexOfFrom] in H. destruct (startsWith needle []) eqn:E; [lia|].
    symmetry in Hs. apply app_eq_nil in Hs. destruct Hs as [_ Hs].
    apply app_eq_nil in Hs. destruct Hs as [-> _]. discriminate E.
  - cbn [indexOfFrom] in H. destruct (startsWith needle (c :: s)) eqn:E; [lia|].
    destruct before as [|b before].
    + assert (startsWith needle (c :: s) = true)
        by (apply startsWith_prefix; exists after; exact Hs).
      congruence.
    + injection Hs as _ Hs. exact (IH (pos + 1) ltac:(lia) H before after Hs).
Qed.

Lemma indexOf_found (s needle : str) (from : Z) :
  0 <= indexOf s needle from -> occursAt s needle (indexOf s needle from).
Proof.
  unfold indexOf. set (k := Z.min (Z.max from 0) (len s)). intros H.
  pose proof (len_nonneg s) as Hs.
  destruct (indexOfFrom_found needle _ k ltac:(lia) H)
    as (before & after & Hskip & Hk).
  exists (firstn (Z.to_nat k) s ++ before), after. split.
  - rewrite <- app_assoc, <- Hskip. symmetry. apply firstn_skipn.
  - rewrite Hk, len_app. unfold len at 1. rewrite length_firstn.
    unfold len in *. lia.
Qed.

Lemma indexOf_none (s needle : str) (from p : Z) :
  indexOf s needle from = -1 -> from <= p -> ~ occursAt s needle p.
Proof.
  unfold indexOf. set (k := Z.min (Z.max from 0) (len s)).
  intros H Hp (before & after & Hs & Hlen).
  pose proof (len_nonneg s) as Hn. pose proof (len_nonneg before) as Hb.
  assert (Hk : (Z.to_nat k <= length before)%nat) by (unfold len in *; lia).
  apply (indexOfFrom_none needle _ k ltac:(lia) H
           (skipn (Z.to_nat k) before) after).
  rewrite Hs, skipn_app.
  replace (Z.to_nat k - length before)%nat with 0%nat by lia.
  reflexivity.
Qed.

Lemma occursAt_slice (s needle : str) (p : Z) :
  occursAt s needle p -> slice s p (p + len needle) = needle.
Proof.
  intros (before & after & -> & Hp).
  pose proof (len_nonneg before). pose proof (len_nonneg needle).
  pose proof (len_nonneg after).
  unfold slice, relIndex.
  change (Z.of_nat (length (before ++ needle ++ after)))
    with (len (before ++ needle ++ after)).
  rewrite !len_app.
  destruct (p <? 0) eqn:E1; [apply Z.ltb_lt in E1; lia|].
  destruct (p + len needle <? 0) eqn:E2; [apply Z.ltb_lt in E2; lia|].
  rewrite !Z.min_l by lia.
  replace (Z.to_nat p) with (length before) by (unfold len in Hp; lia).
  replace (Z.to_nat (p + len needle - p)) with (length needle)
    by (unfold len; lia).
  rewrite skipn_app, skipn_all, Nat.sub_diag. cbn [app skipn].
  rewrite firstn_app, firstn_all, Nat.sub_diag. cbn [firstn].
  apply app_nil_r.
Qed.

End SearchFacts.

(* ================================================================== *)
(** ** Invariants of the segmentation loops                            *)
(* ================================================================== *)

Module SegmentFacts.
Import JsFacts Chunker ChunkerNotions SegmentNotions TrimFacts SplitFacts.

Lemma nonBlank_trim (p : str) : nonBlank p = true <-> trim p <> [].
Proof.
  unfold nonBlank. destruct (trim p); cbn; split; congruence.
Qed.

Lemma nonBlank_false (p : str) : nonBlank p = false -> ink p = [].
Proof.
  intros H. apply trim_nil. unfold nonBlank in H.
  destruct (trim p); [reflexivity | discriminate].
Qed.

Lemma positive_len (s : str) : (0 <? len s) = true <-> s <> [].
Proof.
  destruct s as [|c s]; [cbn; split; congruence|].
  split; [discriminate|]. intros _. apply Z.ltb_lt.
  rewrite len_cons. pose proof (len_nonneg s). lia.
Qed.

Lemma positive_len_false (s : str) : (0 <? len s) = false <-> s = [].
Proof.
  destruct s as [|c s]; [cbn; split; congruence|].
  split; [|discriminate]. intros H. apply Z.ltb_ge in H.
  rewrite len_cons in H. pose proof (len_nonneg s). lia.
Qed.

Lemma ink_concat_app (a b : list str) :
  ink (concat (a ++ b)) = ink (concat a) ++ ink (concat b).
Proof. rewrite concat_app. apply ink_app. Qed.

Lemma ink_concat_filter (keep : str -> bool) (pieces : list str) :
  (forall p, keep p = false -> ink p = []) ->
  ink (concat (filter keep pieces)) = ink (concat pieces).
Proof.
  intros H. induction pieces as [|p pieces IH]; [reflexivity|].
  cbn [filter concat]. destruct (keep p) eqn:E.
  - cbn [concat]. rewrite !ink_app, IH. reflexivity.
  - rewrite ink_app, (H p E), IH. reflexivity.
Qed.

(** *** Nothing but white space is lost *)

Lemma packSentences_ink (maxSize : Z) (sentences : list str) :
  forall current raw,
    ink (concat (packSentences maxSize sentences current raw))
      = ink (concat raw) ++ ink current ++ ink (concat sentences).
Proof.
  induction sentences as [|sentence rest IH]; intros current raw;
    cbn [packSentences].
  - cbn [concat]. change (ink []) with (@nil ascii). rewrite app_nil_r.
    destruct (0 <? len current) eqn:E.
    + rewrite ink_concat_app. cbn [concat]. rewrite app_nil_r. reflexivity.
    + apply positive_len_false in E. subst current.
      change (ink []) with (@nil ascii). rewrite app_nil_r. reflexivity.
  - cbn [concat]. rewrite (ink_app sentence), <- (ink_trim sentence).
    destruct ((maxSize <? len current + len (trim sentence) + 1)
              && (0 <? len current)).
    + rewrite IH, ink_concat_app. cbn [concat]. rewrite app_nil_r.
      rewrite <- !app_assoc. reflexivity.
    + rewrite IH. f_equal. destruct (0 <? len current) eqn:E.
      * rewrite !ink_app. change (ink [sp]) with (@nil ascii).
        cbn [app]. rewrite <- !app_assoc. reflexivity.
      * apply positive_len_false in E. subst current. reflexivity.
Qed.

Lemma breakParagraphs_ink (maxSize : Z) (paragraphs : list str) :
  forall raw,
    ink (concat (breakParagraphs maxSize paragraphs raw))
      = ink (concat raw) ++ ink (concat paragraphs).
Proof.
  induction paragraphs as [|para rest IH]; intros raw;
    cbn [breakParagraphs concat].
  - change (ink []) with (@nil ascii). rewrite app_nil_r. reflexivity.
  - rewrite (ink_app para). destruct (len para <=? maxSize).
    + rewrite IH, ink_concat_app. cbn [concat]. rewrite app_nil_r, ink_trim.
      rewrite <- app_assoc. reflexivity.
    + rewrite IH, packSentences_ink.
      rewrite (ink_concat_filter nonBlank _ nonBlank_false).
      rewrite (splitRegex_ink _ para SENTENCE_SPLIT_white).
      change (ink []) with (@nil ascii). cbn [app].
      rewrite <- app_assoc. reflexivity.
Qed.

Lemma mergeSegments_ink (maxSize : Z) (raw : list str) :
  forall buffer merged,
    ink (concat (mergeSegments maxSize raw buffer merged))
      = ink (concat merged) ++ ink buffer ++ ink (concat raw).
Proof.
  induction raw as [|seg rest IH]; intros buffer merged; cbn [mergeSegments].
  - cbn [concat]. change (ink []) with (@nil ascii). rewrite app_nil_r.
    destruct (0 <? len buffer) eqn:E.
    + rewrite ink_concat_app. cbn [concat]. rewrite app_nil_r. reflexivity.
    + apply positive_len_false in E. subst buffer.
      change (ink []) with (@nil ascii). rewrite app_nil_r. reflexivity.
  - cbn [concat]. rewrite (ink_app seg).
    destruct ((maxSize <? len buffer + len seg + 2) && (0 <? len buffer)).
    + rewrite IH, ink_concat_app. cbn [concat]. rewrite app_nil_r.
      rewrite <- !app_assoc. reflexivity.
    + rewrite IH. f_equal. destruct (0 <? len buffer) eqn:E.
      * rewrite !ink_app. change (ink [nl; nl]) with (@nil ascii).
        cbn [app]. rewrite <- !app_assoc. reflexivity.
      * apply positive_len_false in E. subst buffer. reflexivity.
Qed.

Lemma splitIntoSegments_ink (text : str) (maxSize : Z) :
  ink (concat (splitIntoSegments text maxSize)) = ink text.
Proof.
  unfold splitIntoSegments.
  rewrite mergeSegments_ink, breakParagraphs_ink.
  rewrite (ink_concat_filter nonBlank _ nonBlank_false).
  rewrite (splitRegex_ink _ text PARAGRAPH_SPLIT_white). reflexivity.
Qed.

(** *** Every segment is tidy *)

Lemma Forall_snoc {A} (P : A -> Prop) (l : list A) (x : A) :
  Forall P l -> P x -> Forall P (l ++ [x]).
Proof. intros Hl Hx. apply Forall_app. split; [exact Hl | constructor; [exact Hx | constructor]]. Qed.

Lemma packSentences_tidy (maxSize : Z) (sentences : list str) :
  forall current raw,
    Forall (fun s => nonBlank s = true) sentences ->
    current = [] \/ tidy current ->
    Forall tidy raw ->
    Forall tidy (packSentences maxSize sentences current raw).
Proof.
  induction sentences as [|sentence rest IH]; intros current raw Hs Hc Hr;
    cbn [packSentences].
  - destruct (0 <? len current) eqn:E; [|exact Hr].
    apply positive_len in E. apply Forall_snoc; [exact Hr|].
    destruct Hc; [contradiction | assumption].
  - inversion Hs as [|? ? Hb Hs']; subst.
    assert (Ht : tidy (trim sentence)) by (apply tidy_trim, nonBlank_trim, Hb).
    destruct ((maxSize <? len current + len (trim sentence) + 1)
              && (0 <? len current)) eqn:E.
    + apply andb_prop in E. destruct E as [_ E]. apply positive_len in E.
      apply IH; [exact Hs' | right; exact Ht |].
      apply Forall_snoc; [exact Hr|]. destruct Hc; [contradiction | assumption].
    + apply IH; [exact Hs' | | exact Hr]. right.
      destruct (0 <? len current) eqn:E0; [|exact Ht].
      apply positive_len in E0. apply tidy_join; [|exact Ht].
      destruct Hc; [contradiction | assumption].
Qed.

Lemma filter_Forall {A} (p : A -> bool) (l : list A) :
  Forall (fun x => p x = true) (filter p l).
Proof. apply Forall_forall. intros x Hx. apply filter_In in Hx. apply Hx. Qed.

Lemma breakParagraphs_tidy (maxSize : Z) (paragraphs : list str) :
  forall raw,
    Forall (fun p => nonBlank p = true) paragraphs ->
    Forall tidy raw ->
    Forall tidy (breakParagraphs maxSize paragraphs raw).
Proof.
  induction paragraphs as [|para rest IH]; intros raw Hp Hr;
    cbn [breakParagraphs]; [exact Hr|].
  inversion Hp as [|? ? Hb Hp']; subst.
  destruct (len para <=? maxSize).
  - apply IH; [exact Hp'|]. apply Forall_snoc; [exact Hr|].
    apply tidy_trim, nonBlank_trim, Hb.
  - apply IH; [exact Hp'|].
    apply packSentences_tidy; [apply filter_Forall | left; reflexivity | exact Hr].
Qed.

Lemma mergeSegments_tidy (maxSize : Z) (raw : list str) :
  forall buffer merged,
    Forall tidy raw ->
    buffer = [] \/ tidy buffer ->
    Forall tidy merged ->
    Forall tidy (mergeSegments maxSize raw buffer merged).
Proof.
  induction raw as [|seg rest IH]; intros buffer merged Hr Hb Hm;
    cbn [mergeSegments].
  - destruct (0 <? len buffer) eqn:E; [|exact Hm].
    apply positive_len in E. apply Forall_snoc; [exact Hm|].
    destruct Hb; [contradiction | assumption].
  - inversion Hr as [|? ? Hseg Hr']; subst.
    destruct ((maxSize <? len buffer + len seg + 2) && (0 <? len buffer)) eqn:E.
    + apply andb_prop in E. destruct E as [_ E]. apply positive_len in E.
      apply IH; [exact Hr' | right; exact Hseg |].
      apply Forall_snoc; [exact Hm|]. destruct Hb; [contradiction | assumption].
    + apply IH; [exact Hr' | | exact Hm]. right.
      destruct (0 <? len buffer) eqn:E0; [|exact Hseg].
      apply positive_len in E0. apply tidy_join; [|exact Hseg].
      destruct Hb; [contradiction | assumption].
Qed.

Lemma splitIntoSegments_tidy (text : str) (maxSize : Z) :
  Forall tidy (splitIntoSegments text maxSize).
Proof.
  unfold splitIntoSegments.
  apply mergeSegments_tidy; [|left; reflexivity | constructor].
  apply breakParagraphs_tidy; [apply filter_Forall | constructor].
Qed.

(** *** The size of a segment *)

Section Sized.

Variable maxSize : Z.
Variable lone : str -> Prop.

Lemma packSentences_sized (sentences : list str) :
  forall current raw,
    Forall (fun s => lone (trim s)) sentences ->
    current = [] \/ (len current <= maxSize \/ lone current) ->
    Forall (fun s => len s <= maxSize \/ lone s) raw ->
    Forall (fun s => len s <= maxSize \/ lone s) (packSentences maxSize sentences current raw).
Proof.
  induction sentences as [|sentence rest IH]; intros current raw Hs Hc Hr;
    cbn [packSentences].
  - destruct (0 <? len current) eqn:E; [|exact Hr].
    apply positive_len in E. apply Forall_snoc; [exact Hr|].
    destruct Hc; [contradiction | assumption].
  - inversion Hs as [|? ? Hl Hs']; subst.
    destruct ((maxSize <? len current + len (trim sentence) + 1)
              && (0 <? len current)) eqn:E.
    + apply andb_prop in E. destruct E as [_ E]. apply positive_len in E.
      apply IH; [exact Hs' | right; right; exact Hl |].
      apply Forall_snoc; [exact Hr|]. destruct Hc; [contradiction | assumption].
    + apply IH; [exact Hs' | | exact Hr]. right.
      destruct (0 <? len current) eqn:E0; [|right; exact Hl].
      rewrite andb_true_r in E. apply Z.ltb_ge in E.
      left. rewrite !len_app. change (len [sp]) with 1. lia.
Qed.

Lemma mergeSegments_sized (raw : list str) :
  forall buffer merged,
    Forall (fun s => len s <= maxSize \/ lone s) raw ->
    buffer = [] \/ (len buffer <= maxSize \/ lone buffer) ->
    Forall (fun s => len s <= maxSize \/ lone s) merged ->
    Forall (fun s => len s <= maxSize \/ lone s) (mergeSegments maxSize raw buffer merged).
Proof.
  induction raw as [|seg rest IH]; intros buffer merged Hr Hb Hm;
    cbn [mergeSegments].
  - destruct (0 <? len buffer) eqn:E; [|exact Hm].
    apply positive_len in E. apply Forall_snoc; [exact Hm|].
    destruct Hb; [contradiction | assumption].
  - inversion Hr as [|? ? Hseg Hr']; subst.
    destruct ((maxSize <? len buffer + len seg + 2) && (0 <? len buffer)) eqn:E.
    + apply andb_prop in E. destruct E as [_ E]. apply positive_len in E.
      apply IH; [exact Hr' | right; exact Hseg |].
      apply Forall_snoc; [exact Hm|]. destruct Hb; [contradiction | assumption].
    + apply IH; [exact Hr' | | exact Hm]. right.
      destruct (0 <? len buffer) eqn:E0; [|exact Hseg].
      rewrite andb_true_r in E. apply Z.ltb_ge in E.
      left. rewrite !len_app. change (len [nl; nl]) with 2. lia.
Qed.

End Sized.

Lemma breakParagraphs_sized (text : str) (maxSize : Z)
    (paragraphs : list str) :
  forall raw,
    incl paragraphs (splitRegex PARAGRAPH_SPLIT text) ->
    Forall (fun s => len s <= maxSize \/ loneSentence text maxSize s) raw ->
    Forall (fun s => len s <= maxSize \/ loneSentence text maxSize s)
      (breakParagraphs maxSize paragraphs raw).
Proof.
  induction paragraphs as [|para rest IH]; intros raw Hp Hr;
    cbn [breakParagraphs]; [exact Hr|].
  assert (Hin : In para (splitRegex PARAGRAPH_SPLIT text))
    by (apply Hp; left; reflexivity).
  assert (Hp' : incl rest (splitRegex PARAGRAPH_SPLIT text))
    by (intros x Hx; apply Hp; right; exact Hx).
  destruct (len para <=? maxSize) eqn:E.
  - apply IH; [exact Hp'|]. apply Forall_snoc; [exact Hr|].
    left. apply Z.leb_le in E. pose proof (len_trim para). lia.
  - apply IH; [exact Hp'|]. apply Z.leb_gt in E.
    apply packSentences_sized; [| left; reflexivity | exact Hr].
    apply Forall_forall. intros sentence Hs. apply filter_In in Hs.
    exists para, sentence. split; [exact Hin|]. split; [exact E|].
    split; [apply Hs | reflexivity].
Qed.

Lemma splitIntoSegments_sized (text : str) (maxSize : Z) :
  Forall (fun s => len s <= maxSize \/ loneSentence text maxSize s)
    (splitIntoSegments text maxSize).
Proof.
  unfold splitIntoSegments.
  apply mergeSegments_sized; [|left; reflexivity | constructor].
  apply breakParagraphs_sized; [|constructor].
  intros p Hp. apply filter_In in Hp. apply Hp.
Qed.

(** *** The overlap prefix *)

Lemma len_slice_le {A} (s : list A) (a b : Z) :
  Z.of_nat (length (slice s a b)) <= Z.of_nat (length s).
Proof.
  unfold slice. rewrite length_firstn, length_skipn. lia.
Qed.

Lemma len_sliceFrom_neg (s : str) (n : Z) :
  0 < n -> len (sliceFrom s (- n)) <= n.
Proof.
  intros Hn. unfold sliceFrom, slice, relIndex, len.
  rewrite length_firstn, length_skipn.
  destruct (- n <? 0) eqn:E; [|apply Z.ltb_ge in E; lia].
  destruct (Z.of_nat (length s) <? 0) eqn:E2; [apply Z.ltb_lt in E2; lia|].
  lia.
Qed.

Lemma len_cleanOverlap (prev : str) (overlap : Z) :
  0 < overlap -> len (cleanOverlap prev overlap) <= overlap.
Proof.
  intros H. unfold cleanOverlap.
  pose proof (len_sliceFrom_neg prev overlap H) as L.
  destruct (0 <? indexOf (sliceFrom prev (- overlap)) [sp] 0); [|exact L].
  pose proof (len_slice_le (sliceFrom prev (- overlap))
                (indexOf (sliceFrom prev (- overlap)) [sp] 0 + 1)
                (Z.of_nat (length (sliceFrom prev (- overlap))))) as L2.
  unfold sliceFrom at 1. unfold len in *. lia.
Qed.

End SegmentFacts.

(* ================================================================== *)
(** ** Properties of [chunkText] and [analyzeText]                     *)
(* ================================================================== *)

Module ChunkerProperties.
Import JsFacts Chunker ChunkerNotions ChunkerFacts SegmentNotions TrimFacts
  SplitFacts SearchFacts SegmentFacts Scenario.

Lemma Forall2_map_text {B} (R : str -> B -> Prop) (chunks : list Chunk)
    (l : list B) :
  Forall2 R (map Chunker.text chunks) l ->
  Forall2 (fun c x => R (Chunker.text c) x) chunks l.
Proof.
  revert l. induction chunks as [|c chunks IH]; intros l H;
    inversion H; subst; constructor; auto.
Qed.

Lemma Forall2_right {A B} (R : A -> B -> Prop) (P : B -> Prop)
    (l : list A) (l' : list B) :
  Forall2 R l l' -> Forall P l' -> Forall2 (fun a b => P b /\ R a b) l l'.
Proof.
  induction 1 as [|a b l l' Hab _ IH]; intros HP; [constructor|].
  inversion HP; subst. constructor; auto.
Qed.

Lemma Forall2_refl_on {A} (R : A -> A -> Prop) (l : list A) :
  (forall a, R a a) -> Forall2 R l l.
Proof. intros H. induction l; constructor; auto. Qed.

Lemma overlapLoop_prefix (overlap : Z) (rest : list str) :
  0 < overlap ->
  forall prev,
    Forall2 (fun t canonical =>
               exists prefix, t = prefix ++ canonical /\
                              len prefix <= overlap + 1)
      (overlapLoop overlap prev rest) rest.
Proof.
  intros Ho. induction rest as [|seg rest IH]; intros prev;
    cbn [overlapLoop]; constructor; [|apply IH].
  exists (cleanOverlap prev overlap ++ [sp]). split.
  - rewrite <- app_assoc. reflexivity.
  - rewrite len_app. change (len [sp]) with 1.
    pose proof (len_cleanOverlap prev overlap Ho). lia.
Qed.

Lemma applyOverlap_prefix (segments : list str) (overlap : Z) :
  Forall2 (fun t canonical =>
             exists prefix, t = prefix ++ canonical /\
                            len prefix <= slack overlap)
    (applyOverlap segments overlap) segments.
Proof.
  assert (Hid : Forall2 (fun t canonical : str =>
             exists prefix, t = prefix ++ canonical /\
                            len prefix <= slack overlap) segments segments).
  { apply Forall2_refl_on. intros a. exists []. split; [reflexivity|].
    unfold slack. destruct (0 <? overlap) eqn:E; [apply Z.ltb_lt in E|];
      cbn; lia. }
  unfold applyOverlap.
  destruct ((overlap <=? 0) || (length segments <=? 1)%nat) eqn:E;
    [exact Hid|].
  apply orb_false_elim in E. destruct E as [E _]. apply Z.leb_gt in E.
  destruct segments as [|first rest]; [constructor|].
  constructor.
  - exists []. split; [reflexivity|]. unfold slack.
    destruct (0 <? overlap); cbn; lia.
  - unfold slack. apply Z.ltb_lt in E. rewrite E. apply Z.ltb_lt in E.
    apply overlapLoop_prefix, E.
Qed.

Lemma inked_nil (l : list str) :
  Forall (fun s => ink s <> []) l -> l = [] <-> ink (concat l) = [].
Proof.
  intros H. split; [intros ->; reflexivity|].
  destruct l as [|s l]; [reflexivity|]. intros E.
  inversion H as [|? ? Hs _]; subst. cbn [concat] in E. rewrite ink_app in E.
  apply app_eq_nil in E. destruct E as [E _]. contradiction.
Qed.

Section WithDigest.

Variable sha256 : str -> str.

Lemma assignPositions_shape (text : str) :
  forall overlapped segments i searchFrom,
    length overlapped = length segments ->
    map index (assignPositions sha256 text overlapped segments i searchFrom)
      = seq i (length segments) /\
    map Chunker.text
        (assignPositions sha256 text overlapped segments i searchFrom)
      = overlapped /\
    Forall (fun c => hash c = sha256 (Chunker.text c) /\
                     sectionTitle c = None /\ sectionPath c = None /\
                     contextPrefix c = None)
      (assignPositions sha256 text overlapped segments i searchFrom).
Proof.
  induction overlapped as [|t overlapped IH];
    intros [|canonical segments] i searchFrom Hlen; try discriminate Hlen.
  - cbn. auto.
  - injection Hlen as Hlen. cbn [assignPositions map length seq].
    destruct (IH segments (S i)
                (if 0 <=? indexOf text canonical searchFrom
                 then indexOf text canonical searchFrom + 1 else searchFrom)
                Hlen) as (H1 & H2 & H3).
    rewrite H1, H2. split; [reflexivity|]. split; [reflexivity|].
    constructor; [cbn; auto | exact H3].
Qed.

Lemma assignPositions_located (text : str) :
  forall overlapped segments i searchFrom,
    length overlapped = length segments ->
    Forall2 (fun c canonical =>
               slice text (start c) (end_ c) = canonical \/
               (start c = 0 /\
                forall p, end_ c <= p -> ~ occursAt text canonical p))
      (assignPositions sha256 text overlapped segments i searchFrom)
      segments.
Proof.
  induction overlapped as [|t overlapped IH];
    intros [|canonical segments] i searchFrom Hlen; try discriminate Hlen.
  - constructor.
  - injection Hlen as Hlen. cbn [assignPositions].
    constructor; [|apply IH, Hlen]. cbn [start end_].
    destruct (0 <=? indexOf text canonical searchFrom) eqn:E.
    + left. apply Z.leb_le in E. rewrite Z.max_l by exact E.
      apply occursAt_slice, indexOf_found, E.
    + right. apply Z.leb_gt in E. pose proof (len_nonneg text) as Hn.
      destruct (indexOf_range text canonical searchFrom) as [R | [R _]];
        [|lia].
      rewrite R. split; [reflexivity|].
      intros p Hp. apply (indexOf_none text canonical searchFrom p R Hp).
Qed.

(** X1. [chunkText] returns one chunk per segment of the text, numbered
    from 0 without a gap; the chunk texts are the segments after
    [applyOverlap]; every hash is the digest of the chunk's own text
    (the overlapped one), and no chunk carries section fields. *)
Theorem chunkText_numbering (text : str) (options : ChunkOptions) :
  map index (chunkText sha256 text options)
    = seq 0 (length (splitIntoSegments text (resolveMaxChunkSize options))) /\
  map Chunker.text (chunkText sha256 text options)
    = applyOverlap (splitIntoSegments text (resolveMaxChunkSize options))
        (resolveOverlap options) /\
  Forall (fun c => hash c = sha256 (Chunker.text c) /\
                   sectionTitle c = None /\ sectionPath c = None /\
                   contextPrefix c = None)
    (chunkText sha256 text options).
Proof.
  unfold chunkText. apply assignPositions_shape, applyOverlap_length.
Qed.

(** X2. The offsets of a chunk either delimit its canonical segment in
    the text ([text.slice(start, end)] is the segment), or the segment
    was not found: then [start] is 0 and the segment occurs nowhere in
    the text at or after [end]. *)
Theorem chunkText_located (text : str) (options : ChunkOptions) :
  Forall2 (fun c canonical =>
             slice text (start c) (end_ c) = canonical \/
             (start c = 0 /\
              forall p, end_ c <= p -> ~ occursAt text canonical p))
    (chunkText sha256 text options)
    (splitIntoSegments text (resolveMaxChunkSize options)).
Proof.
  unfold chunkText. apply assignPositions_located, applyOverlap_length.
Qed.

Lemma chunkText_texts (text : str) (options : ChunkOptions) :
  map Chunker.text (chunkText sha256 text options)
    = applyOverlap (splitIntoSegments text (resolveMaxChunkSize options))
        (resolveOverlap options).
Proof.
  unfold chunkText.
  apply (assignPositions_shape text _ _ 0%nat 0), applyOverlap_length.
Qed.

Lemma chunkText_length (text : str) (options : ChunkOptions) :
  length (chunkText sha256 text options)
    = length (splitIntoSegments text (resolveMaxChunkSize options)).
Proof.
  rewrite <- (length_map Chunker.text), chunkText_texts.
  apply applyOverlap_length.
Qed.

Lemma chunkText_prefix (text : str) (options : ChunkOptions) :
  Forall2 (fun c canonical =>
             exists prefix,
               Chunker.text c = prefix ++ canonical /\
               len prefix <= slack (resolveOverlap options))
    (chunkText sha256 text options)
    (splitIntoSegments text (resolveMaxChunkSize options)).
Proof.
  apply (Forall2_map_text
           (fun t canonical =>
              exists prefix, t = prefix ++ canonical /\
                             len prefix <= slack (resolveOverlap options))).
  rewrite chunkText_texts. apply applyOverlap_prefix.
Qed.

(** X3. A canonical segment is no longer than [maxChunkSize], unless it
    is a single sentence of a paragraph that is longer; a chunk's text
    is its canonical segment behind a prefix of at most [overlap + 1]
    characters (of none when [overlap] is not positive). *)
Theorem chunkText_sizes (text : str) (options : ChunkOptions) :
  Forall2 (fun c canonical =>
             (len canonical <= resolveMaxChunkSize options \/
              loneSentence text (resolveMaxChunkSize options) canonical) /\
             exists prefix,
               Chunker.text c = prefix ++ canonical /\
               len prefix <= slack (resolveOverlap options))
    (chunkText sha256 text options)
    (splitIntoSegments text (resolveMaxChunkSize options)).
Proof.
  apply Forall2_right; [apply chunkText_prefix | apply splitIntoSegments_sized].
Qed.

(** X4. Every canonical segment is non-empty and starts and ends with a
    character that is not white space; every chunk text is non-empty
    and ends with such a character. *)
Theorem chunk_texts_tidy (text : str) (options : ChunkOptions) :
  Forall2 (fun c canonical =>
             tidy canonical /\
             Chunker.text c <> [] /\
             trimEnd (Chunker.text c) = Chunker.text c)
    (chunkText sha256 text options)
    (splitIntoSegments text (resolveMaxChunkSize options)).
Proof.
  pose proof (chunkText_prefix text options) as H.
  revert H. generalize (chunkText sha256 text options).
  intros chunks.
  pose proof (splitIntoSegments_tidy text (resolveMaxChunkSize options)) as Ht.
  revert Ht.
  generalize (splitIntoSegments text (resolveMaxChunkSize options)).
  intros segments Ht H.
  induction H as [|c canonical chunks segments (prefix & Hc & _) _ IH];
    [constructor|].
  inversion Ht as [|? ? Htidy Ht']; subst.
  constructor; [|apply IH, Ht'].
  split; [exact Htidy|]. apply tidy_ends in Htidy.
  destruct Htidy as (Hne & _ & He). rewrite Hc. split.
  - intros E. apply app_eq_nil in E. destruct E as [_ E]. contradiction.
  - apply trimEnd_app; assumption.
Qed.

(** X5. Without overlap, chunking loses white space only: the
    characters of the chunk texts that are not white space are those of
    the document, in the same order. *)
Theorem chunkText_keeps_ink (text : str) (options : ChunkOptions) :
  resolveOverlap options <= 0 ->
  ink (concat (map Chunker.text (chunkText sha256 text options))) = ink text.
Proof.
  intros Ho. rewrite chunkText_texts. unfold applyOverlap.
  apply Z.leb_le in Ho. rewrite Ho. cbn [orb].
  apply splitIntoSegments_ink.
Qed.

(** X6. A document yields no chunk exactly when it holds white space
    only, and exactly then [analyzeText] counts no word, and no
    paragraph. *)
Theorem blank_text (text : str) (options : ChunkOptions) :
  (chunkText sha256 text options = [] <-> forallb isSpace text = true) /\
  (totalWords (analyzeText text) = 0%nat <-> forallb isSpace text = true) /\
  (totalParagraphs (analyzeText text) = 0%nat
     <-> forallb isSpace text = true).
Proof.
  rewrite <- !ink_nil_forallb. split; [|split].
  - rewrite <- length_zero_iff_nil, chunkText_length, length_zero_iff_nil.
    rewrite <- (splitIntoSegments_ink text (resolveMaxChunkSize options)).
    apply inked_nil.
    eapply Forall_impl; [|apply splitIntoSegments_tidy].
    intros s. apply tidy_ink.
  - unfold analyzeText. cbn [totalWords]. rewrite length_zero_iff_nil.
    rewrite <- (splitRegex_ink _ text WHITESPACE_RUN_white).
    rewrite <- (ink_concat_filter (fun w => 0 <? len w)
                  (splitRegex WHITESPACE_RUN text)).
    + apply inked_nil. apply Forall_forall. intros w Hw.
      apply filter_In in Hw. destruct Hw as [Hin Hw].
      apply positive_len in Hw.
      pose proof (splitGo_words text None 0%nat [] eq_refl) as Hs.
      rewrite Forall_forall in Hs. rewrite (solid_ink w (Hs w Hin)).
      exact Hw.
    + intros w Hw. apply positive_len_false in Hw. subst w. reflexivity.
  - unfold analyzeText. cbn [totalParagraphs]. rewrite length_zero_iff_nil.
    rewrite <- (splitRegex_ink _ text PARAGRAPH_SPLIT_white).
    rewrite <- (ink_concat_filter nonBlank _ nonBlank_false).
    apply inked_nil. apply Forall_forall. intros p Hp.
    apply filter_In in Hp. destruct Hp as [_ Hp].
    apply nonBlank_trim in Hp. intros E. apply Hp, trim_nil, E.
Qed.

End WithDigest.

Lemma chunkText_keeps_ink_witness :
  resolveOverlap S1_options <= 0 /\
  ink (concat (map Chunker.text (chunkText Sha256.sha256 S1_text S1_options)))
    = lit "Aparagraph.Another.".
Proof.
  assert (H : resolveOverlap S1_options <= 0) by (vm_compute; discriminate).
  split; [exact H|].
  exact (eq_trans (chunkText_keeps_ink Sha256.sha256 S1_text S1_options H)
                  eq_refl).
Defined.

End ChunkerProperties.

(* ================================================================== *)
(** ** Properties of heading extraction and of the fall-backs          *)
(* ================================================================== *)

Module HeadingProperties.
Import JsFacts Hierarchy HierarchyNotions HierarchyFacts SectionNotions.

Lemma splitChar_join (c : ascii) (s : str) : join [c] (splitChar c s) = s.
Proof.
  induction s as [|x s IH]; [reflexivity|].
  cbn [splitChar]. destruct (Ascii.eqb x c) eqn:E.
  - apply Ascii.eqb_eq in E. subst x.
    pose proof (splitChar_not_nil c s) as Hne.
    destruct (splitChar c s) as [|p ps] eqn:S; [contradiction|].
    change (join [c] ([] :: p :: ps)) with ([] ++ [c] ++ join [c] (p :: ps)).
    rewrite IH. reflexivity.
  - pose proof (splitChar_not_nil c s) as Hne.
    destruct (splitChar c s) as [|p ps] eqn:S; [contradiction|].
    destruct ps as [|q ps].
    + cbn [join] in *. rewrite IH. reflexivity.
    + change (join [c] ((x :: p) :: q :: ps))
        with (x :: (p ++ [c] ++ join [c] (q :: ps))).
      change (join [c] (p :: q :: ps)) with (p ++ [c] ++ join [c] (q :: ps)) in IH.
      rewrite IH. reflexivity.
Qed.

Lemma splitChar_no_sep (c : ascii) (s : str) :
  Forall (fun p => ~ In c p) (splitChar c s).
Proof.
  induction s as [|x s IH]; [constructor; [intros []|constructor]|].
  cbn [splitChar]. destruct (Ascii.eqb x c) eqn:E.
  - constructor; [intros []|exact IH].
  - destruct (splitChar c s) as [|p ps]; [constructor; [|constructor]|].
    + intros [H|[]]. subst x. rewrite Ascii.eqb_refl in E. discriminate.
    + inversion IH as [|? ? Hp Hps]; subst. constructor; [|exact Hps].
      intros [H|H]; [|exact (Hp H)].
      subst x. rewrite Ascii.eqb_refl in E. discriminate.
Qed.

Lemma spaceThenTitle_Some (s t : str) :
  spaceThenTitle s = Some t -> t = trim (dropWhile isSpace s).
Proof.
  unfold spaceThenTitle. destruct (takeWhile isSpace s); [discriminate|].
  destruct (dropWhile isSpace s) as [|b body]; [discriminate|].
  destruct (forallb _ (b :: body)); [|discriminate].
  intros H. injection H as <-. reflexivity.
Qed.

Lemma recognize_level (trimmed : str) (lvl : nat) (ttl : str) :
  recognize trimmed = Some (lvl, ttl) -> (1 <= lvl <= 6)%nat.
Proof.
  unfold recognize. destruct (matchMarkdown trimmed) as [r|] eqn:M.
  - intros H. injection H as ->. unfold matchMarkdown in M.
    destruct ((1 <=? length (takeWhile (Ascii.eqb "#"%char) trimmed))
              && (length (takeWhile (Ascii.eqb "#"%char) trimmed) <=? 6))%nat
      eqn:E; [|discriminate].
    destruct (spaceThenTitle _); [|discriminate]. injection M as <- _.
    apply andb_prop in E. destruct E as [E1 E2].
    apply Nat.leb_le in E1, E2. lia.
  - destruct (isAllCaps trimmed).
    + intros H. injection H as <- _. lia.
    + unfold matchNumbered. destruct trimmed as [|d rest]; [discriminate|].
      destruct (isDigit d); [|discriminate].
      destruct (dottedGroups (d :: rest) 0) as [groups [|c rest']];
        [discriminate|].
      destruct (Ascii.eqb c "."%char || Ascii.eqb c ")"%char)%bool;
        [|discriminate].
      destruct (spaceThenTitle rest'); [|discriminate].
      intros H. injection H as <- _. lia.
Qed.

Lemma headingLoop_lines (lines : list str) :
  forall offset prefix,
    lines <> [] ->
    Forall (fun l => ~ In nl l) lines ->
    len prefix = offset ->
    (prefix = [] \/ exists b, prefix = b ++ [nl]) ->
    Forall (fun h =>
              exists line,
                lineAt (prefix ++ join [nl] lines) (FlatHeading.offset h) line /\
                recognize (trim line)
                  = Some (FlatHeading.level h, FlatHeading.title h))
      (headingLoop lines offset).
Proof.
  induction lines as [|line rest IH]; intros offset prefix Hne Hnl Hlen Hpre;
    [contradiction|].
  inversion Hnl as [|? ? Hline Hrest]; subst.
  assert (Htail :
    Forall (fun h =>
              exists l,
                lineAt (prefix ++ join [nl] (line :: rest))
                  (FlatHeading.offset h) l /\
                recognize (trim l)
                  = Some (FlatHeading.level h, FlatHeading.title h))
      (headingLoop rest (len prefix + len line + 1))).
  { destruct rest as [|r rest]; [constructor|].
    change (join [nl] (line :: r :: rest))
      with (line ++ [nl] ++ join [nl] (r :: rest)).
    replace (prefix ++ line ++ [nl] ++ join [nl] (r :: rest))
      with ((prefix ++ line ++ [nl]) ++ join [nl] (r :: rest))
      by (rewrite <- !app_assoc; reflexivity).
    apply IH; [discriminate | exact Hrest | |].
    - rewrite !len_app. change (len [nl]) with 1. lia.
    - right. exists (prefix ++ line). rewrite <- app_assoc. reflexivity. }
  cbn [headingLoop].
  destruct (recognize (trim line)) as [[lvl ttl]|] eqn:R; [|exact Htail].
  constructor; [|exact Htail].
  exists line. cbn [FlatHeading.offset FlatHeading.level FlatHeading.title].
  split; [|exact R].
  destruct rest as [|r rest].
  - exists prefix, []. cbn [join]. rewrite app_nil_r.
    repeat split; auto.
  - exists prefix, ([nl] ++ join [nl] (r :: rest)).
    repeat split; auto. right. eexists. reflexivity.
Qed.

(** X7. Every heading that [extractHeadings] returns has a level from 1
    to 6 and was recognized on a whole line of the text, its [offset]
    being the position of that line; the offsets grow strictly. *)
Theorem extractHeadings_lines (text : str) :
  Forall (fun h =>
            (1 <= FlatHeading.level h <= 6)%nat /\
            exists line,
              lineAt text (FlatHeading.offset h) line /\
              recognize (trim line)
                = Some (FlatHeading.level h, FlatHeading.title h))
    (extractHeadings text) /\
  StronglySorted (fun a b => FlatHeading.offset a < FlatHeading.offset b)
    (extractHeadings text).
Proof.
  split.
  - pose proof (headingLoop_lines (splitChar nl text) 0 []
                  (splitChar_not_nil nl text) (splitChar_no_sep nl text)
                  eq_refl (or_introl eq_refl)) as H.
    cbn [app] in H. rewrite splitChar_join in H.
    eapply Forall_impl; [|exact H].
    intros h (line & Hl & Hr). split; [|exists line; split; assumption].
    exact (recognize_level _ _ _ Hr).
  - pose proof (extractHeadings_ascending text) as H.
    revert H. generalize (extractHeadings text), 0, (len text).
    intros flat. induction flat as [|h flat IH]; intros lo hi H;
      [constructor|].
    destruct H as [Hh Hrest]. constructor; [exact (IH _ _ Hrest)|].
    apply Forall_forall. intros x Hx.
    pose proof (ascending_In flat _ _ x Hrest Hx). lia.
Qed.

End HeadingProperties.

Module FallbackProperties.
Import JsFacts Hierarchy HierarchyNotions HierarchyFacts SectionNotions.

Lemma ceilDiv_cover (a b : Z) : 0 < b -> a <= b * ceilDiv a b.
Proof.
  intros Hb. unfold ceilDiv.
  pose proof (Z.div_mod (a + b - 1) b ltac:(lia)) as D.
  pose proof (Z.mod_pos_bound (a + b - 1) b Hb) as M. lia.
Qed.

Lemma ceilDiv_tight (a b : Z) : 0 < b -> b * ceilDiv a b <= a + b - 1.
Proof.
  intros Hb. unfold ceilDiv.
  pose proof (Z.div_mod (a + b - 1) b ltac:(lia)) as D.
  pose proof (Z.mod_pos_bound (a + b - 1) b Hb) as M. lia.
Qed.

Lemma ceilDiv_nonneg (a b : Z) : 0 <= a -> 0 < b -> 0 <= ceilDiv a b.
Proof.
  intros Ha Hb. unfold ceilDiv. apply Z.div_pos; lia.
Qed.

(** The section count and size of [positionalSections]. *)
Lemma positional_arith (n targetCount : Z) :
  0 <= n -> targetCount <= 500 ->
  let count := Z.max 1 (Z.min targetCount (ceilDiv n 500)) in
  let sectionSize := ceilDiv n count in
  1 <= count /\ 0 <= sectionSize /\
  n <= count * sectionSize /\ (count - 1) * sectionSize <= n.
Proof.
  intros Hn Ht count sectionSize.
  assert (Hc : 1 <= count) by (unfold count; lia).
  pose proof (ceilDiv_cover n count ltac:(lia)) as C1.
  pose proof (ceilDiv_tight n count ltac:(lia)) as C2.
  pose proof (ceilDiv_nonneg n count Hn ltac:(lia)) as C3.
  fold sectionSize in C1, C2, C3.
  split; [exact Hc|]. split; [exact C3|]. split; [exact C1|].
  destruct (Z.eq_dec count 1) as [E|E]; [rewrite E; lia|].
  assert (H500 : count <= 500) by (unfold count; lia).
  assert (Hceil : count <= ceilDiv n 500) by (unfold count; lia).
  pose proof (ceilDiv_tight n 500 ltac:(lia)) as T.
  assert (Hbig : 500 * (count - 1) < n) by lia.
  assert (Hsz : count <= sectionSize) by nia.
  nia.
Qed.

Lemma positional_tiles (n sectionSize : Z) (total : nat) (k : nat) :
  forall i : nat,
    0 <= sectionSize ->
    n <= Z.of_nat (i + S k) * sectionSize ->
    (Z.of_nat (i + S k) - 1) * sectionSize <= n ->
    tiles (Z.of_nat i * sectionSize) n
      (map (fun i =>
              mkNode 1 (sectionTitleOf i total)
                (Z.of_nat i * sectionSize)
                (Z.min ((Z.of_nat i + 1) * sectionSize) n) [])
           (seq i (S k))).
Proof.
  induction k as [|k IH]; intros i Hs Hhi Hlo.
  - cbn [seq map tiles startOffset endOffset].
    split; [reflexivity|]. split; [|nia]. nia.
  - change (seq i (S (S k))) with (i :: seq (S i) (S k)).
    cbn [map]. cbn [tiles startOffset endOffset].
    assert (E : Z.min ((Z.of_nat i + 1) * sectionSize) n
                = Z.of_nat (S i) * sectionSize) by nia.
    split; [reflexivity|]. split; [nia|]. rewrite E.
    apply IH; [exact Hs | |]; replace (S i + S k)%nat with (i + S (S k))%nat
      by lia; assumption.
Qed.

Lemma map_seq_ext {A} (f g : nat -> A) (k : nat) :
  forall i, (forall j, (i <= j < i + k)%nat -> f j = g j) ->
            map f (seq i k) = map g (seq i k).
Proof.
  induction k as [|k IH]; intros i H; [reflexivity|].
  cbn [seq map]. rewrite (H i) by lia. f_equal. apply IH.
  intros j Hj. apply H. lia.
Qed.

Lemma positionalSections_shape (text : str) (targetCount : Z) :
  targetCount <= 500 ->
  positionalSections text targetCount <> [] /\
  Z.of_nat (length (positionalSections text targetCount))
    <= Z.max 1 targetCount /\
  tiles 0 (len text) (positionalSections text targetCount) /\
  Forall flatSection (positionalSections text targetCount) /\
  map title (positionalSections text targetCount)
    = numberedTitles (length (positionalSections text targetCount)).
Proof.
  intros Ht. pose proof (len_nonneg text) as Hn.
  destruct (positional_arith (len text) targetCount Hn Ht)
    as (Hc & Hs & Hhi & Hlo).
  unfold positionalSections.
  set (count := Z.max 1 (Z.min targetCount (ceilDiv (len text) 500))) in *.
  set (sectionSize := ceilDiv (len text) count) in *.
  assert (Hk : exists k, Z.to_nat count = S k).
  { exists (Z.to_nat count - 1)%nat. lia. }
  destruct Hk as [k Hk]. rewrite Hk.
  assert (Hcount : count = Z.of_nat (0 + S k)) by lia.
  split; [discriminate|]. split; [|split; [|split]].
  - rewrite length_map, length_seq. unfold count. lia.
  - apply (positional_tiles (len text) sectionSize (S k) k 0%nat Hs);
      rewrite <- Hcount; assumption.
  - apply Forall_forall. intros n Hin. apply in_map_iff in Hin.
    destruct Hin as (i & <- & _). split; reflexivity.
  - rewrite map_map, length_map, length_seq. reflexivity.
Qed.

(** X8. The positional fall-back cuts the document into 1 to
    [targetCount] sections of level 1 without children, titled
    ["Section i of n"], that follow each other from offset 0 to the end
    of the text without a gap or an overlap. *)
Theorem positional_sections_tile (text : str) (targetCount : Z) :
  targetCount <= 500 ->
  positionalSections text targetCount <> [] /\
  Z.of_nat (length (positionalSections text targetCount))
    <= Z.max 1 targetCount /\
  tiles 0 (len text) (positionalSections text targetCount) /\
  Forall flatSection (positionalSections text targetCount) /\
  map title (positionalSections text targetCount)
    = numberedTitles (length (positionalSections text targetCount)).
Proof. apply positionalSections_shape. Qed.

Lemma positional_sections_tile_witness :
  5 <= 500 /\
  tiles 0 1100 (positionalSections (repeatStr (lit "x") 1100) 5) /\
  map title (positionalSections (repeatStr (lit "x") 1100) 5)
    = [lit "Section 1 of 3"; lit "Section 2 of 3"; lit "Section 3 of 3"].
Proof.
  assert (H : 5 <= 500) by (vm_compute; discriminate).
  split; [exact H|].
  pose proof (positional_sections_tile (repeatStr (lit "x") 1100) 5 H)
    as (_ & _ & T & _ & N).
  split; [exact T | exact (eq_trans N eq_refl)].
Defined.

End FallbackProperties.

Module SectionProperties.
Import JsFacts Hierarchy HierarchyNotions HierarchyFacts SectionNotions
  RunNotions FallbackProperties.

(** *** The shallowest headings *)

Lemma fold_min_spec (l : list nat) :
  forall a,
    (fold_left Nat.min l a <= a)%nat /\
    (forall x, In x l -> (fold_left Nat.min l a <= x)%nat) /\
    (fold_left Nat.min l a = a \/ In (fold_left Nat.min l a) l).
Proof.
  induction l as [|y l IH]; intros a; cbn [fold_left].
  - split; [lia|]. split; [intros x []|left; reflexivity].
  - destruct (IH (Nat.min a y)) as (H1 & H2 & H3). split; [lia|]. split.
    + intros x [<-|Hx]; [lia | exact (H2 x Hx)].
    + destruct H3 as [H3|H3]; [|right; right; exact H3].
      destruct (Nat.min_spec a y) as [[_ E]|[_ E]].
      * left. rewrite H3. exact E.
      * right. left. rewrite H3. symmetry. exact E.
Qed.

(** X9. The sections that get a summary are the headings of the least
    level among the roots, in their order: a root that is deeper than
    another root has none. *)
Theorem flattenTopLevel_shallowest (headings : list HeadingNode) :
  flattenTopLevel headings
    = filter (fun n => forallb (fun m => (level n <=? level m)%nat) headings)
        headings /\
  (flattenTopLevel headings = [] <-> headings = []).
Proof.
  destruct headings as [|h hs]; [split; [reflexivity | tauto]|].
  unfold flattenTopLevel.
  destruct (fold_min_spec (map level hs) (level h)) as (H1 & H2 & H3).
  set (minLevel := fold_left Nat.min (map level hs) (level h)) in *.
  assert (Hmin : forall m, In m (h :: hs) -> (minLevel <= level m)%nat).
  { intros m [<-|Hm]; [exact H1|]. apply H2, in_map, Hm. }
  assert (Hex : exists n, In n (h :: hs) /\ level n = minLevel).
  { destruct H3 as [H3|H3].
    - exists h. split; [left; reflexivity | symmetry; exact H3].
    - apply in_map_iff in H3. destruct H3 as (n & Hn & Hin).
      exists n. split; [right; exact Hin | exact Hn]. }
  split.
  - apply filter_ext_in. intros n Hn.
    destruct (Nat.eqb (level n) minLevel) eqn:E.
    + apply Nat.eqb_eq in E. symmetry. apply forallb_forall.
      intros m Hm. apply Nat.leb_le. rewrite E. exact (Hmin m Hm).
    + apply Nat.eqb_neq in E. symmetry.
      destruct (forallb (fun m => (level n <=? level m)%nat) (h :: hs)) eqn:F;
        [|reflexivity].
      exfalso. rewrite forallb_forall in F.
      destruct Hex as (k & Hk & Ek). specialize (F k Hk).
      apply Nat.leb_le in F. specialize (Hmin n Hn). lia.
  - split; [|discriminate]. intros E. exfalso.
    destruct Hex as (k & Hk & Ek).
    assert (In k (filter (fun n => Nat.eqb (level n) minLevel) (h :: hs))).
    { apply filter_In. split; [exact Hk | apply Nat.eqb_eq, Ek]. }
    rewrite E in H. exact H.
Qed.

(** *** Merging tiny sections *)

Lemma Subseq_refl {A} (l : list A) : Subseq l l.
Proof. induction l; constructor; assumption. Qed.

Lemma Subseq_nil_l {A} (l : list A) : Subseq [] l.
Proof. induction l; constructor; assumption. Qed.

Lemma gapsAtLeast_snoc (paragraphs : list Paragraph.t) (minSize : Z)
    (merged : list nat) (c : nat) :
  merged <> [] ->
  gapsAtLeast paragraphs minSize merged ->
  minSize <= sizeBetween paragraphs (last merged O) c ->
  gapsAtLeast paragraphs minSize (merged ++ [c]).
Proof.
  induction merged as [|a merged IH]; intros Hne Hg Hc; [contradiction|].
  destruct merged as [|b merged].
  - cbn in *. auto.
  - change ((a :: b :: merged) ++ [c]) with (a :: (b :: merged) ++ [c]).
    change (last (a :: b :: merged) O) with (last (b :: merged) O) in Hc.
    destruct Hg as [Hab Hg].
    change (gapsAtLeast paragraphs minSize (a :: b :: (merged ++ [c])))
      with (minSize <= sizeBetween paragraphs a b /\
            gapsAtLeast paragraphs minSize (b :: merged ++ [c])).
    split; [exact Hab|]. apply IH; [discriminate | exact Hg | exact Hc].
Qed.

Lemma mergeLoop_spec (paragraphs : list Paragraph.t) (minSize : Z)
    (boundaries : list nat) :
  forall merged,
    merged <> [] ->
    gapsAtLeast paragraphs minSize merged ->
    exists kept,
      mergeLoop paragraphs minSize boundaries merged = merged ++ kept /\
      Subseq kept boundaries /\
      gapsAtLeast paragraphs minSize (merged ++ kept).
Proof.
  induction boundaries as [|c rest IH]; intros merged Hne Hg;
    cbn [mergeLoop].
  - exists []. rewrite app_nil_r. split; [reflexivity|].
    split; [constructor | exact Hg].
  - destruct (minSize <=? sizeBetween paragraphs (last merged O) c) eqn:E.
    + apply Z.leb_le in E.
      destruct (IH (merged ++ [c])) as (kept & H1 & H2 & H3).
      * intros F. apply app_eq_nil in F. destruct F as [_ F]. discriminate.
      * apply gapsAtLeast_snoc; assumption.
      * exists (c :: kept). rewrite <- app_assoc in H1, H3.
        split; [exact H1|]. split; [constructor; exact H2 | exact H3].
    + destruct (IH merged Hne Hg) as (kept & H1 & H2 & H3).
      exists kept. split; [exact H1|]. split; [constructor; exact H2 | exact H3].
Qed.

Lemma mergeTinySections_head (b0 : nat) (rest : list nat)
    (paragraphs : list Paragraph.t) (minSize : Z) :
  exists kept, mergeTinySections (b0 :: rest) paragraphs minSize = b0 :: kept.
Proof.
  destruct rest as [|b1 rest]; [exists []; reflexivity|].
  unfold mergeTinySections.
  destruct (mergeLoop_spec paragraphs minSize (b1 :: rest) [b0])
    as (kept & H1 & _); [discriminate | exact I |].
  exists kept. exact H1.
Qed.

(** X10. [mergeTinySections] keeps the first boundary, then some of the
    others in their order; between two boundaries it keeps lie
    paragraphs of at least [minSize] characters, so that only the last
    section can be smaller. *)
Theorem mergeTinySections_gaps (b0 : nat) (rest : list nat)
    (paragraphs : list Paragraph.t) (minSize : Z) :
  exists kept,
    mergeTinySections (b0 :: rest) paragraphs minSize = b0 :: kept /\
    Subseq kept rest /\
    gapsAtLeast paragraphs minSize (b0 :: kept).
Proof.
  destruct rest as [|b1 rest].
  - exists []. split; [reflexivity|]. split; [constructor | exact I].
  - unfold mergeTinySections.
    destruct (mergeLoop_spec paragraphs minSize (b1 :: rest) [b0])
      as (kept & H1 & H2 & H3); [discriminate | exact I |].
    exists kept. auto.
Qed.

(** *** Documents without headings *)

Lemma sectionNodes_shape (text : str) (paragraphs : list Paragraph.t)
    (total : nat) (boundaries : list nat) :
  forall i,
    Forall flatSection (sectionNodes text paragraphs total boundaries i) /\
    map title (sectionNodes text paragraphs total boundaries i)
      = map (fun j => sectionTitleOf j total) (seq i (length boundaries)).
Proof.
  induction boundaries as [|b rest IH]; intros i; cbn [sectionNodes].
  - split; [constructor | reflexivity].
  - destruct (IH (S i)) as [H1 H2]. split.
    + constructor; [split; reflexivity | exact H1].
    + cbn [map length seq title]. rewrite H2. reflexivity.
Qed.

Lemma sectionNodes_length (text : str) (paragraphs : list Paragraph.t)
    (total : nat) (boundaries : list nat) :
  forall i,
    length (sectionNodes text paragraphs total boundaries i)
      = length boundaries.
Proof.
  induction boundaries as [|b rest IH]; intros i; cbn [sectionNodes length];
    [reflexivity|]. rewrite IH. reflexivity.
Qed.

Lemma flattenTopLevel_flat (headings : list HeadingNode) :
  Forall flatSection headings -> flattenTopLevel headings = headings.
Proof.
  intros H. destruct headings as [|h hs]; [reflexivity|].
  unfold flattenTopLevel.
  assert (E : fold_left Nat.min (map level hs) (level h) = 1%nat).
  { inversion H as [|? ? [Hh _] Hhs]; subst. rewrite Hh. clear H Hh.
    induction hs as [|k hs IH]; [reflexivity|].
    inversion Hhs as [|? ? [Hk _] Hhs']; subst.
    cbn [map fold_left]. rewrite Hk. exact (IH Hhs'). }
  rewrite E. rewrite forallb_filter_id; [reflexivity|].
  apply forallb_forall. intros n Hn. rewrite Forall_forall in H.
  destruct (H n Hn) as [-> _]. reflexivity.
Qed.

Section Extract.

Context {Vec Num St : Type}.
Variable topicShift : option Num -> list Vec -> nat -> bool.
Variable env : Env Vec.

Lemma detectSections_shape (text : str) (options : HierarchyOptions Num)
    (s s' : St) (log log' : list (Event Vec)) (hs : list HeadingNode) :
  detectSectionsByEmbedding topicShift env text options s log
    = (s', log', Ok hs) ->
  hs <> [] /\ Forall flatSection hs /\
  map title hs = numberedTitles (length hs).
Proof.
  unfold detectSectionsByEmbedding.
  destruct (length (splitParagraphs text) <=? 1)%nat.
  - intros H. injection H as _ _ <-.
    split; [discriminate|]. split; [|reflexivity].
    constructor; [split; reflexivity | constructor].
  - unfold bind, embedBatch, await.
    destruct (onEmbedBatch env log (map Paragraph.text (splitParagraphs text)))
      as [vectors|]; [|discriminate].
    unfold ret. set (merged := mergeTinySections _ _ _).
    assert (Hk : exists kept, merged = O :: kept)
      by apply mergeTinySections_head.
    destruct Hk as [kept Hk]. clearbody merged. subst merged.
    assert (Hshape :
      sectionNodes text (splitParagraphs text) (length (O :: kept))
        (O :: kept) 0 <> [] /\
      Forall flatSection
        (sectionNodes text (splitParagraphs text) (length (O :: kept))
           (O :: kept) 0) /\
      map title
        (sectionNodes text (splitParagraphs text) (length (O :: kept))
           (O :: kept) 0)
      = numberedTitles
          (length (sectionNodes text (splitParagraphs text)
                     (length (O :: kept)) (O :: kept) 0))).
    { destruct (sectionNodes_shape text (splitParagraphs text)
                  (length (O :: kept)) (O :: kept) 0) as [H1 H2].
      split; [discriminate|]. split; [exact H1|].
      rewrite H2, sectionNodes_length. reflexivity. }
    intros H. injection H as _ _ <-. exact Hshape.
Qed.

(** X11. For a document without headings, a hierarchy that
    [extractHierarchy] returns has at least one section; its sections
    have level 1 and no children and are titled ["Section i of n"]; each
    has a summary; the strategy is [embedding-similarity] with an
    embedder and [positional] without one, and then the sections follow
    each other from 0 to the end of the text and no call was made. *)
Theorem headerless_sections (text : str) (embedder : option Embedder)
    (options : HierarchyOptions Num) (s s' : St)
    (log log' : list (Event Vec)) (h : HierarchyMap) :
  extractHeadings text = [] ->
  extractHierarchy topicShift env text embedder options s log
    = (s', log', Ok h) ->
  headings h <> [] /\
  Forall flatSection (headings h) /\
  map title (headings h) = numberedTitles (length (headings h)) /\
  map SectionSummary.title (sectionSummaries h) = map title (headings h) /\
  strategy h = fallback embedder /\
  (embedder = None -> log' = log /\ tiles 0 (len text) (headings h)).
Proof.
  intros Hnone. unfold extractHierarchy. rewrite Hnone.
  assert (Hsum : forall hs n,
            Forall flatSection hs ->
            map SectionSummary.title
              (generateSectionSummaries text (flattenTopLevel hs) n)
            = map title hs).
  { intros hs n Hf. rewrite (flattenTopLevel_flat hs Hf).
    unfold generateSectionSummaries. rewrite map_map. reflexivity. }
  destruct embedder as [e|].
  - unfold bind at 1. unfold bind at 1.
    destruct (detectSectionsByEmbedding topicShift env text options s log)
      as [[s1 log1] [hs|err]] eqn:D; [|discriminate].
    unfold ret. intros H. injection H as _ _ <-.
    destruct (detectSections_shape text options s s1 log log1 hs D)
      as (H1 & H2 & H3).
    cbn [headings sectionSummaries strategy fallback].
    split; [exact H1|]. split; [exact H2|]. split; [exact H3|].
    split; [apply Hsum, H2|]. split; [reflexivity|].
    intros F. discriminate F.
  - unfold bind, ret. intros H. injection H as _ <- <-.
    destruct (positionalSections_shape text 5 ltac:(lia))
      as (H1 & _ & H2 & H3 & H4).
    cbn [headings sectionSummaries strategy fallback].
    split; [exact H1|]. split; [exact H3|]. split; [exact H4|].
    split; [apply Hsum, H3|]. split; [reflexivity|].
    intros _. split; [reflexivity | exact H2].
Qed.

End Extract.

Lemma headerless_sections_witness :
  extractHeadings Scenario.helloWorld = [] /\
  extractHierarchy Scenario.noShift Scenario.quiet Scenario.helloWorld
    (Some TheEmbedder) Scenario.defaults tt []
    = (tt,
       [EmbedBatch [lit "Hello."; lit "World."] (Some [6; 6])],
       Ok Examples.helloWorldMap) /\
  map title (headings Examples.helloWorldMap) = numberedTitles 1 /\
  strategy Examples.helloWorldMap = embedding_similarity.
Proof.
  assert (H0 : extractHeadings Scenario.helloWorld = [])
    by (vm_compute; reflexivity).
  assert (Hrun :
    extractHierarchy Scenario.noShift Scenario.quiet Scenario.helloWorld
      (Some TheEmbedder) Scenario.defaults tt []
    = (tt,
       [EmbedBatch [lit "Hello."; lit "World."] (Some [6; 6])],
       Ok Examples.helloWorldMap)) by (vm_compute; reflexivity).
  split; [exact H0|]. split; [exact Hrun|].
  pose proof (headerless_sections Scenario.noShift Scenario.quiet
                Scenario.helloWorld (Some TheEmbedder) Scenario.defaults
                tt tt [] _ Examples.helloWorldMap H0 Hrun)
    as (_ & _ & Ht & _ & Hs & _).
  split; [exact Ht | exact Hs].
Defined.

End SectionProperties.

Module PathProperties.
Import JsFacts Hierarchy HierarchyNotions HierarchyFacts NestingFacts
  SectionNotions Examples.

(** Induction on a heading tree, with the property known for all the
    children of a node. *)
Lemma HeadingNode_nested_ind (P : HeadingNode -> Prop) :
  (forall lvl ttl s e kids,
     Forall P kids -> P (mkNode lvl ttl s e kids)) ->
  forall n, P n.
Proof.
  intros H. fix IH 1. intros [lvl ttl s e kids]. apply H.
  induction kids as [|k kids IHk]; constructor; [apply IH | exact IHk].
Qed.

Lemma pathThrough_eq (offset : Z) (h : HeadingNode) :
  pathThrough offset h = h :: findHeadingPath offset (children h).
Proof.
  destruct h as [lvl ttl s e kids]. cbn [pathThrough children]. f_equal.
  induction kids as [|k kids IH]; [reflexivity|].
  cbn [findHeadingPath]. destruct (covers offset k); [reflexivity | exact IH].
Qed.

Lemma findHeadingPath_cons (offset : Z) (h : HeadingNode)
    (hs : list HeadingNode) :
  findHeadingPath offset (h :: hs)
    = if covers offset h then h :: findHeadingPath offset (children h)
      else findHeadingPath offset hs.
Proof.
  cbn [findHeadingPath]. rewrite pathThrough_eq. reflexivity.
Qed.

Lemma Descends_more (f g : list HeadingNode) (path : list HeadingNode) :
  incl f g -> Descends f path -> Descends g path.
Proof.
  intros Hfg H. destruct H as [f|f n path Hn Hp]; constructor; auto.
Qed.

Lemma findHeadingPath_nil (offset : Z) (f : list HeadingNode) :
  findHeadingPath offset f = [] <->
  forallb (fun k => negb (covers offset k)) f = true.
Proof.
  induction f as [|h hs IH]; [cbn; tauto|].
  rewrite findHeadingPath_cons. cbn [forallb].
  destruct (covers offset h); cbn [negb andb]; [|exact IH].
  split; discriminate.
Qed.

Lemma pathOK_forest (offset : Z) (f : list HeadingNode) :
  Forall (fun n => pathOK offset (children n)) f -> pathOK offset f.
Proof.
  induction f as [|h hs IH]; intros Hf.
  - split; [constructor|]. split; [constructor|].
    intros init n E. destruct init; discriminate E.
  - inversion Hf as [|? ? Hh Hhs]; subst.
    unfold pathOK. rewrite findHeadingPath_cons.
    destruct (covers offset h) eqn:C.
    + destruct Hh as (D & F & L). split; [|split].
      * constructor; [left; reflexivity | exact D].
      * constructor; [exact C | exact F].
      * intros init n E. destruct init as [|i init].
        -- cbn [app] in E. injection E as <- E.
           apply findHeadingPath_nil. exact E.
        -- cbn [app] in E. injection E as _ E. exact (L init n E).
    + destruct (IH Hhs) as (D & F & L). split; [|split]; [|exact F|exact L].
      apply (Descends_more hs); [|exact D].
      intros x Hx. right. exact Hx.
Qed.

Lemma pathOK_all (offset : Z) (f : list HeadingNode) : pathOK offset f.
Proof.
  apply pathOK_forest. apply Forall_forall. intros n _. revert n.
  apply HeadingNode_nested_ind. intros lvl ttl s e kids Hk.
  cbn [children]. apply pathOK_forest, Hk.
Qed.

(** X12. [findHeadingPath] returns a chain that starts at a root and
    steps from a node to one of its children; every node of it covers
    the offset; it is empty exactly when no root covers the offset, and
    it stops only at a node none of whose children covers the offset.
    [buildContextPrefix] joins the titles along it. *)
Theorem findHeadingPath_chain (offset : Z) (headings : list HeadingNode) :
  Descends headings (findHeadingPath offset headings) /\
  Forall (fun n => covers offset n = true)
    (findHeadingPath offset headings) /\
  (findHeadingPath offset headings = [] <->
   forallb (fun k => negb (covers offset k)) headings = true) /\
  (forall init n,
     findHeadingPath offset headings = init ++ [n] ->
     forallb (fun k => negb (covers offset k)) (children n) = true) /\
  buildContextPrefix offset headings
    = join (lit " > ") (map title (findHeadingPath offset headings)).
Proof.
  destruct (pathOK_all offset headings) as (D & F & L).
  split; [exact D|]. split; [exact F|].
  split; [apply findHeadingPath_nil|]. split; [exact L | reflexivity].
Qed.

(** *** Well-formed forests *)

Lemma apart_first (offset : Z) (before : list HeadingNode)
    (n : HeadingNode) (after : list HeadingNode) :
  ForallOrdPairs apart (before ++ n :: after) ->
  startOffset n <= offset ->
  forallb (fun k => negb (covers offset k)) before = true.
Proof.
  induction before as [|b before IH]; intros Hp Hn; [reflexivity|].
  cbn [app] in Hp. inversion Hp as [|? ? Hb Hrest]; subst.
  cbn [forallb]. rewrite (IH Hrest Hn), andb_true_r.
  rewrite Forall_forall in Hb.
  assert (Hbn : apart b n) by (apply Hb, in_elt).
  unfold apart in Hbn. unfold covers.
  destruct (offset <? endOffset b) eqn:E; [|rewrite andb_false_r; reflexivity].
  apply Z.ltb_lt in E. lia.
Qed.

Lemma findHeadingPath_skip (offset : Z) (before rest : list HeadingNode) :
  forallb (fun k => negb (covers offset k)) before = true ->
  findHeadingPath offset (before ++ rest) = findHeadingPath offset rest.
Proof.
  induction before as [|b before IH]; intros H; [reflexivity|].
  cbn [forallb] in H. apply andb_prop in H. destruct H as [Hb H].
  cbn [app]. rewrite findHeadingPath_cons.
  destruct (covers offset b); [discriminate Hb | exact (IH H)].
Qed.

Lemma wellFormed_children (docLength : Z) (f : list HeadingNode)
    (n : HeadingNode) :
  wellFormed docLength f -> In n f -> wellFormed docLength (children n).
Proof.
  intros [_ Hok] Hn. split.
  - apply (Hok n). constructor. exact Hn.
  - intros k Hk. apply Hok. apply (InTree_below k n f Hn Hk).
Qed.

Lemma Descends_last (init : list HeadingNode) (leaf : HeadingNode) :
  forall f, Descends f (init ++ [leaf]) -> InTree leaf f.
Proof.
  induction init as [|x init IH]; intros f D; cbn [app] in D;
    inversion D as [|? ? ? Hx D']; subst.
  - constructor. exact Hx.
  - apply (InTree_below leaf x f Hx). exact (IH _ D').
Qed.

Lemma Descends_within (docLength : Z) (init : list HeadingNode)
    (leaf : HeadingNode) :
  forall f r,
    wellFormed docLength f ->
    Descends f (r :: init ++ [leaf]) ->
    startOffset r <= startOffset leaf /\ endOffset leaf <= endOffset r.
Proof.
  induction init as [|i init IH]; intros f r Hwf D;
    inversion D as [|? ? ? Hr D']; subst.
  - cbn [app] in D'. inversion D' as [|? ? ? Hleaf _]; subst.
    destruct Hwf as [_ Hok].
    destruct (Hok r (InTree_here r f Hr)) as (_ & Hkids & _).
    rewrite Forall_forall in Hkids. destruct (Hkids leaf Hleaf) as [[? ?] _].
    lia.
  - cbn [app] in D'.
    destruct (IH (children r) i (wellFormed_children _ f r Hwf Hr) D')
      as [H1 H2].
    inversion D' as [|? ? ? Hi _]; subst.
    destruct Hwf as [_ Hok].
    destruct (Hok r (InTree_here r f Hr)) as (_ & Hkids & _).
    rewrite Forall_forall in Hkids. destruct (Hkids i Hi) as [[? ?] _].
    lia.
Qed.

Lemma findHeadingPath_leaf_path (docLength : Z) (init : list HeadingNode)
    (leaf : HeadingNode) :
  forall f,
    wellFormed docLength f ->
    Descends f (init ++ [leaf]) ->
    children leaf = [] ->
    findHeadingPath (startOffset leaf) f = init ++ [leaf].
Proof.
  induction init as [|i init IH]; intros f Hwf D Hleaf.
  - cbn [app] in *. inversion D as [|? ? ? Hn _]; subst.
    apply in_split in Hn. destruct Hn as (before & after & ->).
    assert (Hin : In leaf (before ++ leaf :: after)) by apply in_elt.
    destruct Hwf as [Hap Hok].
    destruct (Hok leaf (InTree_here leaf _ Hin)) as (Hr & _).
    rewrite (findHeadingPath_skip _ before (leaf :: after))
      by (apply (apart_first _ before leaf after); [exact Hap | lia]).
    rewrite findHeadingPath_cons.
    assert (C : covers (startOffset leaf) leaf = true).
    { unfold covers. apply andb_true_intro. split;
        [apply Z.leb_le | apply Z.ltb_lt]; lia. }
    rewrite C, Hleaf. reflexivity.
  - pose proof (Descends_last (i :: init) leaf f D) as Hleaf_tree.
    pose proof (Descends_within docLength init leaf f i Hwf D) as [H1 H2].
    cbn [app] in *. inversion D as [|? ? ? Hn D']; subst.
    apply in_split in Hn. destruct Hn as (before & after & ->).
    assert (Hin : In i (before ++ i :: after)) by apply in_elt.
    pose proof (wellFormed_children _ _ i Hwf Hin) as Hwf'.
    destruct Hwf as [Hap Hok].
    destruct (Hok leaf Hleaf_tree) as (Hr & _).
    rewrite (findHeadingPath_skip _ before (i :: after))
      by (apply (apart_first _ before i after); [exact Hap | lia]).
    rewrite findHeadingPath_cons.
    assert (C : covers (startOffset leaf) i = true).
    { unfold covers. apply andb_true_intro. split;
        [apply Z.leb_le | apply Z.ltb_lt]; lia. }
    rewrite C. f_equal. exact (IH _ Hwf' D' Hleaf).
Qed.

(** The tree of the headings of a text is well formed. *)
Lemma buildHierarchyTree_wellFormed (text : str) :
  wellFormed (len text) (buildHierarchyTree (extractHeadings text) (len text)).
Proof.
  pose proof (extractHeadings_ascending text) as Hasc.
  set (flat := extractHeadings text) in *.
  set (items := withEnds flat (len text)).
  assert (Hnested : Nested items 0 (length items)
                      (buildHierarchyTree flat (len text))).
  { unfold buildHierarchyTree. destruct flat as [|h0 rest]; [constructor|].
    apply nestFrom_Nested. apply Nat.le_refl. }
  split.
  - apply (TreeClaims.Nested_apart items
             (ended_order (len text) flat Hasc)
             (ended_before (len text) flat Hasc)
             0%nat (length items)).
    exact Hnested.
  - apply (TreeClaims.Nested_nodes (len text) items
             (ended_range (len text) flat Hasc)
             (ended_order (len text) flat Hasc)
             (ended_before (len text) flat Hasc)
             (ended_at (len text) flat)
             0%nat (length items)).
    exact Hnested.
Qed.

(** X13. In a well-formed forest (ranges that are not empty, children
    within their parent, siblings that do not overlap), the path found
    for the start of a leaf section is the chain from its root down to
    that leaf. *)
Theorem findHeadingPath_to_leaf (docLength : Z) (f init : list HeadingNode)
    (leaf : HeadingNode) :
  wellFormed docLength f ->
  Descends f (init ++ [leaf]) ->
  children leaf = [] ->
  findHeadingPath (startOffset leaf) f = init ++ [leaf] /\
  buildContextPrefix (startOffset leaf) f
    = join (lit " > ") (map title (init ++ [leaf])).
Proof.
  intros Hwf D Hleaf. unfold buildContextPrefix.
  rewrite (findHeadingPath_leaf_path docLength init leaf f Hwf D Hleaf).
  split; reflexivity.
Qed.

Lemma findHeadingPath_to_leaf_witness :
  buildContextPrefix 23
    (buildHierarchyTree (extractHeadings Scenario.S2_text)
       (len Scenario.S2_text))
  = lit "Intro > Details".
Proof.
  assert (Hwf : wellFormed (len Scenario.S2_text)
                  (buildHierarchyTree (extractHeadings Scenario.S2_text)
                     (len Scenario.S2_text)))
    by apply buildHierarchyTree_wellFormed.
  assert (D : Descends
                (buildHierarchyTree (extractHeadings Scenario.S2_text)
                   (len Scenario.S2_text))
                ([intro] ++ [details])).
  { rewrite TreeClaims.S2_tree.
    constructor; [left; reflexivity|].
    constructor; [left; reflexivity | constructor]. }
  exact (proj2 (findHeadingPath_to_leaf (len Scenario.S2_text) _ [intro]
                  details Hwf D eq_refl)).
Defined.

End PathProperties.

(* ================================================================== *)
(** ** Properties of structure-aware chunking                          *)
(* ================================================================== *)

Module SectionChunkFacts.
Import JsFacts Hierarchy Chunker HierarchyNotions ChunkerNotions ChunkerFacts
  SegmentNotions SectionNotions SectionChunkNotions TrimFacts SegmentFacts
  ChunkerProperties PathProperties.

Lemma flattenNode_eq (h : HeadingNode) :
  flattenNode h
    = match children h with
      | [] => [h]
      | kids => flattenSections kids
      end.
Proof. destruct h as [lvl ttl s e kids]. destruct kids; reflexivity. Qed.

Lemma Leaf_cons (n m : HeadingNode) (f : list HeadingNode) :
  Leaf n (m :: f) <->
  (n = m /\ children n = []) \/ Leaf n (children m) \/ Leaf n f.
Proof.
  split.
  - intros H. inversion H as [? ? Hin Hk|? k ? Hin Hk]; subst.
    + destruct Hin as [<-|Hin]; [left; auto|].
      right. right. apply Leaf_here; assumption.
    + destruct Hin as [<-|Hin]; [right; left; exact Hk|].
      right. right. apply (Leaf_below n k f Hin Hk).
  - intros [[-> Hk]|[H|H]].
    + apply Leaf_here; [left; reflexivity | exact Hk].
    + apply (Leaf_below n m); [left; reflexivity | exact H].
    + inversion H as [? ? Hin Hk|? k ? Hin Hk]; subst.
      * apply Leaf_here; [right; exact Hin | exact Hk].
      * apply (Leaf_below n k); [right; exact Hin | exact Hk].
Qed.

Lemma Leaf_nil (n : HeadingNode) : ~ Leaf n [].
Proof. intros H. inversion H as [? ? Hin _|? k ? Hin _]; destruct Hin. Qed.

Lemma flattenSections_Leaf_forest (f : list HeadingNode) :
  Forall (fun m => forall n, In n (flattenSections (children m))
                             <-> Leaf n (children m)) f ->
  forall n, In n (flattenSections f) <-> Leaf n f.
Proof.
  induction f as [|m f IH]; intros Hf n.
  - cbn. split; [intros [] | intros H; exact (Leaf_nil n H)].
  - inversion Hf as [|? ? Hm Hrest]; subst.
    unfold flattenSections in *. cbn [flat_map].
    rewrite in_app_iff, Leaf_cons, (IH Hrest n), flattenNode_eq.
    destruct (children m) as [|k kids] eqn:K.
    + cbn [In]. split.
      * intros [[<-|[]]|H]; [left; auto | right; right; exact H].
      * intros [[-> _]|[H|H]]; [left; left; reflexivity | | right; exact H].
        exfalso. exact (Leaf_nil n H).
    + rewrite (Hm n). split.
      * intros [H|H]; [right; left; exact H | right; right; exact H].
      * intros [[-> H]|[H|H]]; [congruence | left; exact H | right; exact H].
Qed.

Lemma flattenSections_Leaf (f : list HeadingNode) :
  forall n, In n (flattenSections f) <-> Leaf n f.
Proof.
  apply flattenSections_Leaf_forest. apply Forall_forall. intros m _.
  revert m.
  apply (HeadingNode_nested_ind
           (fun m => forall n, In n (flattenSections (children m))
                               <-> Leaf n (children m))).
  intros lvl ttl s e kids Hk.
  cbn [children]. apply flattenSections_Leaf_forest, Hk.
Qed.

Lemma Leaf_Descends (f : list HeadingNode) (n : HeadingNode) :
  Leaf n f -> exists init, Descends f (init ++ [n]).
Proof.
  induction 1 as [n f Hin _|n m f Hin _ [init IH]].
  - exists []. constructor; [exact Hin | constructor].
  - exists (m :: init). constructor; [exact Hin | exact IH].
Qed.

Lemma len_slice_nonneg (s : str) (a b : Z) :
  0 <= a -> 0 <= b ->
  len (slice s a b) = Z.max 0 (Z.min b (len s) - Z.min a (len s)).
Proof.
  intros Ha Hb. unfold slice, relIndex, len.
  rewrite length_firstn, length_skipn.
  destruct (a <? 0) eqn:E1; [apply Z.ltb_lt in E1; lia|].
  destruct (b <? 0) eqn:E2; [apply Z.ltb_lt in E2; lia|].
  lia.
Qed.

Section WithDigest.

Variable sha256 : str -> str.

Lemma assignPositions_range (text : str) :
  forall overlapped segments i searchFrom,
    Forall nonEmpty segments ->
    0 <= searchFrom <= len text ->
    Forall (fun c => 0 <= start c <= end_ c /\ end_ c <= len text)
      (assignPositions sha256 text overlapped segments i searchFrom).
Proof.
  induction overlapped as [|t overlapped IH];
    intros [|canonical segments] i searchFrom Hne Hfrom;
    cbn [assignPositions]; try constructor.
  - cbn [start end_].
    inversion Hne as [|? ? Hc _]; subst. unfold nonEmpty in Hc.
    destruct (indexOf_range text canonical searchFrom) as [R|[R1 R2]].
    + rewrite R. cbn. lia.
    + destruct (0 <=? indexOf text canonical searchFrom) eqn:E;
        [apply Z.leb_le in E | apply Z.leb_gt in E]; lia.
  - inversion Hne as [|? ? Hc Hrest]; subst. unfold nonEmpty in Hc.
    apply IH; [exact Hrest|].
    destruct (indexOf_range text canonical searchFrom) as [R|[R1 R2]].
    + rewrite R. cbn. lia.
    + destruct (0 <=? indexOf text canonical searchFrom) eqn:E;
        [apply Z.leb_le in E | apply Z.leb_gt in E]; lia.
Qed.

Lemma chunkText_range (text : str) (options : ChunkOptions) :
  Forall (fun c => 0 <= start c <= end_ c /\ end_ c <= len text)
    (chunkText sha256 text options).
Proof.
  unfold chunkText. apply assignPositions_range;
    [apply splitIntoSegments_nonEmpty | pose proof (len_nonneg text); lia].
Qed.

Lemma chunkText_hashes (text : str) (options : ChunkOptions) :
  Forall (fun c => hash c = sha256 (Chunker.text c))
    (chunkText sha256 text options).
Proof.
  unfold chunkText.
  destruct (assignPositions_shape sha256 text
              (applyOverlap (splitIntoSegments text (resolveMaxChunkSize options))
                 (resolveOverlap options))
              (splitIntoSegments text (resolveMaxChunkSize options)) 0%nat 0
              (applyOverlap_length _ _)) as (_ & _ & H).
  eapply Forall_impl; [|exact H]. intros c Hc. apply Hc.
Qed.

Lemma annotate_length (section : HeadingNode) (prefix : str)
    (chunks : list Chunk) :
  forall g, length (annotate section prefix chunks g) = length chunks.
Proof.
  induction chunks as [|c chunks IH]; intros g; cbn [annotate length];
    [reflexivity|]. rewrite IH. reflexivity.
Qed.

Lemma annotate_index (section : HeadingNode) (prefix : str)
    (chunks : list Chunk) :
  forall g,
    map index (annotate section prefix chunks g) = seq g (length chunks).
Proof.
  induction chunks as [|c chunks IH]; intros g; cbn [annotate map length seq];
    [reflexivity|]. rewrite IH. reflexivity.
Qed.

Lemma annotate_texts (section : HeadingNode) (prefix : str)
    (chunks : list Chunk) :
  forall g,
    map Chunker.text (annotate section prefix chunks g)
      = map Chunker.text chunks.
Proof.
  induction chunks as [|c chunks IH]; intros g; cbn [annotate map];
    [reflexivity|]. rewrite IH. reflexivity.
Qed.

(** Each chunk of [annotate] comes from one of the section's chunks. *)
Lemma annotate_each (section : HeadingNode) (prefix : str)
    (chunks : list Chunk) :
  forall g,
    Forall (fun c => exists c0, In c0 chunks /\ annotated section prefix c0 c)
      (annotate section prefix chunks g).
Proof.
  induction chunks as [|c chunks IH]; intros g; cbn [annotate];
    constructor.
  - exists c. split; [left; reflexivity|]. unfold annotated. cbn.
    repeat split; auto.
  - eapply Forall_impl; [|apply IH].
    intros x (c0 & Hin & H). exists c0. split; [right; exact Hin | exact H].
Qed.

Lemma sectionLoop_index (text : str) (headings : list HeadingNode)
    (options : ChunkOptions) (sections : list HeadingNode) :
  forall g,
    map index (sectionLoop sha256 text headings options sections g)
      = seq g (length (sectionLoop sha256 text headings options sections g)).
Proof.
  induction sections as [|section rest IH]; intros g; cbn [sectionLoop];
    [reflexivity|].
  destruct (Nat.eqb (length (trim (slice text (startOffset section)
                                     (endOffset section)))) 0);
    [apply IH|].
  rewrite map_app, length_app, seq_app, annotate_index, annotate_length, IH.
  reflexivity.
Qed.

Lemma sectionLoop_each (text : str) (headings : list HeadingNode)
    (options : ChunkOptions) (sections : list HeadingNode) :
  forall g,
    Forall (fun c =>
              exists section c0,
                In section sections /\
                In c0 (chunkText sha256 (sectionText text section) options) /\
                annotated section
                  (buildContextPrefix (startOffset section) headings) c0 c)
      (sectionLoop sha256 text headings options sections g).
Proof.
  induction sections as [|section rest IH]; intros g; cbn [sectionLoop];
    [constructor|].
  assert (Hrest : forall g',
    Forall (fun c =>
              exists section0 c0,
                In section0 (section :: rest) /\
                In c0 (chunkText sha256 (sectionText text section0) options) /\
                annotated section0
                  (buildContextPrefix (startOffset section0) headings) c0 c)
      (sectionLoop sha256 text headings options rest g')).
  { intros g'. eapply Forall_impl; [|apply IH].
    intros c (s0 & c0 & Hin & H). exists s0, c0.
    split; [right; exact Hin | exact H]. }
  destruct (Nat.eqb (length (trim (slice text (startOffset section)
                                     (endOffset section)))) 0);
    [apply Hrest|].
  apply Forall_app. split; [|apply Hrest].
  eapply Forall_impl; [|apply annotate_each].
  intros c (c0 & Hin & H). exists section, c0.
  split; [left; reflexivity|]. split; [exact Hin | exact H].
Qed.

Lemma sectionLoop_ink (text : str) (headings : list HeadingNode)
    (options : ChunkOptions) (sections : list HeadingNode) :
  resolveOverlap options <= 0 ->
  forall g,
    ink (concat (map Chunker.text
                   (sectionLoop sha256 text headings options sections g)))
      = ink (concat (map (sectionText text) sections)).
Proof.
  intros Ho. induction sections as [|section rest IH]; intros g;
    cbn [sectionLoop map concat]; [reflexivity|].
  rewrite (ink_app (sectionText text section)).
  change (slice text (startOffset section) (endOffset section))
    with (sectionText text section).
  destruct (Nat.eqb (length (trim (sectionText text section))) 0) eqn:E.
  - apply Nat.eqb_eq, length_zero_iff_nil, trim_nil in E.
    rewrite E, IH. reflexivity.
  - rewrite map_app, concat_app, ink_app, annotate_texts, IH.
    f_equal. rewrite chunkText_texts. unfold applyOverlap.
    apply Z.leb_le in Ho. rewrite Ho. cbn [orb].
    apply splitIntoSegments_ink.
Qed.

End WithDigest.

Lemma tiles_concat (text : str) (sections : list HeadingNode) :
  forall lo,
    0 <= lo -> tiles lo (len text) sections ->
    concat (map (sectionText text) sections) = skipn (Z.to_nat lo) text.
Proof.
  induction sections as [|n rest IH]; intros lo Hlo Ht; cbn [tiles] in Ht.
  - subst lo. cbn [map concat]. unfold len. rewrite Nat2Z.id.
    symmetry. apply skipn_all.
  - destruct Ht as (Hs & He & Ht). cbn [map concat].
    rewrite (IH (endOffset n) ltac:(lia) Ht). unfold sectionText.
    rewrite Hs.
    assert (Hhi : endOffset n <= len text).
    { clear - Ht He Hlo. revert Ht. generalize (endOffset n).
      induction rest as [|m rest IHr]; intros x Hx; cbn [tiles] in Hx; [lia|].
      destruct Hx as (_ & H1 & H2). specialize (IHr _ H2). lia. }
    unfold slice, relIndex. fold (len text).
    destruct (lo <? 0) eqn:E1; [apply Z.ltb_lt in E1; lia|].
    destruct (endOffset n <? 0) eqn:E2; [apply Z.ltb_lt in E2; lia|].
    rewrite !Z.min_l by lia.
    replace (Z.to_nat (endOffset n))
      with (Z.to_nat (endOffset n - lo) + Z.to_nat lo)%nat by lia.
    rewrite <- skipn_skipn. apply firstn_skipn.
Qed.

Lemma flattenSections_flat (sections : list HeadingNode) :
  Forall flatSection sections -> flattenSections sections = sections.
Proof.
  induction 1 as [|n rest [_ Hk] _ IH]; [reflexivity|].
  unfold flattenSections in *. cbn [flat_map].
  rewrite flattenNode_eq, Hk, IH. reflexivity.
Qed.

Lemma buildHierarchyTree_roots (text : str) :
  Forall (fun r => 0 <= startOffset r)
    (buildHierarchyTree (extractHeadings text) (len text)).
Proof.
  pose proof (HierarchyFacts.extractHeadings_ascending text) as Hasc.
  set (flat := extractHeadings text) in *.
  set (items := withEnds flat (len text)).
  assert (Hnested : Nested items 0 (length items)
                      (buildHierarchyTree flat (len text))).
  { unfold buildHierarchyTree. destruct flat as [|h0 rest]; [constructor|].
    apply NestingFacts.nestFrom_Nested. apply Nat.le_refl. }
  apply TreeClaims.Nested_roots in Hnested.
  eapply Forall_impl; [|exact Hnested].
  intros r (k & item & _ & Hk & _ & Hs & _). rewrite Hs.
  destruct (HierarchyFacts.withEnds_nth (len text) flat k item Hk)
    as (h & Hh & _ & Ho & _).
  rewrite Ho.
  destruct (HierarchyFacts.ascending_skipn flat k 0 (len text) h Hasc Hh)
    as [_ ?].
  lia.
Qed.

Lemma Descends_nonneg (docLength : Z) (f init : list HeadingNode)
    (leaf : HeadingNode) :
  wellFormed docLength f ->
  Forall (fun r => 0 <= startOffset r) f ->
  Descends f (init ++ [leaf]) ->
  0 <= startOffset leaf.
Proof.
  intros Hwf Hroots D. rewrite Forall_forall in Hroots.
  destruct init as [|r init].
  - cbn [app] in D. inversion D as [|? ? ? Hin _]; subst.
    exact (Hroots leaf Hin).
  - pose proof (Descends_within docLength init leaf f r Hwf D) as [H _].
    inversion D as [|? ? ? Hin _]; subst.
    specialize (Hroots r Hin). lia.
Qed.

End SectionChunkFacts.

Module SectionChunkProperties.
Import JsFacts Hierarchy Chunker HierarchyNotions ChunkerNotions ChunkerFacts
  SegmentNotions SectionNotions SectionChunkNotions TrimFacts SegmentFacts
  ChunkerProperties PathProperties SectionChunkFacts Scenario Examples.

(** X14. The leaf-level sections that [flattenSections] returns are the
    nodes without children, at any depth of the forest. *)
Theorem flattenSections_leaves (headings : list HeadingNode)
    (n : HeadingNode) :
  In n (flattenSections headings) <-> Leaf n headings.
Proof. apply flattenSections_Leaf. Qed.

Section WithDigest.

Variable sha256 : str -> str.

(** X15. [chunkWithHierarchy] numbers its chunks from 0 without a gap
    across the sections, and every hash is the digest of the chunk's
    text.  Every chunk is a chunk of the text of one leaf section,
    moved to document offsets and annotated with that section's title
    and with the context prefix of the section's start; when the
    section's offsets are not negative, the chunk lies within the
    section and within the text. *)
Theorem chunkWithHierarchy_leaf_chunks (text : str) (hierarchy : HierarchyMap)
    (options : ChunkOptions) :
  map index (chunkWithHierarchy sha256 text hierarchy options)
    = seq 0 (length (chunkWithHierarchy sha256 text hierarchy options)) /\
  Forall (fun c => hash c = sha256 (Chunker.text c))
    (chunkWithHierarchy sha256 text hierarchy options) /\
  Forall (fun c =>
            exists section c0,
              Leaf section (headings hierarchy) /\
              In c0 (chunkText sha256 (sectionText text section) options) /\
              annotated section
                (buildContextPrefix (startOffset section)
                   (headings hierarchy)) c0 c /\
              (0 <= startOffset section -> 0 <= endOffset section ->
               startOffset section <= start c <= end_ c /\
               end_ c <= endOffset section /\ end_ c <= len text))
    (chunkWithHierarchy sha256 text hierarchy options).
Proof.
  unfold chunkWithHierarchy. split; [apply sectionLoop_index|]. split.
  { eapply Forall_impl;
      [|apply (sectionLoop_each sha256 text (headings hierarchy) options)].
    intros c (section & c0 & _ & Hin & Ht & Hh & _).
    rewrite Hh, Ht.
    pose proof (chunkText_hashes sha256 (sectionText text section) options)
      as H.
    rewrite Forall_forall in H. exact (H c0 Hin). }
  eapply Forall_impl;
    [|apply (sectionLoop_each sha256 text (headings hierarchy) options)].
  intros c (section & c0 & Hsec & Hin & Ha).
  exists section, c0. split; [apply flattenSections_Leaf, Hsec|].
  split; [exact Hin|]. split; [exact Ha|].
  intros Hso Heo.
  pose proof (chunkText_range sha256 (sectionText text section) options) as R.
  rewrite Forall_forall in R. specialize (R c0 Hin).
  destruct Ha as (_ & _ & Hs & He & _).
  unfold sectionText in R. rewrite (len_slice_nonneg _ _ _ Hso Heo) in R.
  pose proof (len_nonneg text) as Hn.
  destruct (Z_le_gt_dec (Z.min (endOffset section) (len text))
              (Z.min (startOffset section) (len text))) as [Hle|Hgt].
  - exfalso.
    assert (E : sectionText text section = []).
    { apply length_zero_iff_nil. unfold sectionText.
      pose proof (len_slice_nonneg text _ _ Hso Heo) as L.
      unfold len in L at 1. lia. }
    rewrite E, EmptyDocument.chunkText_empty in Hin. exact Hin.
  - lia.
Qed.

(** X16. Without overlap, the chunks of [chunkWithHierarchy] hold the
    characters of the leaf sections' texts that are not white space, in
    order, and nothing else; when the sections are flat and follow each
    other from 0 to the end of the text, these are the characters of
    the document. *)
Theorem chunkWithHierarchy_keeps_ink (text : str) (hierarchy : HierarchyMap)
    (options : ChunkOptions) :
  resolveOverlap options <= 0 ->
  ink (concat (map Chunker.text
                 (chunkWithHierarchy sha256 text hierarchy options)))
    = ink (concat (map (sectionText text)
                     (flattenSections (headings hierarchy)))) /\
  (Forall flatSection (headings hierarchy) ->
   tiles 0 (len text) (headings hierarchy) ->
   ink (concat (map Chunker.text
                  (chunkWithHierarchy sha256 text hierarchy options)))
     = ink text).
Proof.
  intros Ho. unfold chunkWithHierarchy.
  rewrite (sectionLoop_ink sha256 text (headings hierarchy) options _ Ho).
  split; [reflexivity|]. intros Hflat Htiles.
  rewrite (flattenSections_flat _ Hflat).
  rewrite (tiles_concat text _ 0 ltac:(lia) Htiles). reflexivity.
Qed.

(** X17. With the tree of the text's own headings, every chunk belongs
    to a leaf heading: its [sectionTitle] is the leaf's title, and its
    [sectionPath] lists the titles from a root heading down to that
    leaf; the chunk lies within the leaf's range. *)
Theorem heading_chunk_paths (text : str) (options : ChunkOptions)
    (outline documentSummary : str)
    (sectionSummaries : list SectionSummary.t) (strategy : Strategy) :
  Forall (fun c =>
            exists init leaf,
              Descends (buildHierarchyTree (extractHeadings text) (len text))
                (init ++ [leaf]) /\
              children leaf = [] /\
              sectionTitle c = Some (title leaf) /\
              sectionPath c
                = Some (join (lit " > ") (map title (init ++ [leaf]))) /\
              startOffset leaf <= start c <= end_ c /\
              end_ c <= endOffset leaf)
    (chunkWithHierarchy sha256 text
       (mkMap (buildHierarchyTree (extractHeadings text) (len text))
          outline documentSummary sectionSummaries strategy)
       options).
Proof.
  unfold chunkWithHierarchy. cbn [headings].
  pose proof (buildHierarchyTree_wellFormed text) as Hwf.
  set (tree := buildHierarchyTree (extractHeadings text) (len text)) in *.
  eapply Forall_impl; [|apply (sectionLoop_each sha256 text tree options)].
  intros c (leaf & c0 & Hsec & Hin & Ha).
  apply flattenSections_Leaf in Hsec.
  assert (Hleaf : children leaf = []).
  { clear - Hsec. induction Hsec; assumption. }
  destruct (Leaf_Descends tree leaf Hsec) as [init D].
  exists init, leaf. split; [exact D|]. split; [exact Hleaf|].
  destruct Ha as (_ & _ & Hs & He & Ht & Hp & _).
  split; [exact Ht|]. split.
  - rewrite Hp. unfold buildContextPrefix.
    rewrite (findHeadingPath_leaf_path (len text) init leaf tree Hwf D Hleaf).
    reflexivity.
  - assert (Hso : 0 <= startOffset leaf).
    { apply (Descends_nonneg (len text) tree init leaf);
        [exact Hwf | apply buildHierarchyTree_roots | exact D]. }
    destruct Hwf as [_ Hok].
    destruct (Hok leaf (Descends_last init leaf tree D)) as (Hr & _).
    pose proof (chunkText_range sha256 (sectionText text leaf) options) as R.
    rewrite Forall_forall in R. specialize (R c0 Hin).
    assert (Heo : 0 <= endOffset leaf) by lia.
    unfold sectionText in R.
    rewrite (len_slice_nonneg text _ _ Hso Heo) in R.
    pose proof (len_nonneg text). lia.
Qed.

End WithDigest.

Lemma chunkWithHierarchy_keeps_ink_witness :
  resolveOverlap S1_options <= 0 /\
  ink (concat (map Chunker.text
                 (chunkWithHierarchy Sha256.sha256 helloWorld helloWorldMap
                    S1_options)))
    = lit "Hello.World.".
Proof.
  assert (H : resolveOverlap S1_options <= 0) by (vm_compute; discriminate).
  split; [exact H|].
  exact (eq_trans
           (proj1 (chunkWithHierarchy_keeps_ink Sha256.sha256 helloWorld
                     helloWorldMap S1_options H))
           eq_refl).
Defined.

(** Scenario S2 under structure-aware chunking: the paragraph between
    the heading "Intro" and its sub-heading belongs to no leaf section
    and is in no chunk. *)
Example S2_section_chunks :
  map (fun c => (Chunker.text c, start c, end_ c, sectionPath c))
    (chunkWithHierarchy Sha256.sha256 S2_text
       (mkMap (buildHierarchyTree (extractHeadings S2_text) (len S2_text))
          [] [] [] heading)
       S1_options)
  = [(lit "## Details" ++ [nl; nl] ++ lit "More text.", 23, 45,
      Some (lit "Intro > Details"))].
Proof. vm_compute. reflexivity. Qed.

End SectionChunkProperties.

(* ================================================================== *)
(** ** Properties of the sync manager                                  *)
(* ================================================================== *)

Module ManagerProperties.
Import Hierarchy Chunker DocSync RunNotions SyncNotions RunFacts DocSyncFacts
  ManagerNotions Scenario.

Lemma add_NoDup (set : list str) (x : str) : NoDup set -> NoDup (add set x).
Proof.
  intros H. unfold add. destruct (has set x) eqn:E; [exact H|].
  apply NoDup_app; [exact H | constructor; [intros [] | constructor] |].
  intros y Hy [<-|[]]. apply has_In in Hy. congruence.
Qed.

Lemma setOf_NoDup (hashes : list str) : NoDup (setOf hashes).
Proof.
  unfold setOf. generalize (NoDup_nil str). generalize (@nil str).
  induction hashes as [|h hashes IH]; intros set Hset; cbn [fold_left];
    [exact Hset|].
  apply IH, add_NoDup, Hset.
Qed.

Section Sync.

Context {Vec Num : Type}.
Variable sha256 : str -> str.
Variable topicShift : option Num -> list Vec -> nat -> bool.
Variable env : Env Vec.

(** The three ways a sync can end. *)
Lemma syncIfNeeded_cases (text : str) (options : Options Num)
    (m : Manager) (log : list (Event Vec)) :
  (sameHash (sha256 text) (lastDocHash m) = true /\
   syncIfNeeded sha256 topicShift env text options m log = (m, log, Ok false))
  \/
  (sameHash (sha256 text) (lastDocHash m) = false /\
   exists logH e,
     extractHierarchy topicShift env text (Some TheEmbedder)
       (structure options) m log = (m, logH, Err e) /\
     syncIfNeeded sha256 topicShift env text options m log
       = (m, logH, Err e))
  \/
  (sameHash (sha256 text) (lastDocHash m) = false /\
   exists logH h log' r,
     extractHierarchy topicShift env text (Some TheEmbedder)
       (structure options) m log = (m, logH, Ok h) /\
     diffStep env (chunkWithHierarchy sha256 text h (chunking options))
       (staleOf m (chunkWithHierarchy sha256 text h (chunking options)))
       (newOf m (chunkWithHierarchy sha256 text h (chunking options)))
       (mkManager (lastDocHash m) (storedHashes m) (Some h)) logH
       = (mkManager (lastDocHash m) (storedHashes m) (Some h), log', r) /\
     syncIfNeeded sha256 topicShift env text options m log
       = match r with
         | Ok _ =>
             (mkManager (Some (sha256 text))
                (setOf (map hash
                          (chunkWithHierarchy sha256 text h (chunking options))))
                (Some h),
              log', Ok true)
         | Err e =>
             (mkManager (lastDocHash m) (storedHashes m) (Some h), log', Err e)
         end).
Proof.
  rewrite syncIfNeeded_stages.
  destruct (sameHash (sha256 text) (lastDocHash m)) eqn:E; [left; auto|].
  right.
  destruct (Clean_extractHierarchy topicShift env text (Some TheEmbedder)
              (structure options) m log) as (evs & rh & Hh & _).
  rewrite Hh. destruct rh as [h|e].
  - right. split; [reflexivity|].
    destruct (Clean_diffStep env
                (chunkWithHierarchy sha256 text h (chunking options))
                (staleOf m (chunkWithHierarchy sha256 text h (chunking options)))
                (newOf m (chunkWithHierarchy sha256 text h (chunking options)))
                (mkManager (lastDocHash m) (storedHashes m) (Some h))
                (log ++ evs)) as (evs' & r & Hd & _).
    exists (log ++ evs), h, ((log ++ evs) ++ evs'), r.
    split; [reflexivity|]. split; [exact Hd|].
    cbv zeta. rewrite Hd. destruct r; reflexivity.
  - left. split; [reflexivity|]. exists (log ++ evs), e. auto.
Qed.

(** X18. What [lastHierarchy] is after a call of [syncIfNeeded]: the
    hierarchy of the new document as soon as its extraction succeeded,
    also when the sync fails afterwards; the former one on the fast
    path and when the extraction fails. *)
Theorem sync_lastHierarchy (text : str) (options : Options Num)
    (m : Manager) (log : list (Event Vec)) :
  lastHierarchy
    (fst (fst (syncIfNeeded sha256 topicShift env text options m log)))
  = if sameHash (sha256 text) (lastDocHash m) then lastHierarchy m
    else
      match snd (extractHierarchy topicShift env text (Some TheEmbedder)
                   (structure options) m log) with
      | Ok h => Some h
      | Err _ => lastHierarchy m
      end.
Proof.
  destruct (syncIfNeeded_cases text options m log)
    as [[E H]|[[E (logH & e & Hh & H)]|[E (logH & h & log' & r & Hh & _ & H)]]];
    rewrite H, E; try rewrite Hh; try reflexivity.
  destruct r; reflexivity.
Qed.

(** X19. The bookkeeping after a sync that completed.  When it returns
    [false], nothing was called and nothing changed, and the document
    hash was the stored one.  When it returns [true], [lastDocHash] is
    the document's hash, and [storedHashes] holds the hashes of the
    chunks of the document under the hierarchy now in [lastHierarchy],
    each once. *)
Theorem sync_completed (text : str) (options : Options Num)
    (m m' : Manager) (log log' : list (Event Vec)) (b : bool) :
  syncIfNeeded sha256 topicShift env text options m log = (m', log', Ok b) ->
  if b then
    lastDocHash m' = Some (sha256 text) /\
    exists h,
      lastHierarchy m' = Some h /\
      storedHashes m'
        = setOf (map hash
                   (chunkWithHierarchy sha256 text h (chunking options))) /\
      NoDup (storedHashes m') /\
      forall x,
        In x (storedHashes m') <->
        exists c,
          hash c = x /\
          In c (chunkWithHierarchy sha256 text h (chunking options))
  else
    m' = m /\ log' = log /\ lastDocHash m = Some (sha256 text).
Proof.
  destruct (syncIfNeeded_cases text options m log)
    as [[E H]|[[E (logH & e & Hh & H)]|[E (logH & h & log2 & r & Hh & _ & H)]]];
    rewrite H.
  - intros R. injection R as <- <- <-. split; [reflexivity|].
    split; [reflexivity|]. unfold sameHash in E.
    destruct (lastDocHash m) as [d|]; [|discriminate E].
    apply str_eqb_eq in E. rewrite E. reflexivity.
  - discriminate.
  - destruct r as [u|e]; [|discriminate].
    intros R. injection R as <- _ <-. cbn [lastDocHash lastHierarchy storedHashes].
    split; [reflexivity|]. exists h. split; [reflexivity|].
    split; [reflexivity|]. split; [apply setOf_NoDup|].
    intros x. rewrite setOf_In, in_map_iff. reflexivity.
Qed.

(** X20. A changed document whose chunks are the stored ones (no stored
    hash is stale, no chunk is new) is synced without any call to the
    embedder or the table beyond hierarchy extraction: only the
    bookkeeping moves to the new document. *)
Theorem sync_same_chunks (text : str) (options : Options Num)
    (m : Manager) (log logH : list (Event Vec)) (h : HierarchyMap) :
  sameHash (sha256 text) (lastDocHash m) = false ->
  extractHierarchy topicShift env text (Some TheEmbedder) (structure options)
    m log = (m, logH, Ok h) ->
  staleOf m (chunkWithHierarchy sha256 text h (chunking options)) = [] ->
  newOf m (chunkWithHierarchy sha256 text h (chunking options)) = [] ->
  syncIfNeeded sha256 topicShift env text options m log
    = (mkManager (Some (sha256 text))
         (setOf (map hash
                   (chunkWithHierarchy sha256 text h (chunking options))))
         (Some h),
       logH, Ok true).
Proof.
  intros E Hh Hstale Hnew.
  rewrite syncIfNeeded_stages, E, Hh. cbv zeta.
  rewrite Hstale, Hnew. reflexivity.
Qed.

(** X21. The consistency of the bookkeeping is an invariant: it holds
    of a fresh manager, and every call of [syncIfNeeded] and of [reset]
    preserves it, whatever the embedder and the table answer. *)
Theorem consistent_invariant :
  consistent fresh /\
  (forall text options m log m' log' r,
     consistent m ->
     syncIfNeeded sha256 topicShift env text options m log = (m', log', r) ->
     consistent m') /\
  (forall m log m' log' r,
     consistent m ->
     reset env m log = (m', log', r) ->
     consistent m').
Proof.
  split; [|split].
  - split; [constructor|]. split; reflexivity.
  - intros text options m log m' log' r (Hnd & Hnone & Hh) R.
    destruct (syncIfNeeded_cases text options m log)
      as [[E H]|[[E (logH & e & _ & H)]|[E (logH & h & log2 & r2 & _ & _ & H)]]];
      rewrite H in R.
    + injection R as <- _ _. split; [exact Hnd|]. split; assumption.
    + injection R as <- _ _. split; [exact Hnd|]. split; assumption.
    + destruct r2 as [u|e]; injection R as <- _ _;
        cbn [consistent lastDocHash lastHierarchy storedHashes]; unfold consistent;
        cbn [lastDocHash lastHierarchy storedHashes].
      * split; [apply setOf_NoDup|]. split; discriminate.
      * split; [exact Hnd|]. split; [exact Hnone | discriminate].
  - intros m log m' log' r Hm R. unfold reset, bind, vdbReset, await in R.
    destruct (onReset env log) as [u|]; injection R as <- _ _.
    + split; [constructor|]. split; reflexivity.
    + exact Hm.
Qed.

End Sync.

Lemma sync_completed_witness :
  sync hello smallChunks fresh []
    = (fst afterHello, snd afterHello, Ok true) /\
  lastDocHash (fst afterHello) = Some (Sha256.sha256 hello) /\
  NoDup (storedHashes (fst afterHello)).
Proof.
  assert (H : sync hello smallChunks fresh []
              = (fst afterHello, snd afterHello, Ok true))
    by (vm_compute; reflexivity).
  split; [exact H|].
  destruct (sync_completed Sha256.sha256 noShift quiet hello smallChunks
              fresh _ [] _ true H) as (Hd & h & _ & _ & Hn & _).
  split; [exact Hd | exact Hn].
Defined.

Lemma sync_same_chunks_witness :
  sync helloNewline smallChunks (fst afterHello) (snd afterHello)
  = (mkManager (Some (Sha256.sha256 helloNewline))
       (setOf (map hash
                 (chunkWithHierarchy Sha256.sha256 helloNewline
                    helloNewlineMap (chunking smallChunks))))
       (Some helloNewlineMap),
     snd afterHello, Ok true).
Proof.
  assert (E : sameHash (Sha256.sha256 helloNewline)
                (lastDocHash (fst afterHello)) = false)
    by (vm_compute; reflexivity).
  assert (Hh : extractHierarchy noShift quiet helloNewline (Some TheEmbedder)
                 (structure smallChunks) (fst afterHello) (snd afterHello)
               = (fst afterHello, snd afterHello, Ok helloNewlineMap))
    by (vm_compute; reflexivity).
  assert (Hs : staleOf (fst afterHello)
                 (chunkWithHierarchy Sha256.sha256 helloNewline
                    helloNewlineMap (chunking smallChunks)) = [])
    by (vm_compute; reflexivity).
  assert (Hn : newOf (fst afterHello)
                 (chunkWithHierarchy Sha256.sha256 helloNewline
                    helloNewlineMap (chunking smallChunks)) = [])
    by (vm_compute; reflexivity).
  exact (sync_same_chunks Sha256.sha256 noShift quiet helloNewline smallChunks
           (fst afterHello) (snd afterHello) (snd afterHello)
           helloNewlineMap E Hh Hs Hn).
Defined.

End ManagerProperties.

(* ================================================================== *)
(** ** Documents that fit one chunk                                    *)
(* ================================================================== *)

Module SmallFacts.
Import JsFacts Chunker ChunkerNotions ChunkerFacts SegmentNotions TrimFacts
  SplitFacts SegmentFacts SmallNotions.

Lemma spread_app (a b : list str) : spread (a ++ b) = spread a + spread b.
Proof. induction a as [|p a IH]; cbn [app spread]; lia. Qed.

Lemma spread_nonneg (l : list str) : 0 <= spread l.
Proof.
  induction l as [|p l IH]; cbn [spread]; [lia|].
  pose proof (len_nonneg p). lia.
Qed.

Lemma splitGo_spread (m : option ascii -> str -> option nat) :
  wideMatches m ->
  forall s prev skip cur,
    spread (splitGo m prev skip cur s)
      + Z.of_nat (Nat.min skip (length s))
      <= len cur + len s + 2.
Proof.
  intros Hm. induction s as [|c s IH]; intros prev skip cur.
  - cbn [splitGo spread]. rewrite reverse_rev. unfold len.
    rewrite length_rev. cbn [length]. lia.
  - cbn [splitGo]. rewrite len_cons. destruct skip as [|k].
    + destruct (m prev (c :: s)) as [[|k]|] eqn:E.
      * specialize (IH (Some c) 0%nat (c :: cur)). rewrite len_cons in IH.
        cbn [Nat.min] in *. lia.
      * apply Hm in E. cbn [length] in E.
        specialize (IH (Some c) k []). cbn [spread].
        rewrite reverse_rev. unfold len at 1. rewrite length_rev.
        change (len []) with 0 in IH. fold (len cur).
        cbn [Nat.min]. lia.
      * specialize (IH (Some c) 0%nat (c :: cur)). rewrite len_cons in IH.
        cbn [Nat.min] in *. lia.
    + specialize (IH (Some c) k cur). cbn [length Nat.min]. lia.
Qed.

Lemma uptoLastNewline_positive (ws : str) (k : nat) :
  uptoLastNewline ws = Some k -> (1 <= k)%nat.
Proof.
  revert k. induction ws as [|c ws IH]; intros k H; [discriminate|].
  cbn [uptoLastNewline] in H. destruct (uptoLastNewline ws) as [j|].
  - injection H as <-. lia.
  - destruct (Ascii.eqb c nl); [|discriminate]. injection H as <-. lia.
Qed.

Lemma length_takeWhile {A} (p : A -> bool) (l : list A) :
  (length (takeWhile p l) <= length l)%nat.
Proof.
  induction l as [|x l IH]; cbn [takeWhile length]; [lia|].
  destruct (p x); cbn [length]; lia.
Qed.

Lemma PARAGRAPH_SPLIT_wide : wideMatches PARAGRAPH_SPLIT.
Proof.
  intros prev s n H. unfold PARAGRAPH_SPLIT in H.
  destruct s as [|c rest]; [discriminate|].
  destruct (Ascii.eqb c nl); [|discriminate].
  destruct (uptoLastNewline (takeWhile isSpace rest)) as [j|] eqn:U;
    [|discriminate].
  injection H as <-.
  pose proof (uptoLastNewline_positive _ _ U).
  pose proof (uptoLastNewline_length _ _ U).
  pose proof (length_takeWhile isSpace rest).
  cbn [length]. lia.
Qed.

Lemma spread_filter (keep : str -> bool) (l : list str) :
  spread (filter keep l) <= spread l.
Proof.
  induction l as [|p l IH]; cbn [filter spread]; [lia|].
  pose proof (len_nonneg p). destruct (keep p); cbn [spread]; lia.
Qed.

Lemma spread_map_trim (l : list str) : spread (map trim l) <= spread l.
Proof.
  induction l as [|p l IH]; cbn [map spread]; [lia|].
  pose proof (len_trim p). lia.
Qed.

Lemma paragraphsOf_spread (text : str) :
  spread (paragraphsOf text) <= len text + 2.
Proof.
  unfold paragraphsOf.
  pose proof (spread_filter nonBlank (splitRegex PARAGRAPH_SPLIT text)).
  pose proof (splitGo_spread PARAGRAPH_SPLIT PARAGRAPH_SPLIT_wide text
                None 0%nat []) as H0.
  unfold splitRegex in *. cbn [Nat.min] in H0. change (len []) with 0 in H0.
  lia.
Qed.

Lemma spread_In (l : list str) (p : str) : In p l -> len p + 2 <= spread l.
Proof.
  induction l as [|q l IH]; intros H; [destruct H|].
  cbn [spread]. destruct H as [<-|H].
  - pose proof (spread_nonneg l). lia.
  - specialize (IH H). pose proof (len_nonneg q). lia.
Qed.

(** Paragraphs that fit are only trimmed. *)
Lemma breakParagraphs_small (maxSize : Z) (paragraphs : list str) :
  forall raw,
    Forall (fun p => len p <= maxSize) paragraphs ->
    breakParagraphs maxSize paragraphs raw = raw ++ map trim paragraphs.
Proof.
  induction paragraphs as [|para rest IH]; intros raw H; cbn [breakParagraphs map].
  - rewrite app_nil_r. reflexivity.
  - inversion H as [|? ? Hp Hrest]; subst.
    apply Z.leb_le in Hp. rewrite Hp, (IH _ Hrest), <- app_assoc. reflexivity.
Qed.

Lemma len_join_spread (p : str) (l : list str) :
  len (join [nl; nl] (p :: l)) + 2 = spread (p :: l).
Proof.
  revert p. induction l as [|q l IH]; intros p.
  - cbn [join spread]. lia.
  - change (join [nl; nl] (p :: q :: l))
      with (p ++ [nl; nl] ++ join [nl; nl] (q :: l)).
    rewrite !len_app. change (len [nl; nl]) with 2.
    specialize (IH q). cbn [spread] in *. lia.
Qed.

(** Segments that fit together are merged into one. *)
Lemma mergeSegments_small (maxSize : Z) (raw : list str) :
  forall buffer merged,
    Forall nonEmpty raw ->
    buffer <> [] ->
    len buffer + spread raw <= maxSize ->
    mergeSegments maxSize raw buffer merged
      = merged ++ [join [nl; nl] (buffer :: raw)].
Proof.
  induction raw as [|seg rest IH]; intros buffer merged Hne Hb Hfit;
    cbn [mergeSegments].
  - apply positive_len in Hb. rewrite Hb. reflexivity.
  - inversion Hne as [|? ? Hseg Hrest]; subst. unfold nonEmpty in Hseg.
    cbn [spread] in Hfit. pose proof (spread_nonneg rest) as Hsp.
    assert (E : (maxSize <? len buffer + len seg + 2) = false)
      by (apply Z.ltb_ge; lia).
    rewrite E. cbn [andb].
    pose proof Hb as Hb'. apply positive_len in Hb'. rewrite Hb'.
    rewrite IH.
    + f_equal. f_equal.
      change (join [nl; nl] (buffer :: seg :: rest))
        with (buffer ++ [nl; nl] ++ join [nl; nl] (seg :: rest)).
      destruct rest as [|r rest].
      * cbn [join]. reflexivity.
      * change (join [nl; nl] ((buffer ++ [nl; nl] ++ seg) :: r :: rest))
          with ((buffer ++ [nl; nl] ++ seg) ++ [nl; nl]
                  ++ join [nl; nl] (r :: rest)).
        change (join [nl; nl] (seg :: r :: rest))
          with (seg ++ [nl; nl] ++ join [nl; nl] (r :: rest)).
        rewrite <- !app_assoc. reflexivity.
    + exact Hrest.
    + intros F. apply app_eq_nil in F. destruct F as [F _]. contradiction.
    + rewrite !len_app. change (len [nl; nl]) with 2. lia.
Qed.

Lemma splitIntoSegments_small (text : str) (maxSize : Z) :
  len text <= maxSize ->
  splitIntoSegments text maxSize
    = match paragraphsOf text with
      | [] => []
      | _ => [wholeText text]
      end.
Proof.
  intros Hfit. unfold splitIntoSegments, wholeText. fold (paragraphsOf text).
  pose proof (paragraphsOf_spread text) as Hsp.
  assert (Hall : Forall (fun p => len p <= maxSize) (paragraphsOf text)).
  { apply Forall_forall. intros p Hp.
    pose proof (spread_In _ p Hp). lia. }
  rewrite (breakParagraphs_small maxSize _ [] Hall). cbn [app].
  assert (Htidy : Forall tidy (map trim (paragraphsOf text))).
  { apply Forall_forall. intros t Ht. apply in_map_iff in Ht.
    destruct Ht as (p & <- & Hp). apply tidy_trim, nonBlank_trim.
    unfold paragraphsOf in Hp. apply filter_In in Hp. apply Hp. }
  pose proof (spread_map_trim (paragraphsOf text)) as Htrim.
  destruct (paragraphsOf text) as [|p ps]; [reflexivity|].
  cbn [map] in *. cbn [mergeSegments].
  inversion Htidy as [|? ? Hp Hps]; subst.
  change (0 <? len []) with false. rewrite andb_false_r.
  rewrite mergeSegments_small.
  - reflexivity.
  - eapply Forall_impl; [|exact Hps]. intros s [Hs _]. unfold nonEmpty.
    apply positive_len in Hs. apply Z.ltb_lt in Hs. exact Hs.
  - apply Hp.
  - cbn [spread] in Htrim, Hsp. lia.
Qed.

End SmallFacts.

Module SmallProperties.
Import JsFacts Chunker ChunkerNotions ChunkerFacts SegmentNotions TrimFacts
  SplitFacts SegmentFacts SmallNotions SmallFacts Summarize RunNotions
  SummarizeClaims Scenario.

Section WithDigest.

Variable sha256 : str -> str.

Lemma chunkText_small (text : str) (options : ChunkOptions) :
  len text <= resolveMaxChunkSize options ->
  match paragraphsOf text with
  | [] => chunkText sha256 text options = []
  | _ =>
      exists start end_,
        chunkText sha256 text options
          = [mkChunk 0 (wholeText text) start end_ (sha256 (wholeText text))
               None None None]
  end.
Proof.
  intros Hfit. unfold chunkText.
  rewrite (splitIntoSegments_small text _ Hfit).
  unfold applyOverlap.
  destruct (paragraphsOf text) as [|p ps];
    cbn [length Nat.leb]; rewrite orb_true_r; [reflexivity|].
  cbn [assignPositions]. eexists. eexists. reflexivity.
Qed.

(** X22. A document that is no longer than [maxChunkSize] gives no
    chunk when it is blank, and else exactly one: its paragraphs,
    trimmed and joined by blank lines, whatever the overlap. *)
Theorem chunkText_small_document (text : str) (options : ChunkOptions) :
  len text <= resolveMaxChunkSize options ->
  match paragraphsOf text with
  | [] => chunkText sha256 text options = []
  | _ =>
      exists start end_,
        chunkText sha256 text options
          = [mkChunk 0 (wholeText text) start end_ (sha256 (wholeText text))
               None None None]
  end.
Proof. apply chunkText_small. Qed.

Section Agent.

Context {Vec St : Type}.
Variable env : Env Vec.

(** X23. A document of at most 10000 characters is summarized without
    a MAP phase: no call at all and the empty summary when it is blank,
    and else one REDUCE call on its trimmed paragraphs; the trimmed
    response is the summary, and a rejected call is reported as
    "Failed to summarize document". *)
Theorem summarize_small_document (text : str) (s : St)
    (log : list (Event Vec)) :
  len text <= 10000 ->
  summarizeDocument sha256 env text s log
    = match paragraphsOf text with
      | [] => (s, log, Ok [])
      | _ =>
          (s,
           log ++ [Generate REDUCE_PROMPT (wholeText text)
                     (onGenerate env log REDUCE_PROMPT (wholeText text))],
           match onGenerate env log REDUCE_PROMPT (wholeText text) with
           | Some response => Ok (trim response)
           | None => Err (Thrown noSingle)
           end)
      end.
Proof.
  intros Hfit. unfold summarizeDocument.
  pose proof (chunkText_small text windows Hfit) as H.
  destruct (paragraphsOf text) as [|p ps].
  - rewrite H. reflexivity.
  - destruct H as (start & end_ & ->). cbn [Chunker.text].
    unfold tryCatch, bind, generate, await, ret, throw.
    destruct (onGenerate env log REDUCE_PROMPT (wholeText text)); reflexivity.
Qed.

(** X24. Whatever the agent answers, [summarizeDocument] leaves the
    state alone, calls nothing but the agent, at most once per chunk
    and once more, and fails only with one of its three own errors:
    a rejected call is never passed on as such. *)
Theorem summarize_outcomes (text : str) (s s' : St)
    (log log' : list (Event Vec)) (r : Result str) :
  summarizeDocument sha256 env text s log = (s', log', r) ->
  s' = s /\
  (exists evs,
     log' = log ++ evs /\
     forallb isGenerate evs = true /\
     (length evs <= length (chunkText sha256 text windows) + 1)%nat) /\
  match r with
  | Ok _ => True
  | Err e => summaryError e
  end.
Proof.
  unfold summarizeDocument.
  destruct (chunkText sha256 text windows) as [|c0 [|c1 chunks]] eqn:Ec.
  - intros H. injection H as <- <- <-. split; [reflexivity|].
    split; [|exact I]. exists []. rewrite app_nil_r. cbn. auto.
  - unfold tryCatch, bind, generate, await, ret, throw.
    destruct (onGenerate env log REDUCE_PROMPT (Chunker.text c0));
      intros H; injection H as <- <- <-; (split; [reflexivity|]);
      (split; [eexists; split; [reflexivity|]; cbn; split; [reflexivity|lia]|]).
    + exact I.
    + left. reflexivity.
  - destruct (mapPhase_run env (c0 :: c1 :: chunks) [] s log)
      as (evs & Hcalls & Hrun).
    assert (Hgen : forallb isGenerate evs = true).
    { clear - Hcalls. induction Hcalls as [|e c evs cs [reply ->] _ IH];
        [reflexivity|]. cbn [forallb isGenerate]. exact IH. }
    pose proof (Forall2_length Hcalls) as Hlen.
    unfold bind at 1. rewrite Hrun. cbn [app].
    destruct (collected evs) as [|k ks].
    + unfold throw. intros H. injection H as <- <- <-.
      split; [reflexivity|]. split; [|right; left; reflexivity].
      exists evs. split; [reflexivity|]. split; [exact Hgen|]. lia.
    + unfold tryCatch, bind, generate, await, ret, throw.
      destruct (onGenerate env (log ++ evs) REDUCE_PROMPT (combine (k :: ks)));
        intros H; injection H as <- <- <-; (split; [reflexivity|]);
        (split;
         [eexists; split; [rewrite <- app_assoc; reflexivity|];
          split; [rewrite forallb_app, Hgen; reflexivity
                 | rewrite length_app; cbn [length] in *; lia]
         |]).
      * exact I.
      * right. right. reflexivity.
Qed.

End Agent.

End WithDigest.

Lemma chunkText_small_document_witness :
  len S1_text <= resolveMaxChunkSize S1_options /\
  exists start end_,
    chunkText Sha256.sha256 S1_text S1_options
      = [mkChunk 0 (lit "A paragraph." ++ [nl; nl] ++ lit "Another.")
           start end_
           (Sha256.sha256 (wholeText S1_text)) None None None].
Proof.
  assert (H : len S1_text <= resolveMaxChunkSize S1_options)
    by (vm_compute; discriminate).
  split; [exact H|].
  exact (chunkText_small_document Sha256.sha256 S1_text S1_options H).
Defined.

Lemma summarize_small_document_witness :
  len hello <= 10000 /\
  summarizeDocument Sha256.sha256 quiet hello tt []
    = (tt, [Generate REDUCE_PROMPT (lit "Hello.") (Some (lit "   "))], Ok []).
Proof.
  assert (H : len hello <= 10000) by (vm_compute; discriminate).
  split; [exact H|].
  exact (summarize_small_document Sha256.sha256 quiet hello tt [] H).
Defined.

Lemma summarize_outcomes_witness :
  summarizeDocument Sha256.sha256 brokenTable hello tt []
    = (tt, [Generate REDUCE_PROMPT (lit "Hello.") None],
       Err (Thrown noSingle)) /\
  summaryError (Thrown noSingle).
Proof.
  assert (H : summarizeDocument Sha256.sha256 brokenTable hello tt []
              = (tt, [Generate REDUCE_PROMPT (lit "Hello.") None],
                 Err (Thrown noSingle)))
    by (vm_compute; reflexivity).
  split; [exact H|].
  exact (proj2 (proj2 (summarize_outcomes Sha256.sha256 brokenTable hello
                         tt tt [] _ _ H))).
Defined.

End SmallProperties.

(* ================================================================== *)
(** ** Properties of the vector table wrapper                          *)
(* ================================================================== *)

Module VectorDBProperties.
Import VectorDB.

(** Split a run of the model into the cases of the replies: destruct a
    scrutinee that holds no other case analysis, and simplify. *)
Ltac split_run H :=
  cbn beta iota delta [tableName db table embedder withDb withTable] in H;
  repeat
    (match type of H with
     | context [match ?x with _ => _ end] =>
         lazymatch x with
         | context [match _ with _ => _ end] => fail
         | _ => let E := fresh "E" in destruct x eqn:E
         end
     end;
     cbn beta iota delta [tableName db table embedder withDb withTable] in H).

Section Store.

Context {Rec TRec Vec Row Conn Tbl : Type}.
Variable world : World Rec Vec Row Conn Tbl.

(** X25. [insert] of an empty list calls nothing: it succeeds, logs
    no call and leaves the store as it was.  Otherwise, whenever a call
    of [insert] creates the table, it creates it from the records it
    was given and then also adds these records to the new table; and a
    call that succeeds leaves a table cached, to which it added the
    records. *)
Theorem insert_creates_then_adds (records : list Rec)
    (st st' : Store Conn Tbl)
    (log log' : list (Call Rec Vec Row Conn Tbl)) (r : Result unit) :
  insert world records st log = (st', log', r) ->
  exists evs,
    log' = log ++ evs /\
    (records = [] -> evs = [] /\ log' = log /\ st' = st /\ r = Ok tt) /\
    (forall c name data t,
       In (CreateTable c name data (Some t)) evs ->
       name = tableName st /\ data = records /\
       exists reply, In (AddRows t records reply) evs) /\
    (records <> [] -> r = Ok tt ->
     exists t, table st' = Some t /\
               In (AddRows t records (Some tt)) evs).
Proof.
  intros H. destruct st as [name d t e].
  unfold insert, getTable, connect, andThen, this, assign, call, pure in H.
  destruct records as [|r0 rs].
  - injection H as <- <- <-. exists []. rewrite app_nil_r.
    split; [reflexivity|].
    split; [intros _; repeat split; reflexivity|].
    split; [intros ? ? ? ? []|].
    intros F. contradiction.
  - split_run H; try discriminate.
    all: injection H as <- <- <-.
    all: repeat match goal with u : unit |- _ => destruct u end.
    all: rewrite <- ?app_assoc; cbn [app].
    all: eexists; split; [reflexivity|].
    all: split; [intros F; discriminate F|].
    all: split.
    all: try (intros _ Hr;
              first [discriminate Hr
                    | eexists; split; [reflexivity|]; cbn [In]; eauto 10]).
    all: intros qc qname qdata qt Hin; cbn [In] in Hin;
        repeat (destruct Hin as [Hin|Hin]; try discriminate Hin);
        try contradiction.
    all: injection Hin as <- <- <- <-.
    all: (split; [reflexivity|]); (split; [reflexivity|]).
    all: eexists; cbn [In]; eauto 10.
Qed.

(** X26. [reset] only connects, lists the tables and drops the one
    called [tableName], and drops only after a listing that names it;
    it forgets the cached table exactly when it succeeds. *)
Theorem reset_forgets_table (st st' : Store Conn Tbl)
    (log log' : list (Call Rec Vec Row Conn Tbl)) (r : Result unit) :
  reset world st log = (st', log', r) ->
  tableName st' = tableName st /\
  table st' = (match r with Ok _ => None | Err _ => table st end) /\
  exists evs,
    log' = log ++ evs /\
    forallb resetting evs = true /\
    forall c name reply,
      In (DropTable c name reply) evs ->
      name = tableName st /\
      exists names,
        In (TableNames c (Some names)) evs /\
        includes names name = true.
Proof.
  intros H. destruct st as [name d t e].
  unfold reset, connect, andThen, this, assign, call, pure in H.
  split_run H.
  all: injection H as <- <- <-.
  all: cbn [tableName table].
  all: split; [reflexivity|]; split; [reflexivity|].
  all: rewrite <- ?app_assoc; cbn [app]; rewrite ?app_nil_r.
  all: eexists; split; [reflexivity|]; split; [reflexivity|].
  all: intros qc qname qreply Hin; cbn [In] in Hin;
      repeat (destruct Hin as [Hin|Hin]; try discriminate Hin);
      try contradiction.
  all: injection Hin as <- <- <-.
  all: split; [reflexivity|]; eexists; split; [cbn [In]; eauto|assumption].
Qed.

(** X27. [count] and [search] never create, fill or drop a table.  A
    count comes from the table, which is then cached, or it is 0 and
    no table was asked; likewise a search returns the rows of the
    table, or nothing. *)
Theorem reads_never_write {Res} (toResult : Row -> Res) (queryVector : Vec)
    (limit : option Z) (st : Store Conn Tbl)
    (log : list (Call Rec Vec Row Conn Tbl)) :
  (exists evs,
     snd (fst (count world st log)) = log ++ evs /\
     existsb writes evs = false /\
     match snd (count world st log) with
     | Ok n =>
         (exists t, In (CountRows t (Some n)) evs /\
                    table (fst (fst (count world st log))) = Some t) \/
         (n = 0 /\ table (fst (fst (count world st log))) = None /\
          forall e, In e evs -> kind e <> counting)
     | Err _ => True
     end) /\
  (exists evs,
     snd (fst (search world toResult queryVector limit st log)) = log ++ evs /\
     existsb writes evs = false /\
     match snd (search world toResult queryVector limit st log) with
     | Ok results =>
         (exists t rows,
            In (VectorSearch t queryVector (limitOf limit) (Some rows)) evs /\
            results = map toResult rows) \/
         (results = [] /\
          forall e, In e evs -> kind e <> searching)
     | Err _ => True
     end).
Proof.
  split.
  - destruct (count world st log) as [[st' log'] r] eqn:H. cbn [fst snd].
    destruct st as [name d t e].
    unfold count, getTable, connect, andThen, this, assign, call, pure in H.
    split_run H.
    all: injection H as <- <- <-.
    all: rewrite <- ?app_assoc; cbn [app]; rewrite ?app_nil_r.
    all: eexists; split; [reflexivity|]; split; [reflexivity|].
    all: try exact I.
    all: cbn [table].
    all: first
      [ left; eexists; split; [cbn [In]; eauto 10 | reflexivity]
      | right; split; [reflexivity|]; split; [reflexivity|];
        intros q Hin; cbn [In] in Hin;
        repeat (destruct Hin as [<-|Hin]; [discriminate|]);
        contradiction ].
  - destruct (search world toResult queryVector limit st log)
      as [[st' log'] r] eqn:H. cbn [fst snd].
    destruct st as [name d t e].
    unfold search, getTable, connect, andThen, this, assign, call, pure in H.
    split_run H.
    all: injection H as <- <- <-.
    all: rewrite <- ?app_assoc; cbn [app]; rewrite ?app_nil_r.
    all: eexists; split; [reflexivity|]; split; [reflexivity|].
    all: try exact I.
    all: first
      [ left; eexists; eexists; split; [cbn [In]; eauto 10 | reflexivity]
      | right; split; [reflexivity|];
        intros q Hin; cbn [In] in Hin;
        repeat (destruct Hin as [<-|Hin]; [discriminate|]);
        contradiction ].
Qed.

(** X28. The text operations need an embedder: without one,
    [searchText] and [insertText] of a non-empty list throw before any
    call, while [insertText] of an empty list returns at once.  With
    one, [insertText] first embeds the texts of all records in one
    call, and no further embedding follows. *)
Theorem text_operations {Res} (textOf : TRec -> str)
    (withVector : TRec -> option Vec -> Rec) (toResult : Row -> Res)
    (records : list TRec) (query : str) (limit : option Z)
    (st : Store Conn Tbl) (log : list (Call Rec Vec Row Conn Tbl)) :
  insertText world textOf withVector [] st log = (st, log, Ok tt) /\
  (embedder st = false ->
   searchText world toResult query limit st log
     = (st, log, Err (Thrown noEmbedder)) /\
   (records <> [] ->
    insertText world textOf withVector records st log
      = (st, log, Err (Thrown noEmbedder)))) /\
  (embedder st = true -> records <> [] ->
   exists rest,
     snd (fst (insertText world textOf withVector records st log))
       = log ++ EmbedTexts (map textOf records)
                  (onEmbedTexts world log (map textOf records)) :: rest /\
     forallb (fun e => match kind e with embedding => false | _ => true end)
       rest = true).
Proof.
  split; [reflexivity|]. split.
  - intros He. destruct st as [name d t e]. cbn [embedder] in He. subst e.
    split; [reflexivity|]. intros Hne.
    destruct records as [|r0 rs]; [contradiction | reflexivity].
  - intros He Hne.
    destruct (insertText world textOf withVector records st log)
      as [[st' log'] r] eqn:H. cbn [fst snd].
    destruct st as [name d t e]. cbn [embedder] in He. subst e.
    destruct records as [|r0 rs]; [contradiction|].
    unfold insertText, requireEmbedder, andThen, this, call, pure in H.
    cbn beta iota delta [embedder] in H.
    destruct (onEmbedTexts world log (map textOf (r0 :: rs))) as [vectors|].
    + cbn [withVectors] in H.
      unfold insert, getTable, connect, andThen, this, assign, call, pure in H.
      split_run H.
      all: injection H as _ <- _.
      all: rewrite <- ?app_assoc; cbn [app].
      all: eexists; split; [reflexivity | reflexivity].
    + injection H as _ <- _. exists []. split; reflexivity.
Qed.

End Store.

Lemma insert_creates_then_adds_witness :
  insert emptyWorld [1; 2] newStore []
    = (mkStore (lit "chunks") (Some tt) (Some tt) false,
       [Connect (Some tt); TableNames tt (Some []);
        CreateTable tt (lit "chunks") [1; 2] (Some tt);
        AddRows tt [1; 2] (Some tt)],
       Ok tt) /\
  exists evs : list (Call Z Z Z unit unit),
    [Connect (Some tt); TableNames tt (Some []);
     CreateTable tt (lit "chunks") [1; 2] (Some tt);
     AddRows tt [1; 2] (Some tt)] = [] ++ evs /\
    forall c name data t,
      In (CreateTable c name data (Some t)) evs ->
      name = lit "chunks" /\ data = [1; 2] /\
      exists reply, In (AddRows t [1; 2] reply) evs.
Proof.
  assert (H : insert emptyWorld [1; 2] newStore []
              = (mkStore (lit "chunks") (Some tt) (Some tt) false,
                 [Connect (Some tt); TableNames tt (Some []);
                  CreateTable tt (lit "chunks") [1; 2] (Some tt);
                  AddRows tt [1; 2] (Some tt)],
                 Ok tt)) by reflexivity.
  split; [exact H|].
  destruct (insert_creates_then_adds emptyWorld [1; 2] newStore _ [] _ _ H)
    as (evs & Hlog & _ & Hcreate & _).
  exists evs. split; [exact Hlog | exact Hcreate].
Defined.

Lemma reset_forgets_table_witness :
  reset emptyWorld (mkStore (lit "chunks") (Some tt) (Some tt) false) []
    = (mkStore (lit "chunks") (Some tt) None false,
       [TableNames tt (Some [])], Ok tt) /\
  table (mkStore (lit "chunks") (Some tt) (None : option unit) false) = None.
Proof.
  assert (H : reset emptyWorld
                (mkStore (lit "chunks") (Some tt) (Some tt) false) []
              = (mkStore (lit "chunks") (Some tt) None false,
                 [TableNames tt (Some [])], Ok tt)) by reflexivity.
  split; [exact H|].
  exact (proj1 (proj2 (reset_forgets_table emptyWorld _ _ [] _ _ H))).
Defined.

End VectorDBProperties.

(* ================================================================== *)
(** ** Properties of the review and chat functions                     *)
(* ================================================================== *)

Module ReviewProperties.
Import JsFacts Chunker ChunkerNotions ChunkerFacts SegmentNotions SmallNotions
  ChunkerProperties SmallProperties Review Scenario.

Section Reviewing.

Context {Item Json : Type}.
Variable sha256 : str -> str.
Variable agent : Agent.
Variable parseItems : str -> option (list Item).
Variable parseValue : str -> option Json.

Lemma reviewLoop_run (t : Task) (chunks : list Chunk) :
  forall log all,
  exists evs,
    fst (reviewLoop agent parseItems t chunks log all) = log ++ evs /\
    map prompt evs = map Chunker.text chunks /\
    Forall (fun e => task e = t) evs /\
    snd (reviewLoop agent parseItems t chunks log all)
      = all ++ flat_map (fun e => itemsOf parseItems (answer e)) evs.
Proof.
  induction chunks as [|chunk rest IH]; intros log all; cbn [reviewLoop].
  - exists []. cbn. rewrite !app_nil_r. auto.
  - destruct (IH (log ++ [mkAsk t (Chunker.text chunk)
                            (agent log t (Chunker.text chunk))])
                (all ++ itemsOf parseItems (agent log t (Chunker.text chunk))))
      as (evs & H1 & H2 & H3 & H4).
    exists (mkAsk t (Chunker.text chunk) (agent log t (Chunker.text chunk))
              :: evs).
    split; [rewrite H1, <- app_assoc; reflexivity|].
    split; [cbn [map prompt]; rewrite H2; reflexivity|].
    split; [constructor; [reflexivity | exact H3]|].
    rewrite H4. cbn [flat_map answer]. rewrite <- app_assoc. reflexivity.
Qed.

(** X29. [criticizeDocument] and [suggestChangesDocument] ask the agent
    once per chunk of the document (windows of 1500 characters with an
    overlap of 200), in order and with the chunk text as the message;
    what they return are the items of the answers that parse, in that
    order.  A document of at most 1500 characters is sent in one
    message, its trimmed paragraphs joined by blank lines, and a blank
    one is not sent at all. *)
Theorem review_calls (t : Task) (text : str) (log : list Ask) :
  exists evs,
    fst (reviewDocument sha256 agent parseItems t text log) = log ++ evs /\
    map prompt evs = map Chunker.text (chunkText sha256 text reviewWindows) /\
    Forall (fun e => task e = t) evs /\
    snd (reviewDocument sha256 agent parseItems t text log)
      = flat_map (fun e => itemsOf parseItems (answer e)) evs /\
    (len text <= 1500 ->
     map prompt evs
       = match paragraphsOf text with
         | [] => []
         | _ => [wholeText text]
         end).
Proof.
  unfold reviewDocument.
  destruct (reviewLoop_run t (chunkText sha256 text reviewWindows) log [])
    as (evs & H1 & H2 & H3 & H4).
  exists evs. split; [exact H1|]. split; [exact H2|]. split; [exact H3|].
  split; [exact H4|]. intros Hfit. rewrite H2.
  pose proof (chunkText_small sha256 text reviewWindows Hfit) as Hs.
  destruct (paragraphsOf text) as [|p ps].
  - rewrite Hs. reflexivity.
  - destruct Hs as (start & end_ & ->). reflexivity.
Qed.

Lemma relevantText_first (text : str) :
  relevantText sha256 text
    = match splitIntoSegments text 15000 with
      | first :: _ => first
      | [] => text
      end.
Proof.
  unfold relevantText.
  pose proof (chunkText_texts sha256 text chatWindows) as Ht.
  unfold applyOverlap in Ht. cbn [resolveOverlap chatWindows overlap] in Ht.
  change (0 <=? 0) with true in Ht. cbn [orb] in Ht.
  change (resolveMaxChunkSize chatWindows) with 15000 in Ht.
  pose proof (splitIntoSegments_nonEmpty text 15000) as Hne.
  destruct (chunkText sha256 text chatWindows) as [|c cs];
    destruct (splitIntoSegments text 15000) as [|s ss];
    try discriminate Ht; [reflexivity|].
  injection Ht as Hc _. rewrite Hc.
  inversion Hne as [|? ? Hs _]; subst. unfold nonEmpty in Hs.
  destruct (Chunker.text c); [cbn in Hs; lia | reflexivity].
Qed.

(** X30. [chatWithDocument] asks the agent exactly once.  The message
    holds the first canonical segment of the document (windows of 15000
    characters) and nothing of what follows it; for a document of at
    most 15000 characters this is the whole of its trimmed paragraphs,
    and a blank document is sent as it is.  A parsed value is returned
    only when the answer had content that parsed once the fence was
    stripped; every other outcome is one of the two fixed replies. *)
Theorem chat_sends_first_segment (text query mode : str) (log : list Ask) :
  (exists a,
     fst (chatWithDocument sha256 agent parseValue text query mode log)
       = log ++ [mkAsk CHAT (chatPrompt (relevantText sha256 text) mode query)
                   a] /\
     snd (chatWithDocument sha256 agent parseValue text query mode log)
       = chatResultOf parseValue a /\
     (forall value,
        chatResultOf parseValue a = Parsed value ->
        exists content,
          a = Content content /\
          parseValue (stripFence content) = Some value)) /\
  relevantText sha256 text
    = match splitIntoSegments text 15000 with
      | first :: _ => first
      | [] => text
      end /\
  (len text <= 15000 ->
   relevantText sha256 text
     = match paragraphsOf text with
       | [] => text
       | _ => wholeText text
       end).
Proof.
  split; [|split].
  - eexists. split; [reflexivity|]. split; [reflexivity|].
    intros value H.
    destruct (agent log CHAT
                (chatPrompt (relevantText sha256 text) mode query))
      as [| |content]; try discriminate H.
    exists content. split; [reflexivity|].
    unfold chatResultOf in H. destruct content as [|c content];
      [discriminate H|].
    destruct (stripFence (c :: content)) as [|j js]; [discriminate H|].
    destruct (parseValue (j :: js)) as [v|]; [|discriminate H].
    injection H as ->. reflexivity.
  - apply relevantText_first.
  - intros Hfit. rewrite relevantText_first.
    rewrite (SmallFacts.splitIntoSegments_small text 15000 Hfit).
    destruct (paragraphsOf text); reflexivity.
Qed.

End Reviewing.

End ReviewProperties.
